(** * A reactive signals engine: shallow embedding and verification

    The development embeds [packages/core/src/index.ts] (sources, computed
    signals, effects, the dependency edges between them and the batch
    scheduler) as executable Rocq functions over an explicit program state,
    and proves properties of those functions.

    Modelling conventions.
    - Objects live in arenas ([list]s indexed by [nat]); an object reference
      is its index, so aliasing is the aliasing of indices.  [undefined]
      pointers are [None].
    - JS numbers used as counters are unbounded integers ([Z]).
    - Values are compared with [!==] ([strict_neq]): the negation of
      identity, except that NaN differs from every value, itself included.
      Numbers are the integers and NaN.  An [Error] object carries a serial
      number that stands for its identity.
    - User closures (the formula of a computed, the body of an effect) are
      terms of [prog], a small language of calls into the engine's public
      operations.  Node creation and the disposer are called from outside an
      evaluation.
    - Every function that loops or calls back takes fuel; running out of
      fuel is the outcome [OutOfFuel], a dangling reference is [Crash].
    - The field [log] records which user closures were invoked, which
      targets were notified and which reads were tracked.  The engine never
      reads it. *)

From Stdlib Require Import ZArith String Lia.
From stdpp Require Import prelude strings.

Local Open Scope Z_scope.

(** ** Values *)

Inductive value :=
| VUndefined
| VBool (b : bool)
| VNum (n : Z)
| VNaN
| VStr (s : string)
| VError (serial : nat) (msg : string).

#[global] Instance value_eq_dec : EqDecision value.
Proof. solve_decision. Defined.

(** [a !== b]: NaN differs from everything, from NaN too. *)
Definition strict_neq (a b : value) : bool :=
  match a, b with
  | VNaN, _ | _, VNaN => true
  | _, _ => bool_decide (a ≠ b)
  end.

(** ** Flags *)

Definition RUNNING : Z := Z.shiftl 1 0.
Definition STALE : Z := Z.shiftl 1 1.
Definition NOTIFIED : Z := Z.shiftl 1 2.
Definition HAS_ERROR : Z := Z.shiftl 1 3.
Definition SHOULD_SUBSCRIBE : Z := Z.shiftl 1 4.

(** Truthiness of [flags & mask]. *)
Definition has_flag (flags mask : Z) : bool := negb (Z.land flags mask =? 0).
(** [flags |= mask] *)
Definition set_flag (flags mask : Z) : Z := Z.lor flags mask.
(** [flags &= ~mask] *)
Definition clear_flag (flags mask : Z) : Z := Z.land flags (Z.lnot mask).

(** ** User closures *)

Inductive prog :=
| Ret (v : value)                                   (* return v *)
| Throw (e : value)                                 (* throw e *)
| GetValue (s : nat) (k : value → prog)             (* x = s.value; k x *)
| PeekValue (s : nat) (k : value → prog)            (* x = s.peek(); k x *)
| SetValue (s : nat) (v : value) (k : prog)         (* s.value = v; k *)
| TryCatch (body : prog) (handler : value → prog) (k : value → prog)
| Batch (body : prog) (k : value → prog).           (* x = batch(body); k x *)

(** ** Heap objects *)

(** [Computed | Effect] *)
Inductive Target := TComputed (c : nat) | TEffect (e : nat).

#[global] Instance Target_eq_dec : EqDecision Target.
Proof. solve_decision. Defined.

Module Node.
Record t := mk {
  signal : nat;
  prevSignal : option nat;
  nextSignal : option nat;
  target : Target;
  prevTarget : option nat;
  nextTarget : option nat;
  version : Z;
  used : bool;
  rollbackNode : option nat
}.
Definition set_prevSignal (v : option nat) (n : t) : t :=
  mk n.(signal) v n.(nextSignal) n.(target) n.(prevTarget) n.(nextTarget)
     n.(version) n.(used) n.(rollbackNode).
Definition set_nextSignal (v : option nat) (n : t) : t :=
  mk n.(signal) n.(prevSignal) v n.(target) n.(prevTarget) n.(nextTarget)
     n.(version) n.(used) n.(rollbackNode).
Definition set_prevTarget (v : option nat) (n : t) : t :=
  mk n.(signal) n.(prevSignal) n.(nextSignal) n.(target) v n.(nextTarget)
     n.(version) n.(used) n.(rollbackNode).
Definition set_nextTarget (v : option nat) (n : t) : t :=
  mk n.(signal) n.(prevSignal) n.(nextSignal) n.(target) n.(prevTarget) v
     n.(version) n.(used) n.(rollbackNode).
Definition set_version (v : Z) (n : t) : t :=
  mk n.(signal) n.(prevSignal) n.(nextSignal) n.(target) n.(prevTarget)
     n.(nextTarget) v n.(used) n.(rollbackNode).
Definition set_used (v : bool) (n : t) : t :=
  mk n.(signal) n.(prevSignal) n.(nextSignal) n.(target) n.(prevTarget)
     n.(nextTarget) n.(version) v n.(rollbackNode).
Definition set_rollbackNode (v : option nat) (n : t) : t :=
  mk n.(signal) n.(prevSignal) n.(nextSignal) n.(target) n.(prevTarget)
     n.(nextTarget) n.(version) n.(used) v.
End Node.

(** The fields a [Computed] adds to a [Signal]. *)
Module Computed.
Record t := mk {
  _compute : prog;
  _sources : option nat;
  _globalVersion : Z;
  _flags : Z
}.
Definition set_sources (v : option nat) (c : t) : t :=
  mk c.(_compute) v c.(_globalVersion) c.(_flags).
Definition set_globalVersion (v : Z) (c : t) : t :=
  mk c.(_compute) c.(_sources) v c.(_flags).
Definition set_flags (v : Z) (c : t) : t :=
  mk c.(_compute) c.(_sources) c.(_globalVersion) v.
End Computed.

(** A [Signal]; [computed] is [Some] for an instance of the subclass. *)
Module Signal.
Record t := mk {
  _value : value;
  _version : Z;
  _node : option nat;
  _targets : option nat;
  computed : option Computed.t
}.
Definition set_value (v : value) (s : t) : t :=
  mk v s.(_version) s.(_node) s.(_targets) s.(computed).
Definition set_version (v : Z) (s : t) : t :=
  mk s.(_value) v s.(_node) s.(_targets) s.(computed).
Definition set_node (v : option nat) (s : t) : t :=
  mk s.(_value) s.(_version) v s.(_targets) s.(computed).
Definition set_targets (v : option nat) (s : t) : t :=
  mk s.(_value) s.(_version) s.(_node) v s.(computed).
Definition map_computed (f : Computed.t → Computed.t) (s : t) : t :=
  mk s.(_value) s.(_version) s.(_node) s.(_targets) (f <$> s.(computed)).
End Signal.

Module Effect.
Record t := mk {
  _callback : prog;
  _sources : option nat;
  _nextEffect : option nat;
  _flags : Z
}.
Definition set_sources (v : option nat) (e : t) : t :=
  mk e.(_callback) v e.(_nextEffect) e.(_flags).
Definition set_nextEffect (v : option nat) (e : t) : t :=
  mk e.(_callback) e.(_sources) v e.(_flags).
Definition set_flags (v : Z) (e : t) : t :=
  mk e.(_callback) e.(_sources) e.(_nextEffect) v.
End Effect.

(** ** Program state *)

Inductive event :=
| EvCompute (c : nat)            (* [this._compute()] of computed [c] *)
| EvEffect (e : nat)             (* the user callback of effect [e] *)
| EvNotify (t : Target)          (* a call of [t._notify()] *)
| EvRead (t : Target) (s : nat). (* [getValue(s)] with [evalContext = t] *)

Record State := mkState {
  signals : list Signal.t;
  effects : list Effect.t;
  nodes : list Node.t;
  evalContext : option Target;
  batchedEffect : option nat;
  batchDepth : Z;
  batchIteration : Z;
  globalVersion : Z;
  errorSerial : nat;
  log : list event
}.

Definition upd_signals (f : list Signal.t → list Signal.t) (σ : State) : State :=
  mkState (f σ.(signals)) σ.(effects) σ.(nodes) σ.(evalContext) σ.(batchedEffect)
    σ.(batchDepth) σ.(batchIteration) σ.(globalVersion) σ.(errorSerial) σ.(log).
Definition upd_effects (f : list Effect.t → list Effect.t) (σ : State) : State :=
  mkState σ.(signals) (f σ.(effects)) σ.(nodes) σ.(evalContext) σ.(batchedEffect)
    σ.(batchDepth) σ.(batchIteration) σ.(globalVersion) σ.(errorSerial) σ.(log).
Definition upd_nodes (f : list Node.t → list Node.t) (σ : State) : State :=
  mkState σ.(signals) σ.(effects) (f σ.(nodes)) σ.(evalContext) σ.(batchedEffect)
    σ.(batchDepth) σ.(batchIteration) σ.(globalVersion) σ.(errorSerial) σ.(log).
Definition set_evalContext (v : option Target) (σ : State) : State :=
  mkState σ.(signals) σ.(effects) σ.(nodes) v σ.(batchedEffect)
    σ.(batchDepth) σ.(batchIteration) σ.(globalVersion) σ.(errorSerial) σ.(log).
Definition set_batchedEffect (v : option nat) (σ : State) : State :=
  mkState σ.(signals) σ.(effects) σ.(nodes) σ.(evalContext) v
    σ.(batchDepth) σ.(batchIteration) σ.(globalVersion) σ.(errorSerial) σ.(log).
Definition set_batchDepth (v : Z) (σ : State) : State :=
  mkState σ.(signals) σ.(effects) σ.(nodes) σ.(evalContext) σ.(batchedEffect)
    v σ.(batchIteration) σ.(globalVersion) σ.(errorSerial) σ.(log).
Definition set_batchIteration (v : Z) (σ : State) : State :=
  mkState σ.(signals) σ.(effects) σ.(nodes) σ.(evalContext) σ.(batchedEffect)
    σ.(batchDepth) v σ.(globalVersion) σ.(errorSerial) σ.(log).
Definition set_globalVersion (v : Z) (σ : State) : State :=
  mkState σ.(signals) σ.(effects) σ.(nodes) σ.(evalContext) σ.(batchedEffect)
    σ.(batchDepth) σ.(batchIteration) v σ.(errorSerial) σ.(log).
Definition set_errorSerial (v : nat) (σ : State) : State :=
  mkState σ.(signals) σ.(effects) σ.(nodes) σ.(evalContext) σ.(batchedEffect)
    σ.(batchDepth) σ.(batchIteration) σ.(globalVersion) v σ.(log).
Definition add_log (ev : event) (σ : State) : State :=
  mkState σ.(signals) σ.(effects) σ.(nodes) σ.(evalContext) σ.(batchedEffect)
    σ.(batchDepth) σ.(batchIteration) σ.(globalVersion) σ.(errorSerial)
    (σ.(log) ++ [ev]).

(** The state of a freshly loaded module. *)
Definition init : State :=
  mkState [] [] [] None None 0 0 0 0%nat [].

(** ** State and exception monad *)

Inductive completion (A : Type) :=
| Normal (a : A)
| Throws (e : value).
Arguments Normal {A} a.
Arguments Throws {A} e.

Inductive result (A : Type) :=
| Done (c : completion A) (σ : State)
| OutOfFuel
| Crash.
Arguments Done {A} c σ.
Arguments OutOfFuel {A}.
Arguments Crash {A}.

Definition M (A : Type) : Type := State → result A.

Definition ret {A} (a : A) : M A := λ σ, Done (Normal a) σ.
Definition throw {A} (e : value) : M A := λ σ, Done (Throws e) σ.
Definition crash {A} : M A := λ _, Crash.

Definition bind {A B} (m : M A) (k : A → M B) : M B := λ σ,
  match m σ with
  | Done (Normal a) σ' => k a σ'
  | Done (Throws e) σ' => Done (Throws e) σ'
  | OutOfFuel => OutOfFuel
  | Crash => Crash
  end.

Notation "'let*' x ':=' m 'in' k" := (bind m (λ x, k))
  (at level 10, x pattern, m at level 100, k at level 200, only parsing).

(** [try { m } finally { fin }] *)
Definition try_finally {A} (m : M A) (fin : M unit) : M A := λ σ,
  match m σ with
  | Done c σ' =>
      match fin σ' with
      | Done (Normal _) σ'' => Done c σ''
      | Done (Throws e) σ'' => Done (Throws e) σ''
      | OutOfFuel => OutOfFuel
      | Crash => Crash
      end
  | OutOfFuel => OutOfFuel
  | Crash => Crash
  end.

(** [try { m } catch (e) { h e }] *)
Definition try_catch {A} (m : M A) (h : value → M A) : M A := λ σ,
  match m σ with
  | Done (Normal a) σ' => Done (Normal a) σ'
  | Done (Throws e) σ' => h e σ'
  | OutOfFuel => OutOfFuel
  | Crash => Crash
  end.

Definition get {A} (f : State → A) : M A := λ σ, Done (Normal (f σ)) σ.
Definition modify (f : State → State) : M unit := λ σ, Done (Normal tt) (f σ).
Definition when (b : bool) (m : M unit) : M unit := if b then m else ret tt.

(** ** Object access *)

Definition getNode (n : nat) : M Node.t := λ σ,
  match σ.(nodes) !! n with Some x => Done (Normal x) σ | None => Crash end.
Definition modNode (n : nat) (f : Node.t → Node.t) : M unit :=
  let* x := getNode n in modify (upd_nodes (λ l, <[n := f x]> l)).
Definition allocNode (x : Node.t) : M nat := λ σ,
  Done (Normal (length σ.(nodes))) (upd_nodes (λ l, l ++ [x]) σ).

Definition getSignal (s : nat) : M Signal.t := λ σ,
  match σ.(signals) !! s with Some x => Done (Normal x) σ | None => Crash end.
Definition modSignal (s : nat) (f : Signal.t → Signal.t) : M unit :=
  let* x := getSignal s in modify (upd_signals (λ l, <[s := f x]> l)).

Definition getComputed (c : nat) : M Computed.t :=
  let* x := getSignal c in
  match x.(Signal.computed) with Some y => ret y | None => crash end.
Definition modComputed (c : nat) (f : Computed.t → Computed.t) : M unit :=
  let* _ := getComputed c in modSignal c (Signal.map_computed f).

Definition getEffect (e : nat) : M Effect.t := λ σ,
  match σ.(effects) !! e with Some x => Done (Normal x) σ | None => Crash end.
Definition modEffect (e : nat) (f : Effect.t → Effect.t) : M unit :=
  let* x := getEffect e in modify (upd_effects (λ l, <[e := f x]> l)).

(** [target._sources] and [target._flags] for [target : Computed | Effect]. *)
Definition target_sources (t : Target) : M (option nat) :=
  match t with
  | TComputed c => let* x := getComputed c in ret x.(Computed._sources)
  | TEffect e => let* x := getEffect e in ret x.(Effect._sources)
  end.
Definition target_set_sources (t : Target) (v : option nat) : M unit :=
  match t with
  | TComputed c => modComputed c (Computed.set_sources v)
  | TEffect e => modEffect e (Effect.set_sources v)
  end.
Definition target_flags (t : Target) : M Z :=
  match t with
  | TComputed c => let* x := getComputed c in ret x.(Computed._flags)
  | TEffect e => let* x := getEffect e in ret x.(Effect._flags)
  end.

(** ** The engine *)

Definition out_of_fuel {A} : M A := λ _, OutOfFuel.

(** [throw new Error(msg)]: a fresh error object. *)
Definition throw_new_error {A} (msg : string) : M A := λ σ,
  Done (Throws (VError σ.(errorSerial) msg)) (set_errorSerial (S σ.(errorSerial)) σ).

Definition cycleDetected {A} : M A := throw_new_error "Cycle detected".

Definition startBatch : M unit :=
  modify (λ σ, set_batchDepth (σ.(batchDepth) + 1) σ).

(** [Signal.prototype._subscribe] *)
Definition Signal_subscribe (s node : nat) : M unit :=
  let* this := getSignal s in
  let* _ := match this.(Signal._targets) with
            | Some t => modNode t (Node.set_prevTarget (Some node))
            | None => ret tt
            end in
  let* _ := modNode node (Node.set_nextTarget this.(Signal._targets)) in
  let* _ := modNode node (Node.set_prevTarget None) in
  modSignal s (Signal.set_targets (Some node)).

(** [Signal.prototype._unsubscribe] *)
Definition Signal_unsubscribe (s node : nat) : M unit :=
  let* nd := getNode node in
  let prev := nd.(Node.prevTarget) in
  let next := nd.(Node.nextTarget) in
  let* _ := modNode node (Node.set_prevTarget None) in
  let* _ := modNode node (Node.set_nextTarget None) in
  let* _ := match prev with
            | Some p => modNode p (Node.set_nextTarget next)
            | None => ret tt
            end in
  let* _ := match next with
            | Some x => modNode x (Node.set_prevTarget prev)
            | None => ret tt
            end in
  let* this := getSignal s in
  when (bool_decide (this.(Signal._targets) = Some node))
    (modSignal s (Signal.set_targets next)).

(** [signal._subscribe(node)], dispatched on the class of [signal];
    [subscribe_sources] is the loop of [Computed.prototype._subscribe]. *)
Fixpoint subscribe (fuel : nat) (s node : nat) : M unit :=
  match fuel with
  | O => out_of_fuel
  | S fuel' =>
      let* this := getSignal s in
      match this.(Signal.computed) with
      | None => Signal_subscribe s node
      | Some _ =>
          let* _ :=
            match this.(Signal._targets) with
            | None =>
                let* _ := modComputed s (λ c, Computed.set_flags
                            (set_flag c.(Computed._flags) (Z.lor STALE SHOULD_SUBSCRIBE)) c) in
                let* c := getComputed s in
                subscribe_sources fuel' c.(Computed._sources)
            | Some _ => ret tt
            end in
          Signal_subscribe s node
      end
  end
with subscribe_sources (fuel : nat) (node : option nat) : M unit :=
  match fuel with
  | O => out_of_fuel
  | S fuel' =>
      match node with
      | None => ret tt
      | Some n =>
          let* nd := getNode n in
          let* _ := subscribe fuel' nd.(Node.signal) n in
          let* nd := getNode n in
          subscribe_sources fuel' nd.(Node.nextSignal)
      end
  end.

(** [signal._unsubscribe(node)], dispatched on the class of [signal];
    [unsubscribe_sources] is the loop of [Computed.prototype._unsubscribe]
    (and of [Effect.prototype._dispose]). *)
Fixpoint unsubscribe (fuel : nat) (s node : nat) : M unit :=
  match fuel with
  | O => out_of_fuel
  | S fuel' =>
      let* this := getSignal s in
      match this.(Signal.computed) with
      | None => Signal_unsubscribe s node
      | Some _ =>
          let* _ := Signal_unsubscribe s node in
          let* this := getSignal s in
          match this.(Signal._targets) with
          | None =>
              let* _ := modComputed s (λ c, Computed.set_flags
                          (clear_flag c.(Computed._flags) SHOULD_SUBSCRIBE) c) in
              let* c := getComputed s in
              unsubscribe_sources fuel' c.(Computed._sources)
          | Some _ => ret tt
          end
      end
  end
with unsubscribe_sources (fuel : nat) (node : option nat) : M unit :=
  match fuel with
  | O => out_of_fuel
  | S fuel' =>
      match node with
      | None => ret tt
      | Some n =>
          let* nd := getNode n in
          let* _ := unsubscribe fuel' nd.(Node.signal) n in
          let* nd := getNode n in
          unsubscribe_sources fuel' nd.(Node.nextSignal)
      end
  end.

(** [target._notify()], dispatched on the class of [target];
    [notify_targets] is the loop over a [_targets] list, as in
    [Computed.prototype._notify] and in the setter of [Signal.value]. *)
Fixpoint notify (fuel : nat) (t : Target) : M unit :=
  match fuel with
  | O => out_of_fuel
  | S fuel' =>
      let* _ := modify (add_log (EvNotify t)) in
      match t with
      | TComputed c =>
          let* x := getComputed c in
          if negb (has_flag x.(Computed._flags) NOTIFIED) then
            let* _ := modComputed c (λ x, Computed.set_flags
                        (set_flag x.(Computed._flags) (Z.lor STALE NOTIFIED)) x) in
            let* this := getSignal c in
            notify_targets fuel' this.(Signal._targets)
          else ret tt
      | TEffect e =>
          let* x := getEffect e in
          if negb (has_flag x.(Effect._flags) NOTIFIED) then
            let* _ := modEffect e (λ x, Effect.set_flags
                        (set_flag x.(Effect._flags) NOTIFIED) x) in
            let* be := get batchedEffect in
            let* _ := modEffect e (Effect.set_nextEffect be) in
            modify (set_batchedEffect (Some e))
          else ret tt
      end
  end
with notify_targets (fuel : nat) (node : option nat) : M unit :=
  match fuel with
  | O => out_of_fuel
  | S fuel' =>
      match node with
      | None => ret tt
      | Some n =>
          let* nd := getNode n in
          let* _ := notify fuel' nd.(Node.target) in
          let* nd := getNode n in
          notify_targets fuel' nd.(Node.nextTarget)
      end
  end.

(** The loop of [prepareSources]. *)
Fixpoint prepareSources_loop (fuel : nat) (node : option nat) : M unit :=
  match fuel with
  | O => out_of_fuel
  | S fuel' =>
      match node with
      | None => ret tt
      | Some n =>
          let* nd := getNode n in
          let* sg := getSignal nd.(Node.signal) in
          let rollbackNode := sg.(Signal._node) in
          let* _ := match rollbackNode with
                    | Some r => modNode n (Node.set_rollbackNode (Some r))
                    | None => ret tt
                    end in
          let* _ := modSignal nd.(Node.signal) (Signal.set_node (Some n)) in
          let* _ := modNode n (Node.set_used false) in
          let* nd := getNode n in
          prepareSources_loop fuel' nd.(Node.nextSignal)
      end
  end.

Definition prepareSources (fuel : nat) (t : Target) : M unit :=
  let* head := target_sources t in
  prepareSources_loop fuel head.

(** The loop of [cleanupSources]; returns the new list head [sources]. *)
Fixpoint cleanupSources_loop (fuel : nat) (node sources : option nat) : M (option nat) :=
  match fuel with
  | O => out_of_fuel
  | S fuel' =>
      match node with
      | None => ret sources
      | Some n =>
          let* nd := getNode n in
          let next := nd.(Node.nextSignal) in
          let* sources' :=
            if nd.(Node.used) then
              let* _ := match sources with
                        | Some s => modNode s (Node.set_prevSignal (Some n))
                        | None => ret tt
                        end in
              let* _ := modNode n (Node.set_prevSignal None) in
              let* _ := modNode n (Node.set_nextSignal sources) in
              ret (Some n)
            else
              let* _ := unsubscribe fuel' nd.(Node.signal) n in
              let* _ := modNode n (Node.set_nextSignal None) in
              ret sources in
          let* nd := getNode n in
          let* _ := modSignal nd.(Node.signal) (Signal.set_node nd.(Node.rollbackNode)) in
          let* _ := match nd.(Node.rollbackNode) with
                    | Some _ => modNode n (Node.set_rollbackNode None)
                    | None => ret tt
                    end in
          cleanupSources_loop fuel' next sources'
      end
  end.

Definition cleanupSources (fuel : nat) (t : Target) : M unit :=
  let* head := target_sources t in
  let* sources := cleanupSources_loop fuel head None in
  target_set_sources t sources.

Definition returnComputed (c : nat) : M value :=
  let* _ := modComputed c (λ x, Computed.set_flags
              (clear_flag x.(Computed._flags) RUNNING) x) in
  let* x := getComputed c in
  let* this := getSignal c in
  if has_flag x.(Computed._flags) HAS_ERROR then throw this.(Signal._value)
  else ret this.(Signal._value).

(** The end of [Computed.prototype.peek]: storing the outcome of the
    formula (the [if] that follows the [try] statement). *)
Definition Computed_store (c : nat) (value : value) (valueIsError : bool) : M unit :=
  let* x := getComputed c in
  let* this := getSignal c in
  when (valueIsError
        || has_flag x.(Computed._flags) HAS_ERROR
        || strict_neq this.(Signal._value) value
        || (this.(Signal._version) =? 0))
    (let* _ :=
       if valueIsError then
         modComputed c (λ x, Computed.set_flags (set_flag x.(Computed._flags) HAS_ERROR) x)
       else
         modComputed c (λ x, Computed.set_flags (clear_flag x.(Computed._flags) HAS_ERROR) x) in
     let* _ := modSignal c (Signal.set_value value) in
     modSignal c (λ s, Signal.set_version (s.(Signal._version) + 1) s)).

(** [Effect.prototype._start]; the result is the [prevContext] that the
    returned closure [endEffect.bind(this, prevContext)] holds. *)
Definition Effect_start (fuel : nat) (e : nat) : M (option Target) :=
  let* x := getEffect e in
  let* _ := when (has_flag x.(Effect._flags) RUNNING) cycleDetected in
  let* _ := modEffect e (λ x, Effect.set_flags (set_flag x.(Effect._flags) RUNNING) x) in
  let* _ := startBatch in
  let* prevContext := get evalContext in
  let* _ := modify (set_evalContext (Some (TEffect e))) in
  let* _ := prepareSources fuel (TEffect e) in
  ret prevContext.

(** The branch of [getValue] that selects the dependency node of [signal]
    for the running evaluator [t] (the body of
    [if (evalContext !== undefined)]); [None] is [node = undefined]. *)
Definition getValue_track (fuel : nat) (t : Target) (s : nat) : M (option nat) :=
  let* _ := modify (add_log (EvRead t s)) in
  let* sg := getSignal s in
  let node := sg.(Signal._node) in
  let* is_new :=
    match node with
    | None => ret true
    | Some n => let* nd := getNode n in ret (bool_decide (nd.(Node.target) ≠ t))
    end in
  if is_new : bool then
    let* head := target_sources t in
    let* n := allocNode (Node.mk s None head t None None 0 true node) in
    let* _ := target_set_sources t (Some n) in
    let* _ := modSignal s (Signal.set_node (Some n)) in
    let* flags := target_flags t in
    let* _ := when (has_flag flags SHOULD_SUBSCRIBE) (subscribe fuel s n) in
    ret (Some n)
  else
    match node with
    | None => crash
    | Some n =>
        let* nd := getNode n in
        if negb nd.(Node.used) then
          let* _ := modNode n (Node.set_used true) in
          let* head := target_sources t in
          let* _ :=
            when (bool_decide (Some n ≠ head))
              (let prev := nd.(Node.prevSignal) in
               let next := nd.(Node.nextSignal) in
               let* _ := match prev with
                         | Some p => modNode p (Node.set_nextSignal next)
                         | None => ret tt
                         end in
               let* _ := match next with
                         | Some x => modNode x (Node.set_prevSignal prev)
                         | None => ret tt
                         end in
               let* _ := match head with
                         | Some h => modNode h (Node.set_prevSignal (Some n))
                         | None => ret tt
                         end in
               let* _ := modNode n (Node.set_prevSignal None) in
               let* _ := modNode n (Node.set_nextSignal head) in
               target_set_sources t (Some n)) in
          ret (Some n)
        else ret None
    end.

(** The [finally] block of [getValue]. *)
Definition getValue_finally (s : nat) (node : option nat) : M unit :=
  match node with
  | Some n =>
      let* sg := getSignal s in
      modNode n (Node.set_version sg.(Signal._version))
  | None => ret tt
  end.

Definition readonly_error {A} : M A := throw_new_error "Computed signals are readonly".

(** The mutually recursive part of the engine.
    - [peek]: [signal.peek()], dispatched on the class of [signal];
      [Computed_peek] is [Computed.prototype.peek] up to the last freshness
      check and [Computed_recompute] is the rest of it, from
      [let value = undefined] on;
    - [Computed_check_sources]: the [while] loop of [Computed.prototype.peek]
      over the sources; the result is the value of [node] when it ends;
    - [getValue]; [get_value] and [set_value]: the accessors of [value];
    - [endBatch] with its outer loop [endBatch_loop] and inner loop
      [endBatch_effects], which thread the pair [(error, hasError)];
    - [Effect_callback]: the closure that [effect()] stores in
      [effect._callback]; the model's field [_callback] holds the user's
      callback;
    - [endEffect]; [batch]; [run]: a user closure. *)
Fixpoint peek (fuel : nat) (s : nat) : M value :=
  match fuel with
  | O => out_of_fuel
  | S fuel' =>
      let* this := getSignal s in
      match this.(Signal.computed) with
      | None => ret this.(Signal._value)
      | Some _ => Computed_peek fuel' s
      end
  end
with Computed_peek (fuel : nat) (s : nat) : M value :=
  match fuel with
  | O => out_of_fuel
  | S fuel' =>
      let* _ := modComputed s (λ x, Computed.set_flags
                  (clear_flag x.(Computed._flags) NOTIFIED) x) in
      let* x := getComputed s in
      let* _ := when (has_flag x.(Computed._flags) RUNNING) cycleDetected in
      let* _ := modComputed s (λ x, Computed.set_flags
                  (set_flag x.(Computed._flags) RUNNING) x) in
      let* x := getComputed s in
      let* this := getSignal s in
      if negb (has_flag x.(Computed._flags) STALE)
         && bool_decide (this.(Signal._targets) ≠ None)
      then returnComputed s
      else
        let* _ := modComputed s (λ x, Computed.set_flags
                    (clear_flag x.(Computed._flags) STALE) x) in
        let* x := getComputed s in
        let* gv := get globalVersion in
        if x.(Computed._globalVersion) =? gv then returnComputed s
        else
          let* _ := modComputed s (Computed.set_globalVersion gv) in
          let* this := getSignal s in
          let* fresh :=
            if 0 <? this.(Signal._version) then
              let* x := getComputed s in
              let* node := Computed_check_sources fuel' x.(Computed._sources) in
              ret (bool_decide (node = None))
            else ret false in
          if fresh : bool then returnComputed s
          else Computed_recompute fuel' s
  end
with Computed_recompute (fuel : nat) (s : nat) : M value :=
  match fuel with
  | O => out_of_fuel
  | S fuel' =>
      let* prevContext := get evalContext in
      let* r :=
        try_finally
          (try_catch
             (let* _ := modify (set_evalContext (Some (TComputed s))) in
              let* _ := prepareSources fuel' (TComputed s) in
              let* x := getComputed s in
              let* _ := modify (add_log (EvCompute s)) in
              let* v := run fuel' x.(Computed._compute) in
              ret (v, false))
             (λ err, ret (err, true)))
          (let* _ := cleanupSources fuel' (TComputed s) in
           modify (set_evalContext prevContext)) in
      let* _ := Computed_store s r.1 r.2 in
      returnComputed s
  end
with Computed_check_sources (fuel : nat) (node : option nat) : M (option nat) :=
  match fuel with
  | O => out_of_fuel
  | S fuel' =>
      match node with
      | None => ret None
      | Some n =>
          let* nd := getNode n in
          let* sg := getSignal nd.(Node.signal) in
          if bool_decide (sg.(Signal._version) ≠ nd.(Node.version)) then ret (Some n)
          else
            let* _ := try_catch (let* _ := peek fuel' nd.(Node.signal) in ret tt)
                                (λ _, ret tt) in
            let* nd := getNode n in
            let* sg := getSignal nd.(Node.signal) in
            if bool_decide (sg.(Signal._version) ≠ nd.(Node.version)) then ret (Some n)
            else Computed_check_sources fuel' nd.(Node.nextSignal)
      end
  end
with getValue (fuel : nat) (s : nat) : M value :=
  match fuel with
  | O => out_of_fuel
  | S fuel' =>
      let* ctx := get evalContext in
      let* node :=
        match ctx with
        | Some t => getValue_track fuel' t s
        | None => ret None
        end in
      try_finally (peek fuel' s) (getValue_finally s node)
  end
with get_value (fuel : nat) (s : nat) : M value :=
  match fuel with
  | O => out_of_fuel
  | S fuel' =>
      let* this := getSignal s in
      match this.(Signal.computed) with
      | None => getValue fuel' s
      | Some x =>
          let* _ := when (has_flag x.(Computed._flags) RUNNING) cycleDetected in
          getValue fuel' s
      end
  end
with set_value (fuel : nat) (s : nat) (value : value) : M unit :=
  match fuel with
  | O => out_of_fuel
  | S fuel' =>
      let* this := getSignal s in
      match this.(Signal.computed) with
      | Some _ => readonly_error
      | None =>
          if strict_neq value this.(Signal._value) then
            let* bi := get batchIteration in
            let* _ := when (100 <? bi) cycleDetected in
            let* _ := modSignal s (Signal.set_value value) in
            let* _ := modSignal s (λ x, Signal.set_version (x.(Signal._version) + 1) x) in
            let* _ := modify (λ σ, set_globalVersion (σ.(globalVersion) + 1) σ) in
            let* _ := startBatch in
            try_finally
              (let* this := getSignal s in
               notify_targets fuel' this.(Signal._targets))
              (endBatch fuel')
          else ret tt
      end
  end
with endBatch (fuel : nat) : M unit :=
  match fuel with
  | O => out_of_fuel
  | S fuel' =>
      let* d := get batchDepth in
      if 1 <? d then modify (λ σ, set_batchDepth (σ.(batchDepth) - 1) σ)
      else endBatch_loop fuel' VUndefined false
  end
with endBatch_loop (fuel : nat) (error : value) (hasError : bool) : M unit :=
  match fuel with
  | O => out_of_fuel
  | S fuel' =>
      let* be := get batchedEffect in
      match be with
      | Some e =>
          let* _ := modify (set_batchedEffect None) in
          let* _ := modify (λ σ, set_batchIteration (σ.(batchIteration) + 1) σ) in
          let* r := endBatch_effects fuel' (Some e) error hasError in
          endBatch_loop fuel' r.1 r.2
      | None =>
          let* _ := modify (set_batchIteration 0) in
          let* _ := modify (λ σ, set_batchDepth (σ.(batchDepth) - 1) σ) in
          if hasError then throw error else ret tt
      end
  end
with endBatch_effects (fuel : nat) (effect : option nat) (error : value) (hasError : bool)
  : M (value * bool) :=
  match fuel with
  | O => out_of_fuel
  | S fuel' =>
      match effect with
      | None => ret (error, hasError)
      | Some e =>
          let* x := getEffect e in
          let next := x.(Effect._nextEffect) in
          let* _ := modEffect e (Effect.set_nextEffect None) in
          let* _ := modEffect e (λ x, Effect.set_flags
                      (clear_flag x.(Effect._flags) NOTIFIED) x) in
          let* r :=
            try_catch
              (let* _ := Effect_callback fuel' e in ret (error, hasError))
              (λ err, if negb hasError then ret (err, true) else ret (error, hasError)) in
          endBatch_effects fuel' next r.1 r.2
      end
  end
with Effect_callback (fuel : nat) (e : nat) : M unit :=
  match fuel with
  | O => out_of_fuel
  | S fuel' =>
      let* prevContext := Effect_start fuel' e in
      try_finally
        (let* x := getEffect e in
         let* _ := modify (add_log (EvEffect e)) in
         let* _ := run fuel' x.(Effect._callback) in
         ret tt)
        (endEffect fuel' e prevContext)
  end
with endEffect (fuel : nat) (e : nat) (prevContext : option Target) : M unit :=
  match fuel with
  | O => out_of_fuel
  | S fuel' =>
      let* _ := cleanupSources fuel' (TEffect e) in
      let* _ := modify (set_evalContext prevContext) in
      let* _ := endBatch fuel' in
      modEffect e (λ x, Effect.set_flags (clear_flag x.(Effect._flags) RUNNING) x)
  end
with batch (fuel : nat) (callback : prog) : M value :=
  match fuel with
  | O => out_of_fuel
  | S fuel' =>
      let* d := get batchDepth in
      if 0 <? d then run fuel' callback
      else
        let* _ := startBatch in
        try_finally (run fuel' callback) (endBatch fuel')
  end
with run (fuel : nat) (p : prog) : M value :=
  match fuel with
  | O => out_of_fuel
  | S fuel' =>
      match p with
      | Ret v => ret v
      | Throw e => throw e
      | GetValue s k => let* v := get_value fuel' s in run fuel' (k v)
      | PeekValue s k => let* v := peek fuel' s in run fuel' (k v)
      | SetValue s v k => let* _ := set_value fuel' s v in run fuel' k
      | TryCatch body handler k =>
          let* v := try_catch (run fuel' body) (λ err, run fuel' (handler err)) in
          run fuel' (k v)
      | Batch body k => let* v := batch fuel' body in run fuel' (k v)
      end
  end.

(** ** Constructors and the disposer *)

(** [signal(value)] *)
Definition signal (value : value) : M nat := λ σ,
  Done (Normal (length σ.(signals)))
       (upd_signals (λ l, l ++ [Signal.mk value 0 None None None]) σ).

(** [computed(compute)] *)
Definition computed (compute : prog) : M nat := λ σ,
  Done (Normal (length σ.(signals)))
       (upd_signals (λ l, l ++ [Signal.mk VUndefined 0 None None
          (Some (Computed.mk compute None (σ.(globalVersion) - 1) STALE))]) σ).

(** [effect(callback)]; the result identifies the effect that the returned
    disposer is bound to. *)
Definition effect (fuel : nat) (callback : prog) : M nat :=
  let* e := (λ σ, Done (Normal (length σ.(effects)))
                    (upd_effects (λ l, l ++ [Effect.mk callback None None SHOULD_SUBSCRIBE]) σ)) in
  let* _ := Effect_callback fuel e in
  ret e.

(** [Effect.prototype._dispose] *)
Definition Effect_dispose (fuel : nat) (e : nat) : M unit :=
  let* x := getEffect e in
  let* _ := unsubscribe_sources fuel x.(Effect._sources) in
  modEffect e (Effect.set_sources None).


(** * Verification *)

(** ** Flags *)

Lemma land_disjoint_bits (m m' : Z) :
  Z.land m m' = 0 → ∀ i, Z.testbit m i && Z.testbit m' i = false.
Proof.
  intros H i. rewrite <- Z.land_spec, H. apply Z.bits_0.
Qed.

Lemma has_flag_set_flag (f m : Z) : m ≠ 0 → has_flag (set_flag f m) m = true.
Proof.
  intros Hm. unfold has_flag, set_flag.
  replace (Z.land (Z.lor f m) m) with m.
  - apply negb_true_iff, Z.eqb_neq, Hm.
  - apply Z.bits_inj'. intros i _. rewrite Z.land_spec, Z.lor_spec.
    destruct (Z.testbit f i), (Z.testbit m i); reflexivity.
Qed.

Lemma has_flag_clear_flag (f m : Z) : has_flag (clear_flag f m) m = false.
Proof.
  unfold has_flag, clear_flag.
  replace (Z.land (Z.land f (Z.lnot m)) m) with 0; [reflexivity|].
  apply Z.bits_inj'. intros i Hi.
  rewrite !Z.land_spec, Z.lnot_spec, Z.bits_0 by assumption.
  destruct (Z.testbit f i), (Z.testbit m i); reflexivity.
Qed.

Lemma has_flag_set_flag_other (f m m' : Z) :
  Z.land m m' = 0 → has_flag (set_flag f m) m' = has_flag f m'.
Proof.
  intros Hd. unfold has_flag, set_flag. f_equal. f_equal.
  apply Z.bits_inj'. intros i _. rewrite !Z.land_spec, Z.lor_spec.
  pose proof (land_disjoint_bits _ _ Hd i).
  destruct (Z.testbit f i), (Z.testbit m i), (Z.testbit m' i); simpl in *; congruence.
Qed.

Lemma has_flag_clear_flag_other (f m m' : Z) :
  Z.land m m' = 0 → has_flag (clear_flag f m) m' = has_flag f m'.
Proof.
  intros Hd. unfold has_flag, clear_flag. f_equal. f_equal.
  apply Z.bits_inj'. intros i Hi. rewrite !Z.land_spec, Z.lnot_spec by assumption.
  pose proof (land_disjoint_bits _ _ Hd i).
  destruct (Z.testbit f i), (Z.testbit m i), (Z.testbit m' i); simpl in *; congruence.
Qed.

(** Setting a mask that includes [m] sets [m]. *)
Lemma has_flag_set_flag_lor_r (f m m' : Z) :
  m' ≠ 0 → has_flag (set_flag f (Z.lor m m')) m' = true.
Proof.
  intros Hm. unfold has_flag, set_flag.
  replace (Z.land (Z.lor f (Z.lor m m')) m') with m'.
  - apply negb_true_iff, Z.eqb_neq, Hm.
  - apply Z.bits_inj'. intros i _. rewrite Z.land_spec, !Z.lor_spec.
    destruct (Z.testbit f i), (Z.testbit m i), (Z.testbit m' i); reflexivity.
Qed.

(** ** Identity of values *)

Lemma strict_neq_true a b : strict_neq a b = true ↔ a ≠ b ∨ a = VNaN.
Proof.
  unfold strict_neq. destruct a, b; try rewrite bool_decide_eq_true;
    split; intros; try done; eauto; try (by left); try (by right).
  all: by destruct H as [?|?].
Qed.

Lemma strict_neq_false a b : strict_neq a b = false ↔ a = b ∧ a ≠ VNaN.
Proof.
  rewrite <- not_true_iff_false, strict_neq_true.
  destruct (decide (a = b)) as [->|?], (decide (b = VNaN)) as [->|?];
    split; intros H; try tauto.
  all: try (destruct H as [_ ?]; done).
  all: try (split; [done|]; intros ->; tauto).
Qed.

Lemma strict_neq_same v : v ≠ VNaN → strict_neq v v = false.
Proof. intros Hv. by apply strict_neq_false. Qed.

Lemma strict_neq_diff a b : a ≠ b → strict_neq a b = true.
Proof. intros Hv. apply strict_neq_true. by left. Qed.

Lemma strict_neq_NaN v : strict_neq VNaN v = true.
Proof. done. Qed.

(** ** Stepping through monadic code *)

Lemma getSignal_Some σ s x :
  signals σ !! s = Some x → getSignal s σ = Done (Normal x) σ.
Proof. intros H. unfold getSignal. by rewrite H. Qed.

Lemma getNode_Some σ n x :
  nodes σ !! n = Some x → getNode n σ = Done (Normal x) σ.
Proof. intros H. unfold getNode. by rewrite H. Qed.

Lemma getEffect_Some σ e x :
  effects σ !! e = Some x → getEffect e σ = Done (Normal x) σ.
Proof. intros H. unfold getEffect. by rewrite H. Qed.

Lemma getComputed_Some σ c x y :
  signals σ !! c = Some x → Signal.computed x = Some y →
  getComputed c σ = Done (Normal y) σ.
Proof.
  intros H Hc. unfold getComputed, bind. rewrite (getSignal_Some _ _ _ H), Hc. reflexivity.
Qed.

Lemma modSignal_Some σ s x f :
  signals σ !! s = Some x →
  modSignal s f σ = Done (Normal tt) (upd_signals (λ l, <[s := f x]> l) σ).
Proof. intros H. unfold modSignal, bind. by rewrite (getSignal_Some _ _ _ H). Qed.

Lemma modNode_Some σ n x f :
  nodes σ !! n = Some x →
  modNode n f σ = Done (Normal tt) (upd_nodes (λ l, <[n := f x]> l) σ).
Proof. intros H. unfold modNode, bind. by rewrite (getNode_Some _ _ _ H). Qed.

Lemma modEffect_Some σ e x f :
  effects σ !! e = Some x →
  modEffect e f σ = Done (Normal tt) (upd_effects (λ l, <[e := f x]> l) σ).
Proof. intros H. unfold modEffect, bind. by rewrite (getEffect_Some _ _ _ H). Qed.

Lemma modComputed_Some σ c x y f :
  signals σ !! c = Some x → Signal.computed x = Some y →
  modComputed c f σ
  = Done (Normal tt) (upd_signals (λ l, <[c := Signal.map_computed f x]> l) σ).
Proof.
  intros H Hc. unfold modComputed, bind.
  rewrite (getComputed_Some _ _ _ _ H Hc). by apply modSignal_Some.
Qed.

(** ** The write guard of a source (C9) *)

Definition is_source (σ : State) (s : nat) (x : Signal.t) : Prop :=
  signals σ !! s = Some x ∧ Signal.computed x = None.

Lemma set_value_same fuel σ s x v :
  is_source σ s x → strict_neq v (Signal._value x) = false →
  set_value (S fuel) s v σ = Done (Normal tt) σ.
Proof.
  intros [Hs Hc] Hv. simpl. unfold bind. rewrite (getSignal_Some _ _ _ Hs), Hc.
  by rewrite Hv.
Qed.

Lemma set_value_guard fuel σ s x v :
  is_source σ s x → strict_neq v (Signal._value x) = true → 100 < batchIteration σ →
  set_value (S fuel) s v σ
  = Done (Throws (VError (errorSerial σ) "Cycle detected"))
         (set_errorSerial (S (errorSerial σ)) σ).
Proof.
  intros [Hs Hc] Hv Hbi. simpl. unfold bind. rewrite (getSignal_Some _ _ _ Hs), Hc.
  rewrite Hv. unfold get. simpl.
  destruct (Z.ltb_spec 100 (batchIteration σ)); [|lia].
  reflexivity.
Qed.

(** ** Inversion of monadic code *)

Lemma bind_Done {A B} (m : M A) (k : A → M B) σ r σ' :
  bind m k σ = Done r σ' →
  (∃ a σ1, m σ = Done (Normal a) σ1 ∧ k a σ1 = Done r σ')
  ∨ (∃ e, m σ = Done (Throws e) σ' ∧ r = Throws e).
Proof.
  unfold bind. destruct (m σ) as [[a|e] σ1| |]; intros H; try discriminate.
  - left. eauto.
  - right. injection H as <- <-. eauto.
Qed.

Lemma try_finally_Done {A} (m : M A) (fin : M unit) σ r σ' :
  try_finally m fin σ = Done r σ' →
  ∃ c σ1, m σ = Done c σ1
    ∧ ((fin σ1 = Done (Normal tt) σ' ∧ r = c)
       ∨ (∃ e, fin σ1 = Done (Throws e) σ' ∧ r = Throws e)).
Proof.
  unfold try_finally. destruct (m σ) as [c σ1| |]; intros H; try discriminate.
  exists c, σ1. split; [reflexivity|].
  destruct (fin σ1) as [[[]|e] σ2| |]; try discriminate; injection H as <- <-; eauto.
Qed.

Lemma try_catch_Done {A} (m : M A) (h : value → M A) σ r σ' :
  try_catch m h σ = Done r σ' →
  (∃ a, m σ = Done (Normal a) σ' ∧ r = Normal a)
  ∨ (∃ e σ1, m σ = Done (Throws e) σ1 ∧ h e σ1 = Done r σ').
Proof.
  unfold try_catch. destruct (m σ) as [[a|e] σ1| |]; intros H; try discriminate.
  - left. injection H as <- <-. eauto.
  - right. eauto.
Qed.

Lemma ret_Done {A} (a : A) σ r σ' : ret a σ = Done r σ' → r = Normal a ∧ σ' = σ.
Proof. unfold ret. intros H. by injection H as <- <-. Qed.

Lemma throw_Done {A} e σ (r : completion A) σ' :
  throw e σ = Done r σ' → r = Throws e ∧ σ' = σ.
Proof. unfold throw. intros H. by injection H as <- <-. Qed.

Lemma get_Done {A} (f : State → A) σ r σ' :
  get f σ = Done r σ' → r = Normal (f σ) ∧ σ' = σ.
Proof. unfold get. intros H. by injection H as <- <-. Qed.

Lemma modify_Done f σ r σ' : modify f σ = Done r σ' → r = Normal tt ∧ σ' = f σ.
Proof. unfold modify. intros H. by injection H as <- <-. Qed.

Lemma throw_new_error_Done {A} msg σ (r : completion A) σ' :
  throw_new_error msg σ = Done r σ' →
  r = Throws (VError (errorSerial σ) msg) ∧ σ' = set_errorSerial (S (errorSerial σ)) σ.
Proof. unfold throw_new_error. intros H. by injection H as <- <-. Qed.

Lemma getSignal_Done s σ r σ' :
  getSignal s σ = Done r σ' → ∃ x, signals σ !! s = Some x ∧ r = Normal x ∧ σ' = σ.
Proof.
  unfold getSignal. destruct (signals σ !! s) as [x|]; intros H; [|discriminate].
  injection H as <- <-. eauto.
Qed.

Lemma getNode_Done n σ r σ' :
  getNode n σ = Done r σ' → ∃ x, nodes σ !! n = Some x ∧ r = Normal x ∧ σ' = σ.
Proof.
  unfold getNode. destruct (nodes σ !! n) as [x|]; intros H; [|discriminate].
  injection H as <- <-. eauto.
Qed.

Lemma getEffect_Done e σ r σ' :
  getEffect e σ = Done r σ' → ∃ x, effects σ !! e = Some x ∧ r = Normal x ∧ σ' = σ.
Proof.
  unfold getEffect. destruct (effects σ !! e) as [x|]; intros H; [|discriminate].
  injection H as <- <-. eauto.
Qed.

Lemma getComputed_Done c σ r σ' :
  getComputed c σ = Done r σ' →
  ∃ x y, signals σ !! c = Some x ∧ Signal.computed x = Some y ∧ r = Normal y ∧ σ' = σ.
Proof.
  unfold getComputed. intros H. apply bind_Done in H as [(x & σ1 & H1 & H2)|(e & H1 & _)].
  - apply getSignal_Done in H1 as (x' & Hx & [= <-] & ->).
    destruct (Signal.computed x) as [y|] eqn:Hy; [|discriminate].
    apply ret_Done in H2 as [-> ->]. eauto 10.
  - apply getSignal_Done in H1 as (? & _ & [=] & _).
Qed.

Lemma modSignal_Done s f σ r σ' :
  modSignal s f σ = Done r σ' →
  ∃ x, signals σ !! s = Some x ∧ r = Normal tt
       ∧ σ' = upd_signals (λ l, <[s := f x]> l) σ.
Proof.
  unfold modSignal. intros H. apply bind_Done in H as [(x & σ1 & H1 & H2)|(e & H1 & _)].
  - apply getSignal_Done in H1 as (x' & Hx & [= <-] & ->).
    apply modify_Done in H2 as [-> ->]. eauto.
  - apply getSignal_Done in H1 as (? & _ & [=] & _).
Qed.

Lemma modNode_Done n f σ r σ' :
  modNode n f σ = Done r σ' →
  ∃ x, nodes σ !! n = Some x ∧ r = Normal tt
       ∧ σ' = upd_nodes (λ l, <[n := f x]> l) σ.
Proof.
  unfold modNode. intros H. apply bind_Done in H as [(x & σ1 & H1 & H2)|(e & H1 & _)].
  - apply getNode_Done in H1 as (x' & Hx & [= <-] & ->).
    apply modify_Done in H2 as [-> ->]. eauto.
  - apply getNode_Done in H1 as (? & _ & [=] & _).
Qed.

Lemma modEffect_Done e f σ r σ' :
  modEffect e f σ = Done r σ' →
  ∃ x, effects σ !! e = Some x ∧ r = Normal tt
       ∧ σ' = upd_effects (λ l, <[e := f x]> l) σ.
Proof.
  unfold modEffect. intros H. apply bind_Done in H as [(x & σ1 & H1 & H2)|(e' & H1 & _)].
  - apply getEffect_Done in H1 as (x' & Hx & [= <-] & ->).
    apply modify_Done in H2 as [-> ->]. eauto.
  - apply getEffect_Done in H1 as (? & _ & [=] & _).
Qed.

Lemma modComputed_Done c f σ r σ' :
  modComputed c f σ = Done r σ' →
  ∃ x y, signals σ !! c = Some x ∧ Signal.computed x = Some y ∧ r = Normal tt
         ∧ σ' = upd_signals (λ l, <[c := Signal.map_computed f x]> l) σ.
Proof.
  unfold modComputed. intros H. apply bind_Done in H as [(y & σ1 & H1 & H2)|(e & H1 & _)].
  - apply getComputed_Done in H1 as (x & y' & Hx & Hy & [= <-] & ->).
    apply modSignal_Done in H2 as (x' & Hx' & -> & ->).
    rewrite Hx in Hx'. injection Hx' as <-. eauto 10.
  - apply getComputed_Done in H1 as (? & ? & _ & _ & [=] & _).
Qed.

Lemma when_Done b m σ r σ' :
  when b m σ = Done r σ' →
  (b = true ∧ m σ = Done r σ') ∨ (b = false ∧ r = Normal tt ∧ σ' = σ).
Proof.
  destruct b; simpl; [by left|]. intros H. apply ret_Done in H as [-> ->]. by right.
Qed.

Lemma allocNode_Done nd σ r σ' :
  allocNode nd σ = Done r σ' →
  r = Normal (length (nodes σ)) ∧ σ' = upd_nodes (λ l, l ++ [nd]) σ.
Proof. unfold allocNode. intros H. by injection H as <- <-. Qed.

(** [target._sources] and [target._flags] as functions of the state. *)
Definition sources_of (σ : State) (t : Target) : option (option nat) :=
  match t with
  | TComputed c =>
      match signals σ !! c with
      | Some x => Computed._sources <$> Signal.computed x
      | None => None
      end
  | TEffect e => Effect._sources <$> effects σ !! e
  end.

Definition flags_of (σ : State) (t : Target) : option Z :=
  match t with
  | TComputed c =>
      match signals σ !! c with
      | Some x => Computed._flags <$> Signal.computed x
      | None => None
      end
  | TEffect e => Effect._flags <$> effects σ !! e
  end.

Lemma target_sources_Done t σ r σ' :
  target_sources t σ = Done r σ' →
  ∃ h, sources_of σ t = Some h ∧ r = Normal h ∧ σ' = σ.
Proof.
  destruct t; simpl; intros H.
  - apply bind_Done in H as [(y & σ1 & H1 & H)|(? & H1 & ?)];
      apply getComputed_Done in H1 as (x0 & y' & Hx & Hy & ? & ->); simplify_eq.
    apply ret_Done in H as [-> ->]. rewrite Hx, Hy. eauto.
  - apply bind_Done in H as [(y & σ1 & H1 & H)|(? & H1 & ?)];
      apply getEffect_Done in H1 as (x0 & Hx & ? & ->); simplify_eq.
    apply ret_Done in H as [-> ->]. rewrite Hx. eauto.
Qed.

Lemma target_flags_Done t σ r σ' :
  target_flags t σ = Done r σ' →
  ∃ f, flags_of σ t = Some f ∧ r = Normal f ∧ σ' = σ.
Proof.
  destruct t; simpl; intros H.
  - apply bind_Done in H as [(y & σ1 & H1 & H)|(? & H1 & ?)];
      apply getComputed_Done in H1 as (x0 & y' & Hx & Hy & ? & ->); simplify_eq.
    apply ret_Done in H as [-> ->]. rewrite Hx, Hy. eauto.
  - apply bind_Done in H as [(y & σ1 & H1 & H)|(? & H1 & ?)];
      apply getEffect_Done in H1 as (x0 & Hx & ? & ->); simplify_eq.
    apply ret_Done in H as [-> ->]. rewrite Hx. eauto.
Qed.

(** [minv] decomposes hypotheses [m σ = Done r σ'] along the structure of [m]. *)
Ltac minv1 :=
  match goal with
  | H : bind _ _ _ = Done _ _ |- _ =>
      apply bind_Done in H as [(? & ? & ? & ?)|(? & ? & ?)]
  | H : ret _ _ = Done _ _ |- _ => apply ret_Done in H as [? ?]
  | H : throw _ _ = Done _ _ |- _ => apply throw_Done in H as [? ?]
  | H : get _ _ = Done _ _ |- _ => apply get_Done in H as [? ?]
  | H : modify _ _ = Done _ _ |- _ => apply modify_Done in H as [? ?]
  | H : cycleDetected _ = Done _ _ |- _ => apply throw_new_error_Done in H as [? ?]
  | H : readonly_error _ = Done _ _ |- _ => apply throw_new_error_Done in H as [? ?]
  | H : throw_new_error _ _ = Done _ _ |- _ => apply throw_new_error_Done in H as [? ?]
  | H : startBatch _ = Done _ _ |- _ => apply modify_Done in H as [? ?]
  | H : getSignal _ _ = Done _ _ |- _ => apply getSignal_Done in H as (? & ? & ? & ?)
  | H : getNode _ _ = Done _ _ |- _ => apply getNode_Done in H as (? & ? & ? & ?)
  | H : getEffect _ _ = Done _ _ |- _ => apply getEffect_Done in H as (? & ? & ? & ?)
  | H : getComputed _ _ = Done _ _ |- _ =>
      apply getComputed_Done in H as (? & ? & ? & ? & ? & ?)
  | H : modSignal _ _ _ = Done _ _ |- _ => apply modSignal_Done in H as (? & ? & ? & ?)
  | H : modNode _ _ _ = Done _ _ |- _ => apply modNode_Done in H as (? & ? & ? & ?)
  | H : allocNode _ _ = Done _ _ |- _ => apply allocNode_Done in H as [? ?]
  | H : target_sources _ _ = Done _ _ |- _ =>
      apply target_sources_Done in H as (? & ? & ? & ?)
  | H : target_flags _ _ = Done _ _ |- _ =>
      apply target_flags_Done in H as (? & ? & ? & ?)
  | H : modEffect _ _ _ = Done _ _ |- _ => apply modEffect_Done in H as (? & ? & ? & ?)
  | H : modComputed _ _ _ = Done _ _ |- _ =>
      apply modComputed_Done in H as (? & ? & ? & ? & ? & ?)
  | H : when _ _ _ = Done _ _ |- _ => apply when_Done in H as [[? ?]|(? & ? & ?)]
  | H : try_catch _ _ _ = Done _ _ |- _ =>
      apply try_catch_Done in H as [(? & ? & ?)|(? & ? & ? & ?)]
  | H : try_finally _ _ _ = Done _ _ |- _ =>
      apply try_finally_Done in H as (? & ? & ? & [[? ?]|(? & ? & ?)])
  | H : out_of_fuel _ = Done _ _ |- _ => discriminate H
  | H : crash _ = Done _ _ |- _ => discriminate H
  | H : Normal _ = Normal _ |- _ => injection H as H
  | H : Throws _ = Throws _ |- _ => injection H as H
  | H : Normal _ = Throws _ |- _ => discriminate H
  | H : Throws _ = Normal _ |- _ => discriminate H
  | H : Done _ _ = Done _ _ |- _ => injection H as ? ?
  end.
Ltac minv := repeat (minv1; simplify_eq/=).

(** ** Notification *)

(** The state after [Effect.prototype._notify] has enqueued effect [e],
    whose record was [x]. *)
Definition enqueue_effect (e : nat) (x : Effect.t) (σ : State) : State :=
  set_batchedEffect (Some e)
    (upd_effects (λ l, <[e := Effect.set_nextEffect (batchedEffect σ)
                          (Effect.set_flags (set_flag (Effect._flags x) NOTIFIED) x)]> l) σ).

(** The state after [Computed.prototype._notify] has marked computed [c],
    whose record was [x] with computed part [y]. *)
Definition mark_computed (c : nat) (x : Signal.t) (σ : State) : State :=
  upd_signals (λ l, <[c := Signal.map_computed (λ y, Computed.set_flags
                      (set_flag (Computed._flags y) (Z.lor STALE NOTIFIED)) y) x]> l) σ.

Lemma upd_effects_twice f g σ :
  upd_effects f (upd_effects g σ) = upd_effects (λ l, f (g l)) σ.
Proof. reflexivity. Qed.

Lemma upd_signals_twice f g σ :
  upd_signals f (upd_signals g σ) = upd_signals (λ l, f (g l)) σ.
Proof. reflexivity. Qed.

Lemma upd_nodes_twice f g σ :
  upd_nodes f (upd_nodes g σ) = upd_nodes (λ l, f (g l)) σ.
Proof. reflexivity. Qed.

Lemma lookup_insert_same {A} (l : list A) i x y :
  l !! i = Some x → <[i := y]> l !! i = Some y.
Proof. intros H. apply list_lookup_insert_eq. by eapply lookup_lt_Some. Qed.

(** [case_if H] splits on the condition of the outermost [if] in [H]. *)
Ltac case_if H :=
  match type of H with
  | context [if negb ?b then _ else _] => destruct b eqn:?; simpl in H
  | context [if ?b then _ else _] => destruct b eqn:?; simpl in H
  end.

Lemma lookup_insert_same2 {A} (l : list A) i x y z :
  l !! i = Some x → <[i := y]> (<[i := z]> l) !! i = Some y.
Proof.
  intros H. apply list_lookup_insert_eq. rewrite length_insert. by eapply lookup_lt_Some.
Qed.

(** Solves [<[i := y]> l !! i = Some _] when [i] is known to be in range. *)
Ltac lookup_ins :=
  apply list_lookup_insert_eq; rewrite ?length_insert;
  eapply lookup_lt_Some; eassumption.

Section notify_preserves.
Variable P : State → Prop.
Hypothesis P_log : ∀ σ t, P σ → P (add_log (EvNotify t) σ).
Hypothesis P_mark : ∀ σ c x y,
  P σ → signals σ !! c = Some x → Signal.computed x = Some y →
  has_flag (Computed._flags y) NOTIFIED = false →
  P (mark_computed c x σ).
Hypothesis P_enqueue : ∀ σ e x,
  P σ → effects σ !! e = Some x →
  has_flag (Effect._flags x) NOTIFIED = false →
  P (enqueue_effect e x σ).

Lemma notify_preserves fuel :
  (∀ t σ r σ', P σ → notify fuel t σ = Done r σ' → P σ' ∧ r = Normal tt)
  ∧ (∀ h σ r σ', P σ → notify_targets fuel h σ = Done r σ' → P σ' ∧ r = Normal tt).
Proof.
  induction fuel as [|fuel [IHn IHt]]; [by split|].
  split.
  - intros t σ r σ' HP H. simpl in H.
    apply bind_Done in H as [(? & σ1 & H1 & H)|(? & H1 & ?)]; minv.
    specialize (P_log _ t HP).
    destruct t as [c|e].
    + apply bind_Done in H as [(y & σ1 & H1 & H)|(? & H1 & ?)]; minv.
      case_if H; minv; [done|].
      match goal with H : notify_targets _ _ _ = _ |- _ =>
        eapply IHt in H; [exact H|] end.
      eapply P_mark in P_log; eauto.
    + apply bind_Done in H as [(y & σ1 & H1 & H)|(? & H1 & ?)]; minv.
      case_if H; minv; [done|].
      split; [|done].
      eapply P_enqueue in P_log; eauto.
      unfold enqueue_effect in P_log. simpl in *.
      match goal with H : <[_ := _]> _ !! _ = Some ?z |- _ =>
        erewrite lookup_insert_same in H by eauto; injection H as <- end.
      rewrite upd_effects_twice. simpl.
      match goal with |- P ?s => match type of P_log with P ?s' =>
        replace s with s'; [exact P_log|] end end.
      unfold upd_effects, set_batchedEffect. simpl. f_equal.
      by rewrite list_insert_insert_eq.
  - intros h σ r σ' HP H. simpl in H. destruct h as [n|]; minv; [| |done].
    + match goal with H : notify _ _ _ = _ |- _ =>
        eapply IHn in H as [HP1 _]; [|done] end.
      match goal with H : notify_targets _ _ _ = _ |- _ => eapply IHt in H; done end.
    + match goal with H : notify _ _ _ = _ |- _ =>
        eapply IHn in H as [_ ?]; done end.
Qed.
End notify_preserves.

(** A [_targets] or [_sources] list as a chain of node references:
    [chain next nds h l] when following [next] from head [h] visits exactly
    the nodes [l] and ends at [undefined]. *)
Fixpoint chain (next : Node.t → option nat) (nds : list Node.t)
    (h : option nat) (l : list nat) : Prop :=
  match l with
  | [] => h = None
  | n :: l' => h = Some n ∧ ∃ nd, nds !! n = Some nd ∧ chain next nds (next nd) l'
  end.

(** The target carries the flag [NOTIFIED]. *)
Definition notified (σ : State) (t : Target) : Prop :=
  match t with
  | TComputed c => ∃ x y, signals σ !! c = Some x ∧ Signal.computed x = Some y
                          ∧ has_flag (Computed._flags y) NOTIFIED = true
  | TEffect e => ∃ x, effects σ !! e = Some x
                      ∧ has_flag (Effect._flags x) NOTIFIED = true
  end.

Lemma NOTIFIED_nonzero : NOTIFIED ≠ 0.
Proof. done. Qed.

Lemma notified_mark_computed σ t c x y :
  notified σ t → signals σ !! c = Some x → Signal.computed x = Some y →
  notified (mark_computed c x σ) t.
Proof.
  intros Hn Hx Hy. destruct t as [c'|e]; [|exact Hn].
  destruct Hn as (x' & y' & Hx' & Hy' & Hf). simpl.
  destruct (decide (c' = c)) as [->|Hne].
  - rewrite Hx in Hx'. injection Hx' as <-. rewrite Hy in Hy'. injection Hy' as <-.
    eexists _, _. split; [by eapply lookup_insert_same|]. simpl. rewrite Hy. simpl.
    split; [done|]. simpl. apply has_flag_set_flag_lor_r, NOTIFIED_nonzero.
  - exists x', y'. by rewrite list_lookup_insert_ne.
Qed.

Lemma notified_enqueue_effect σ t e x :
  notified σ t → effects σ !! e = Some x → notified (enqueue_effect e x σ) t.
Proof.
  intros Hn Hx. destruct t as [c|e']; [exact Hn|].
  destruct Hn as (x' & Hx' & Hf). simpl.
  destruct (decide (e' = e)) as [->|Hne].
  - eexists. split; [by eapply lookup_insert_same|]. simpl.
    apply has_flag_set_flag, NOTIFIED_nonzero.
  - exists x'. by rewrite list_lookup_insert_ne.
Qed.

(** A notified target stays notified while notifications propagate. *)
Lemma notify_keeps_notified fuel t0 :
  (∀ t σ r σ', notified σ t0 → notify fuel t σ = Done r σ' → notified σ' t0)
  ∧ (∀ h σ r σ', notified σ t0 → notify_targets fuel h σ = Done r σ' → notified σ' t0).
Proof.
  assert (H : (∀ t σ r σ', notified σ t0 → notify fuel t σ = Done r σ'
                 → notified σ' t0 ∧ r = Normal tt)
            ∧ (∀ h σ r σ', notified σ t0 → notify_targets fuel h σ = Done r σ'
                 → notified σ' t0 ∧ r = Normal tt)).
  { apply (notify_preserves (λ σ, notified σ t0)).
    - intros σ t H. by destruct t0.
    - eauto using notified_mark_computed.
    - eauto using notified_enqueue_effect. }
  destruct H as [H1 H2]. split; intros.
  - eapply H1; eauto.
  - eapply H2; eauto.
Qed.

(** Notifications leave the edges, the counters and every source alone. *)
Lemma notify_frame fuel :
  (∀ t σ r σ', notify fuel t σ = Done r σ' →
     r = Normal tt ∧ nodes σ' = nodes σ ∧ batchDepth σ' = batchDepth σ
     ∧ batchIteration σ' = batchIteration σ ∧ globalVersion σ' = globalVersion σ
     ∧ evalContext σ' = evalContext σ ∧ errorSerial σ' = errorSerial σ
     ∧ ∀ s x, is_source σ s x → is_source σ' s x)
  ∧ (∀ h σ r σ', notify_targets fuel h σ = Done r σ' →
     r = Normal tt ∧ nodes σ' = nodes σ ∧ batchDepth σ' = batchDepth σ
     ∧ batchIteration σ' = batchIteration σ ∧ globalVersion σ' = globalVersion σ
     ∧ evalContext σ' = evalContext σ ∧ errorSerial σ' = errorSerial σ
     ∧ ∀ s x, is_source σ s x → is_source σ' s x).
Proof.
  assert (∀ σ0, let P := λ σ, nodes σ = nodes σ0 ∧ batchDepth σ = batchDepth σ0
     ∧ batchIteration σ = batchIteration σ0 ∧ globalVersion σ = globalVersion σ0
     ∧ evalContext σ = evalContext σ0 ∧ errorSerial σ = errorSerial σ0
     ∧ ∀ s x, is_source σ0 s x → is_source σ s x in
     (∀ t σ r σ', P σ → notify fuel t σ = Done r σ' → P σ' ∧ r = Normal tt)
     ∧ (∀ h σ r σ', P σ → notify_targets fuel h σ = Done r σ' → P σ' ∧ r = Normal tt))
    as H.
  { intros σ0 P. apply notify_preserves; unfold P; clear.
    - intros σ t H. exact H.
    - intros σ c x y (?&?&?&?&?&?&Hs) Hx Hy _. split_and!; try done.
      intros s0 x' Hsrc. destruct (Hs _ _ Hsrc) as [Hl Hc]. split; [|done]. simpl.
      rewrite list_lookup_insert_ne; [done|]. intros ->. congruence.
    - intros σ e x (?&?&?&?&?&?&Hs) Hx _. split_and!; done. }
  split.
  - intros t σ r σ' Hr. destruct (H σ) as [H1 _].
    eapply H1 in Hr; [|by split_and!]. destruct Hr as [? ->]. by split.
  - intros t σ r σ' Hr. destruct (H σ) as [_ H2].
    eapply H2 in Hr; [|by split_and!]. destruct Hr as [? ->]. by split.
Qed.

(** [_notify] leaves its target notified. *)
Lemma notify_notifies fuel t σ r σ' :
  notify fuel t σ = Done r σ' → notified σ' t.
Proof.
  destruct fuel as [|fuel]; [done|]. simpl. intros H.
  apply bind_Done in H as [(? & σ1 & H1 & H)|(? & H1 & ?)]; minv.
  destruct t as [c|e].
  - apply bind_Done in H as [(y & σ1 & H1 & H)|(? & H1 & ?)]; minv.
    case_if H; minv.
    + eexists _, _. eauto.
    + match goal with H : notify_targets _ _ _ = _ |- _ =>
        eapply (proj2 (notify_keeps_notified fuel (TComputed c))) in H; [exact H|] end.
      simpl. eexists _, _. split; [by eapply lookup_insert_same|]. simpl.
      match goal with H : Signal.computed _ = Some _ |- _ => rewrite H end.
      simpl. split; [done|]. apply has_flag_set_flag_lor_r, NOTIFIED_nonzero.
  - apply bind_Done in H as [(y & σ1 & H1 & H)|(? & H1 & ?)]; minv.
    case_if H; minv.
    + eexists. eauto.
    + simpl. eexists. split; [by eapply lookup_insert_same|]. simpl.
      match goal with H : <[_ := _]> _ !! _ = Some ?z |- _ =>
        erewrite lookup_insert_same in H by eauto; injection H as <- end.
      simpl. apply has_flag_set_flag, NOTIFIED_nonzero.
Qed.

(** The notification loop reaches every dependent on the list. *)
Lemma notify_targets_all fuel h l σ r σ' :
  chain Node.nextTarget (nodes σ) h l →
  notify_targets fuel h σ = Done r σ' →
  ∀ n nd, n ∈ l → nodes σ !! n = Some nd → notified σ' (Node.target nd).
Proof.
  revert h l σ. induction fuel as [|fuel IH]; [done|].
  intros h l σ Hch H n nd Hin Hnd. simpl in H.
  destruct l as [|n0 l]; [by apply elem_of_nil in Hin|].
  destruct Hch as (-> & nd0 & Hnd0 & Hch). minv.
  - match goal with H : notify _ _ _ = _ |- _ =>
      pose proof (notify_notifies _ _ _ _ _ H) as Hnot;
      apply (proj1 (notify_frame fuel)) in H as (_ & Hnodes & _) end.
    match goal with H : notify_targets _ _ _ = _ |- _ => rename H into Hloop end.
    rewrite Hnodes in *. simplify_eq.
    apply elem_of_cons in Hin as [->|Hin].
    + simplify_eq.
      eapply (proj2 (notify_keeps_notified fuel _)) in Hloop; eauto.
    + eapply IH in Hloop; eauto; rewrite Hnodes; eauto.
  - match goal with H : notify _ _ _ = _ |- _ =>
      apply (proj1 (notify_frame fuel)) in H as (? & _) end. done.
Qed.


(** ** A write to a source *)


(** The state in which the setter of source [s] (with record [x]) starts
    its notification loop for the new value [v]. *)
Definition written_record (x : Signal.t) (v : value) : Signal.t :=
  Signal.set_version (Signal._version x + 1) (Signal.set_value v x).

Definition written (s : nat) (x : Signal.t) (v : value) (σ : State) : State :=
  set_batchDepth (batchDepth σ + 1)
    (set_globalVersion (globalVersion σ + 1)
       (upd_signals (λ l, <[s := written_record x v]> l) σ)).

Lemma set_value_differs fuel σ s x v :
  is_source σ s x → strict_neq v (Signal._value x) = true → batchIteration σ ≤ 100 →
  set_value (S fuel) s v σ
  = try_finally (notify_targets fuel (Signal._targets x)) (endBatch fuel)
      (written s x v σ).
Proof.
  intros [Hs Hc] Hv Hbi. simpl. unfold bind at 1. rewrite (getSignal_Some _ _ _ Hs), Hc.
  rewrite Hv.
  unfold bind at 1. unfold get at 1.
  destruct (Z.ltb_spec 100 (batchIteration σ)); [lia|].
  unfold bind at 1. simpl.
  unfold bind at 1. rewrite (modSignal_Some _ _ _ _ Hs).
  unfold bind at 1. erewrite modSignal_Some by (by eapply lookup_insert_same).
  unfold bind at 1, modify at 1. unfold bind at 1, startBatch, modify at 1.
  unfold written, written_record, upd_signals, set_globalVersion, set_batchDepth.
  simpl. rewrite list_insert_insert_eq.
  unfold try_finally, bind.
  rewrite (getSignal_Some _ s
             (Signal.set_version (Signal._version x + 1) (Signal.set_value v x)));
    [reflexivity|].
  simpl. by eapply lookup_insert_same.
Qed.

Lemma endBatch_nested fuel σ :
  1 < batchDepth σ →
  endBatch (S fuel) σ = Done (Normal tt) (set_batchDepth (batchDepth σ - 1) σ).
Proof.
  intros Hd. simpl. unfold bind, get.
  destruct (Z.ltb_spec 1 (batchDepth σ)); [reflexivity|lia].
Qed.

Lemma is_source_written σ s x v :
  is_source σ s x → is_source (written s x v σ) s (written_record x v).
Proof.
  intros [Hs Hc]. split; [|exact Hc]. simpl. by eapply lookup_insert_same.
Qed.


(** The state a program reaches from the initial one. *)
Definition state_of {A} (m : M A) : State :=
  match m init with
  | Done _ σ => σ
  | _ => init
  end.

Definition is_notify (ev : event) : bool :=
  match ev with EvNotify _ => true | _ => false end.

(** The number of [_notify] calls made so far. *)
Definition notifications (σ : State) : nat := length (filter is_notify (log σ)).


(** An effect that resets the source it reads: [if (s.value !== 0) s.value = 0]. *)
Definition reset_body (s : nat) : prog :=
  GetValue s (λ v,
    if bool_decide (v = VNum 0) then Ret VUndefined
    else SetValue s (VNum 0) (Ret VUndefined)).

Definition reset_state : State :=
  state_of (let* s := signal (VNum 0) in effect 20 (reset_body s)).


(** ** The outcome of a recomputation *)

(** The condition under which [Computed.prototype.peek] stores the outcome
    of the formula and increments the version. *)
Definition store_condition (x : Signal.t) (y : Computed.t) (v : value) (isErr : bool) : bool :=
  isErr || has_flag (Computed._flags y) HAS_ERROR
  || strict_neq (Signal._value x) v || (Signal._version x =? 0).

Lemma HAS_ERROR_nonzero : HAS_ERROR ≠ 0.
Proof. done. Qed.

(** The record of a computed after its recomputation stored outcome [v]. *)
Definition stored_record (x : Signal.t) (y : Computed.t) (v : value) (isErr : bool) : Signal.t :=
  Signal.mk v (Signal._version x + 1) (Signal._node x) (Signal._targets x)
    (Some (Computed.set_flags
       (if isErr then set_flag (Computed._flags y) HAS_ERROR
        else clear_flag (Computed._flags y) HAS_ERROR) y)).

Lemma Computed_store_result σ c x y v isErr :
  signals σ !! c = Some x → Signal.computed x = Some y →
  Computed_store c v isErr σ
  = Done (Normal tt)
      (if store_condition x y v isErr
       then upd_signals (λ l, <[c := stored_record x y v isErr]> l) σ
       else σ).
Proof.
  intros Hx Hy. unfold Computed_store, bind at 1.
  rewrite (getComputed_Some _ _ _ _ Hx Hy). unfold bind at 1.
  rewrite (getSignal_Some _ _ _ Hx).
  fold (store_condition x y v isErr).
  destruct (store_condition x y v isErr); [|reflexivity]. simpl.
  set (f := λ y : Computed.t, if isErr
      then Computed.set_flags (set_flag (Computed._flags y) HAS_ERROR) y
      else Computed.set_flags (clear_flag (Computed._flags y) HAS_ERROR) y).
  assert (∀ σ0 x0 y0, signals σ0 !! c = Some x0 → Signal.computed x0 = Some y0 →
    (if isErr
     then modComputed c (λ y, Computed.set_flags (set_flag (Computed._flags y) HAS_ERROR) y)
     else modComputed c (λ y, Computed.set_flags (clear_flag (Computed._flags y) HAS_ERROR) y)) σ0
    = Done (Normal tt) (upd_signals (λ l, <[c := Signal.map_computed f x0]> l) σ0)) as Hmod.
  { intros σ0 x0 y0 H1 H2. unfold f. destruct isErr; by erewrite modComputed_Some. }
  unfold bind at 1. rewrite (Hmod _ _ _ Hx Hy).
  unfold bind at 1. erewrite modSignal_Some by (by eapply lookup_insert_same).
  erewrite modSignal_Some by (simpl; lookup_ins).
  f_equal. unfold upd_signals. simpl. rewrite !list_insert_insert_eq.
  unfold stored_record, f, Signal.set_version, Signal.set_value, Signal.map_computed.
  simpl. rewrite Hy. simpl. by destruct isErr.
Qed.

Lemma store_condition_true x y v isErr :
  store_condition x y v isErr = true ↔
  (isErr = true ∨ has_flag (Computed._flags y) HAS_ERROR = true
   ∨ strict_neq (Signal._value x) v = true ∨ Signal._version x = 0).
Proof.
  unfold store_condition. rewrite !orb_true_iff, Z.eqb_eq.
  split; [intros [[[?|?]|?]|?]|intros [?|[?|[?|?]]]]; eauto.
Qed.


(** ** A tracked read *)

Lemma getValue_unfold fuel s σ t :
  evalContext σ = Some t →
  getValue (S fuel) s σ
  = bind (getValue_track fuel t s)
      (λ node, try_finally (peek fuel s) (getValue_finally s node)) σ.
Proof.
  intros Hctx. simpl. unfold bind at 1, get at 1. by rewrite Hctx.
Qed.



(** ** Edge bookkeeping only touches links *)

(** What an update of a signal by the edge bookkeeping keeps: the value, the
    version, the class, and for a computed the formula, the observed
    [globalVersion] and the flags [RUNNING], [NOTIFIED] and [HAS_ERROR]. *)
Definition sig_link_rel (x x' : Signal.t) : Prop :=
  Signal._value x' = Signal._value x
  ∧ Signal._version x' = Signal._version x
  ∧ match Signal.computed x, Signal.computed x' with
    | None, None => True
    | Some y, Some y' =>
        Computed._compute y' = Computed._compute y
        ∧ Computed._globalVersion y' = Computed._globalVersion y
        ∧ has_flag (Computed._flags y') RUNNING = has_flag (Computed._flags y) RUNNING
        ∧ has_flag (Computed._flags y') NOTIFIED = has_flag (Computed._flags y) NOTIFIED
        ∧ has_flag (Computed._flags y') HAS_ERROR = has_flag (Computed._flags y) HAS_ERROR
    | _, _ => False
    end.

Definition is_read (ev : event) : Prop :=
  match ev with EvRead _ _ => True | _ => False end.

(** [links_only σ σ']: from [σ] to [σ'] only links changed: the fields of
    edges other than [signal] and [target], the slots [_node], [_targets]
    and [_sources], the flags [STALE] and [SHOULD_SUBSCRIBE]; edges may have
    been allocated and tracked reads logged. *)
Record links_only (σ σ' : State) : Prop := {
  lo_nodes : ∀ n nd, nodes σ !! n = Some nd →
    ∃ nd', nodes σ' !! n = Some nd'
           ∧ Node.signal nd' = Node.signal nd ∧ Node.target nd' = Node.target nd;
  lo_signals_length : length (signals σ') = length (signals σ);
  lo_signals : ∀ s x, signals σ !! s = Some x →
    ∃ x', signals σ' !! s = Some x' ∧ sig_link_rel x x';
  lo_effects_length : length (effects σ') = length (effects σ);
  lo_effects : ∀ e x, effects σ !! e = Some x →
    ∃ x', effects σ' !! e = Some x'
          ∧ Effect._callback x' = Effect._callback x
          ∧ Effect._nextEffect x' = Effect._nextEffect x
          ∧ Effect._flags x' = Effect._flags x;
  lo_evalContext : evalContext σ' = evalContext σ;
  lo_batchedEffect : batchedEffect σ' = batchedEffect σ;
  lo_batchDepth : batchDepth σ' = batchDepth σ;
  lo_batchIteration : batchIteration σ' = batchIteration σ;
  lo_globalVersion : globalVersion σ' = globalVersion σ;
  lo_errorSerial : errorSerial σ' = errorSerial σ;
  lo_log : ∃ l, log σ' = log σ ++ l ∧ Forall is_read l
}.

Lemma sig_link_rel_refl x : sig_link_rel x x.
Proof. unfold sig_link_rel. destruct (Signal.computed x); by split_and!. Qed.

Lemma sig_link_rel_trans x y z : sig_link_rel x y → sig_link_rel y z → sig_link_rel x z.
Proof.
  unfold sig_link_rel. intros (?&?&H1) (?&?&H2).
  split; [congruence|]. split; [congruence|].
  destruct (Signal.computed x), (Signal.computed y), (Signal.computed z); try done.
  destruct H1 as (?&?&?&?&?), H2 as (?&?&?&?&?). split_and!; congruence.
Qed.

Lemma log_extends_nil (l0 : list event) : ∃ l, l0 = l0 ++ l ∧ Forall is_read l.
Proof. exists []. by rewrite app_nil_r. Qed.

(** Closes the fields of [links_only] that an update does not concern. *)
Ltac lo_trivial :=
  simpl; try done;
  try (by eauto using sig_link_rel_refl);
  try (by intros; eauto 10);
  try (by rewrite length_insert);
  try apply log_extends_nil.

Lemma links_only_refl σ : links_only σ σ.
Proof. split; lo_trivial. Qed.

Lemma links_only_trans σ1 σ2 σ3 : links_only σ1 σ2 → links_only σ2 σ3 → links_only σ1 σ3.
Proof.
  intros [] []. split; try congruence.
  - intros n nd Hn. edestruct lo_nodes0 as (nd' & ? & ? & ?); [done|].
    edestruct lo_nodes1 as (nd'' & ? & ? & ?); [done|].
    exists nd''. split_and!; congruence.
  - intros s x Hs. edestruct lo_signals0 as (x' & ? & ?); [done|].
    edestruct lo_signals1 as (x'' & ? & ?); [done|].
    eauto using sig_link_rel_trans.
  - intros e x He. edestruct lo_effects0 as (x' & ? & ? & ? & ?); [done|].
    edestruct lo_effects1 as (x'' & ? & ? & ? & ?); [done|].
    exists x''. split_and!; congruence.
  - destruct lo_log0 as (l1 & Hl1 & ?), lo_log1 as (l2 & Hl2 & ?).
    exists (l1 ++ l2). rewrite Hl2, Hl1, app_assoc. split; [done|]. by apply Forall_app.
Qed.

#[global] Instance links_only_preorder : PreOrder links_only.
Proof. split; [intros ?; apply links_only_refl|intros ???; apply links_only_trans]. Qed.

Lemma links_only_node σ n nd nd' :
  nodes σ !! n = Some nd →
  Node.signal nd' = Node.signal nd → Node.target nd' = Node.target nd →
  links_only σ (upd_nodes (λ l, <[n := nd']> l) σ).
Proof.
  intros Hn Hs Ht. split; lo_trivial.
  intros m md Hm. destruct (decide (m = n)) as [->|Hne].
  - exists nd'. split; [by eapply lookup_insert_same|]. split; congruence.
  - exists md. by rewrite list_lookup_insert_ne.
Qed.

Lemma links_only_alloc σ nd : links_only σ (upd_nodes (λ l, l ++ [nd]) σ).
Proof.
  split; lo_trivial.
  intros m md Hm. exists md. split; [|done]. by apply lookup_app_l_Some.
Qed.

Lemma links_only_signal σ s x x' :
  signals σ !! s = Some x → sig_link_rel x x' →
  links_only σ (upd_signals (λ l, <[s := x']> l) σ).
Proof.
  intros Hs Hr. split; lo_trivial.
  intros s0 x0 H0. destruct (decide (s0 = s)) as [->|Hne].
  - exists x'. split; [by eapply lookup_insert_same|]. congruence.
  - exists x0. rewrite list_lookup_insert_ne by done. eauto using sig_link_rel_refl.
Qed.

Lemma links_only_effect σ e x v :
  effects σ !! e = Some x →
  links_only σ (upd_effects (λ l, <[e := Effect.set_sources v x]> l) σ).
Proof.
  intros He. split; lo_trivial.
  intros e0 x0 H0. destruct (decide (e0 = e)) as [->|Hne].
  - eexists. split; [by eapply lookup_insert_same|]. by simplify_eq.
  - exists x0. by rewrite list_lookup_insert_ne.
Qed.

Lemma links_only_log σ t s : links_only σ (add_log (EvRead t s) σ).
Proof.
  split; lo_trivial.
  eexists. split; [done|]. by apply Forall_singleton.
Qed.

(** Proves [sig_link_rel x (f x)] for the updates the bookkeeping makes. *)
Ltac lo_sig :=
  unfold sig_link_rel; simpl;
  repeat match goal with H : Signal.computed _ = _ |- _ => rewrite H end;
  simpl; split_and?; try done;
  try (match goal with |- match Signal.computed ?x with _ => _ end =>
         destruct (Signal.computed x); simpl; split_and?; try done end);
  try (apply has_flag_set_flag_other; reflexivity);
  try (apply has_flag_clear_flag_other; reflexivity).

(** Proves [links_only σ σ'] where [σ'] is built from [σ] by link updates
    and by calls known to be [links_only]. *)
Ltac lo_step :=
  match goal with
  | |- links_only ?σ ?σ => apply links_only_refl
  | H : links_only ?σ ?σ' |- links_only ?σ ?σ' => exact H
  | |- links_only _ (upd_nodes (λ l, <[_ := _]> l) _) =>
      etrans; [|eapply links_only_node; [simpl; eassumption|reflexivity|reflexivity]]
  | |- links_only _ (upd_nodes (λ l, l ++ [_]) _) =>
      etrans; [|apply links_only_alloc]
  | |- links_only _ (upd_signals _ _) =>
      etrans; [|eapply links_only_signal; [simpl; eassumption|lo_sig]]
  | |- links_only _ (upd_effects _ _) =>
      etrans; [|eapply links_only_effect; simpl; eassumption]
  | |- links_only _ (add_log _ _) =>
      etrans; [|apply links_only_log]
  | H : links_only ?σ1 ?σ' |- links_only _ ?σ' => etrans; [|exact H]
  end.
Ltac lo_chain := repeat lo_step.

(** [minv], also splitting on the options and conditions that guard steps. *)
Ltac minv_case :=
  minv;
  repeat (match goal with
          | H : match ?o with Some _ => _ | None => _ end _ = Done _ _ |- _ =>
              destruct o eqn:?
          | H : (if ?b then _ else _) _ = Done _ _ |- _ => destruct b eqn:?
          end; minv).

Lemma Signal_subscribe_links s node σ r σ' :
  Signal_subscribe s node σ = Done r σ' → r = Normal tt ∧ links_only σ σ'.
Proof.
  unfold Signal_subscribe. intros H. minv_case.
  all: split; [done|lo_chain].
Qed.

Lemma Signal_unsubscribe_links s node σ r σ' :
  Signal_unsubscribe s node σ = Done r σ' → r = Normal tt ∧ links_only σ σ'.
Proof.
  unfold Signal_unsubscribe. intros H. minv_case.
  all: split; [done|lo_chain].
Qed.

(** Applies the induction hypotheses and the lemmas on [Signal_subscribe]
    and [Signal_unsubscribe] to the calls found in the context. *)
Ltac lo_calls :=
  repeat match goal with
  | H : Signal_subscribe _ _ _ = Done _ _ |- _ =>
      apply Signal_subscribe_links in H as [? ?]; simplify_eq/=
  | H : Signal_unsubscribe _ _ _ = Done _ _ |- _ =>
      apply Signal_unsubscribe_links in H as [? ?]; simplify_eq/=
  | IH : context [links_only], H : _ = Done _ _ |- _ =>
      apply IH in H as [? ?]; simplify_eq/=
  | H : ∃ _, _ = Normal _ |- _ => destruct H as [? ?]; simplify_eq/=
  end.

Lemma subscribe_links fuel :
  (∀ s node σ r σ', subscribe fuel s node σ = Done r σ' → r = Normal tt ∧ links_only σ σ')
  ∧ (∀ h σ r σ', subscribe_sources fuel h σ = Done r σ' → r = Normal tt ∧ links_only σ σ').
Proof.
  induction fuel as [|fuel [IH1 IH2]]; [by split|]. split.
  - intros s node σ r σ' H. simpl in H. minv.
    destruct (Signal.computed _) eqn:?; minv_case; lo_calls.
    all: split; [done|lo_chain].
  - intros h σ r σ' H. simpl in H. destruct h; minv; lo_calls.
    all: split; [done|lo_chain].
Qed.

Lemma unsubscribe_links fuel :
  (∀ s node σ r σ', unsubscribe fuel s node σ = Done r σ' → r = Normal tt ∧ links_only σ σ')
  ∧ (∀ h σ r σ', unsubscribe_sources fuel h σ = Done r σ' → r = Normal tt ∧ links_only σ σ').
Proof.
  induction fuel as [|fuel [IH1 IH2]]; [by split|]. split.
  - intros s node σ r σ' H. simpl in H. minv.
    destruct (Signal.computed _) eqn:?; minv_case; lo_calls.
    all: split; [done|lo_chain].
  - intros h σ r σ' H. simpl in H. destruct h; minv; lo_calls.
    all: split; [done|lo_chain].
Qed.

Lemma prepareSources_loop_links fuel h σ r σ' :
  prepareSources_loop fuel h σ = Done r σ' → r = Normal tt ∧ links_only σ σ'.
Proof.
  revert h σ r σ'. induction fuel as [|fuel IH]; [done|].
  intros h σ r σ' H. simpl in H. destruct h; minv_case; lo_calls.
  all: split; [done|lo_chain].
Qed.

Lemma target_set_sources_links t v σ r σ' :
  target_set_sources t v σ = Done r σ' → r = Normal tt ∧ links_only σ σ'.
Proof. destruct t; simpl; intros H; minv; (split; [done|lo_chain]). Qed.

Lemma prepareSources_links fuel t σ r σ' :
  prepareSources fuel t σ = Done r σ' → r = Normal tt ∧ links_only σ σ'.
Proof.
  unfold prepareSources. intros H. minv.
  all: match goal with H : prepareSources_loop _ _ _ = _ |- _ =>
         by apply prepareSources_loop_links in H end.
Qed.

Lemma cleanupSources_loop_links fuel h src σ r σ' :
  cleanupSources_loop fuel h src σ = Done r σ' → (∃ v, r = Normal v) ∧ links_only σ σ'.
Proof.
  revert h src σ r σ'. induction fuel as [|fuel IH]; [done|].
  intros h src σ r σ' H. simpl in H. destruct h; minv_case.
  all: repeat match goal with
       | H : unsubscribe _ _ _ _ = Done _ _ |- _ =>
           apply (proj1 (unsubscribe_links _)) in H as [? ?]; simplify_eq
       end.
  all: lo_calls.
  all: split; [by eauto|lo_chain].
Qed.

Lemma cleanupSources_links fuel t σ r σ' :
  cleanupSources fuel t σ = Done r σ' → r = Normal tt ∧ links_only σ σ'.
Proof.
  unfold cleanupSources. intros H. minv.
  all: repeat match goal with
       | H : cleanupSources_loop _ _ _ _ = Done _ _ |- _ =>
           apply cleanupSources_loop_links in H as [[? ?] ?]; simplify_eq
       | H : target_set_sources _ _ _ = Done _ _ |- _ =>
           apply target_set_sources_links in H as [? ?]; simplify_eq
       end.
  split; [done|lo_chain].
Qed.

Lemma getValue_track_links fuel t s σ r σ' :
  getValue_track fuel t s σ = Done r σ' → (∃ v, r = Normal v) ∧ links_only σ σ'.
Proof.
  unfold getValue_track. intros H. minv_case.
  all: repeat match goal with
       | H : target_set_sources _ _ _ = Done _ _ |- _ =>
           apply target_set_sources_links in H as [? ?]; simplify_eq
       | H : subscribe _ _ _ _ = Done _ _ |- _ =>
           apply (proj1 (subscribe_links _)) in H as [? ?]; simplify_eq
       end.
  all: split; [by eauto|lo_chain].
Qed.

Lemma getValue_finally_links s node σ r σ' :
  getValue_finally s node σ = Done r σ' → r = Normal tt ∧ links_only σ σ'.
Proof.
  unfold getValue_finally. intros H. destruct node; minv; (split; [done|lo_chain]).
Qed.

(** ** Relations preserved by the engine *)

(** [preserves R m]: whenever [m] completes, normally or not, the initial
    and the final state are related by [R]. *)
Definition preserves {A} (R : relation State) (m : M A) : Prop :=
  ∀ σ r σ', m σ = Done r σ' → R σ σ'.

Section preserves_rules.
Context (R : relation State) `{!PreOrder R}.

Lemma preserves_ret {A} (a : A) : preserves R (ret a).
Proof. intros σ r σ' H. by apply ret_Done in H as [_ ->]. Qed.

Lemma preserves_throw {A} e : preserves R (throw (A := A) e).
Proof. intros σ r σ' H. by apply throw_Done in H as [_ ->]. Qed.

Lemma preserves_get {A} (f : State → A) : preserves R (get f).
Proof. intros σ r σ' H. by apply get_Done in H as [_ ->]. Qed.

Lemma preserves_crash {A} : preserves R (crash (A := A)).
Proof. by intros σ r σ' H. Qed.

Lemma preserves_out_of_fuel {A} : preserves R (out_of_fuel (A := A)).
Proof. by intros σ r σ' H. Qed.

Lemma preserves_bind {A B} (m : M A) (k : A → M B) :
  preserves R m → (∀ a, preserves R (k a)) → preserves R (bind m k).
Proof.
  intros Hm Hk σ r σ' H. apply bind_Done in H as [(a & σ1 & H1 & H2)|(e & H1 & _)].
  - etrans; [by eapply Hm|by eapply Hk].
  - by eapply Hm.
Qed.

Lemma preserves_try_finally {A} (m : M A) fin :
  preserves R m → preserves R fin → preserves R (try_finally m fin).
Proof.
  intros Hm Hf σ r σ' H. apply try_finally_Done in H as (c & σ1 & H1 & [[H2 _]|(e & H2 & _)]).
  - etrans; [by eapply Hm|by eapply Hf].
  - etrans; [by eapply Hm|by eapply Hf].
Qed.

Lemma preserves_try_catch {A} (m : M A) h :
  preserves R m → (∀ e, preserves R (h e)) → preserves R (try_catch m h).
Proof.
  intros Hm Hh σ r σ' H. apply try_catch_Done in H as [(a & H1 & _)|(e & σ1 & H1 & H2)].
  - by eapply Hm.
  - etrans; [by eapply Hm|by eapply Hh].
Qed.

Lemma preserves_when b m : preserves R m → preserves R (when b m).
Proof. intros Hm. destruct b; [done|]. apply preserves_ret. Qed.

Lemma preserves_modify f : (∀ σ, R σ (f σ)) → preserves R (modify f).
Proof. intros Hf σ r σ' H. by apply modify_Done in H as [_ ->]. Qed.

Lemma preserves_getSignal s : preserves R (getSignal s).
Proof. intros σ r σ' H. by apply getSignal_Done in H as (? & _ & _ & ->). Qed.

Lemma preserves_getNode n : preserves R (getNode n).
Proof. intros σ r σ' H. by apply getNode_Done in H as (? & _ & _ & ->). Qed.

Lemma preserves_getEffect e : preserves R (getEffect e).
Proof. intros σ r σ' H. by apply getEffect_Done in H as (? & _ & _ & ->). Qed.

Lemma preserves_getComputed c : preserves R (getComputed c).
Proof. intros σ r σ' H. by apply getComputed_Done in H as (? & ? & _ & _ & _ & ->). Qed.

Lemma preserves_modSignal s f :
  (∀ σ x, signals σ !! s = Some x → R σ (upd_signals (λ l, <[s := f x]> l) σ)) →
  preserves R (modSignal s f).
Proof. intros Hf σ r σ' H. apply modSignal_Done in H as (x & Hx & _ & ->). eauto. Qed.

Lemma preserves_modComputed c f :
  (∀ σ x y, signals σ !! c = Some x → Signal.computed x = Some y →
     R σ (upd_signals (λ l, <[c := Signal.map_computed f x]> l) σ)) →
  preserves R (modComputed c f).
Proof.
  intros Hf σ r σ' H. apply modComputed_Done in H as (x & y & Hx & Hy & _ & ->). eauto.
Qed.

Lemma preserves_modNode n f :
  (∀ σ x, nodes σ !! n = Some x → R σ (upd_nodes (λ l, <[n := f x]> l) σ)) →
  preserves R (modNode n f).
Proof. intros Hf σ r σ' H. apply modNode_Done in H as (x & Hx & _ & ->). eauto. Qed.

Lemma preserves_modEffect e f :
  (∀ σ x, effects σ !! e = Some x → R σ (upd_effects (λ l, <[e := f x]> l) σ)) →
  preserves R (modEffect e f).
Proof. intros Hf σ r σ' H. apply modEffect_Done in H as (x & Hx & _ & ->). eauto. Qed.

Lemma preserves_throw_new_error {A} msg :
  (∀ σ, R σ (set_errorSerial (S (errorSerial σ)) σ)) →
  preserves R (throw_new_error (A := A) msg).
Proof. intros Hf σ r σ' H. by apply throw_new_error_Done in H as [_ ->]. Qed.

Lemma preserves_weaken {A} (R' : relation State) (m : M A) :
  (∀ σ σ', R' σ σ' → R σ σ') → preserves R' m → preserves R m.
Proof. intros Hsub Hm σ r σ' H. eauto. Qed.

End preserves_rules.

(** The edge bookkeeping, restated with [preserves]. *)
Lemma preserves_links_only_calls :
  (∀ fuel s n, preserves links_only (subscribe fuel s n))
  ∧ (∀ fuel s n, preserves links_only (unsubscribe fuel s n))
  ∧ (∀ fuel h, preserves links_only (unsubscribe_sources fuel h))
  ∧ (∀ fuel t, preserves links_only (prepareSources fuel t))
  ∧ (∀ fuel t, preserves links_only (cleanupSources fuel t))
  ∧ (∀ fuel t s, preserves links_only (getValue_track fuel t s))
  ∧ (∀ s n, preserves links_only (getValue_finally s n)).
Proof.
  split_and!; intros; intros σ r σ' H.
  - by apply subscribe_links in H as [_ ?].
  - by apply unsubscribe_links in H as [_ ?].
  - by apply unsubscribe_links in H as [_ ?].
  - by apply prepareSources_links in H as [_ ?].
  - by apply cleanupSources_links in H as [_ ?].
  - by apply getValue_track_links in H as [_ ?].
  - by apply getValue_finally_links in H as [_ ?].
Qed.

(** What no engine function changes about a signal: its class and, for a
    computed, its formula; the version never decreases. *)
Definition sig_stable (x x' : Signal.t) : Prop :=
  Signal._version x ≤ Signal._version x'
  ∧ match Signal.computed x, Signal.computed x' with
    | None, None => True
    | Some y, Some y' => Computed._compute y' = Computed._compute y
    | _, _ => False
    end.

(** [stable σ σ']: the objects of [σ] are still there in [σ'], with their
    immutable fields; the log, the error serial and [globalVersion] only
    grow. *)
Record stable (σ σ' : State) : Prop := {
  st_nodes : ∀ n nd, nodes σ !! n = Some nd →
    ∃ nd', nodes σ' !! n = Some nd'
           ∧ Node.signal nd' = Node.signal nd ∧ Node.target nd' = Node.target nd;
  st_signals_length : length (signals σ') = length (signals σ);
  st_signals : ∀ s x, signals σ !! s = Some x →
    ∃ x', signals σ' !! s = Some x' ∧ sig_stable x x';
  st_effects_length : length (effects σ') = length (effects σ);
  st_effects : ∀ e x, effects σ !! e = Some x →
    ∃ x', effects σ' !! e = Some x' ∧ Effect._callback x' = Effect._callback x;
  st_log : ∃ l, log σ' = log σ ++ l;
  st_errorSerial : (errorSerial σ ≤ errorSerial σ')%nat;
  st_globalVersion : globalVersion σ ≤ globalVersion σ'
}.

Lemma sig_stable_refl x : sig_stable x x.
Proof. unfold sig_stable. destruct (Signal.computed x); by split. Qed.

Lemma sig_stable_trans x y z : sig_stable x y → sig_stable y z → sig_stable x z.
Proof.
  unfold sig_stable. intros [? H1] [? H2]. split; [lia|].
  destruct (Signal.computed x), (Signal.computed y), (Signal.computed z); try done.
  congruence.
Qed.

Lemma sig_link_rel_stable x x' : sig_link_rel x x' → sig_stable x x'.
Proof.
  unfold sig_link_rel, sig_stable. intros (_ & Hv & H). split; [lia|].
  destruct (Signal.computed x), (Signal.computed x'); try done. by destruct H.
Qed.

Lemma log_grows_nil (l0 : list event) : ∃ l, l0 = l0 ++ l.
Proof. exists []. by rewrite app_nil_r. Qed.

(** Closes the fields of [stable] that an update does not concern. *)
Ltac st_trivial :=
  simpl; try done;
  try (by eauto using sig_stable_refl);
  try (by intros; eauto 10);
  try (by rewrite length_insert);
  try apply log_grows_nil;
  try lia.

Lemma stable_refl σ : stable σ σ.
Proof. split; st_trivial. Qed.

Lemma stable_trans σ1 σ2 σ3 : stable σ1 σ2 → stable σ2 σ3 → stable σ1 σ3.
Proof.
  intros [] []. split; try congruence; try lia.
  - intros n nd Hn. edestruct st_nodes0 as (nd' & ? & ? & ?); [done|].
    edestruct st_nodes1 as (nd'' & ? & ? & ?); [done|].
    exists nd''. split_and!; congruence.
  - intros s x Hs. edestruct st_signals0 as (x' & ? & ?); [done|].
    edestruct st_signals1 as (x'' & ? & ?); [done|].
    eauto using sig_stable_trans.
  - intros e x He. edestruct st_effects0 as (x' & ? & ?); [done|].
    edestruct st_effects1 as (x'' & ? & ?); [done|].
    exists x''. split_and!; congruence.
  - destruct st_log0 as (l1 & Hl1), st_log1 as (l2 & Hl2).
    exists (l1 ++ l2). by rewrite Hl2, Hl1, app_assoc.
Qed.

#[global] Instance stable_preorder : PreOrder stable.
Proof. split; [intros ?; apply stable_refl|intros ???; apply stable_trans]. Qed.

Lemma stable_links σ σ' : links_only σ σ' → stable σ σ'.
Proof.
  intros []. split; try done; try lia.
  - intros s x Hs. edestruct lo_signals0 as (x' & ? & ?); [done|].
    eauto using sig_link_rel_stable.
  - intros e x He. edestruct lo_effects0 as (x' & ? & ? & ?); [done|]. eauto.
  - destruct lo_log0 as (l & ? & _). eauto.
Qed.

Lemma stable_signal σ s x x' :
  signals σ !! s = Some x → sig_stable x x' →
  stable σ (upd_signals (λ l, <[s := x']> l) σ).
Proof.
  intros Hs Hr. split; st_trivial.
  intros s0 x0 H0. destruct (decide (s0 = s)) as [->|Hne].
  - exists x'. split; [by eapply lookup_insert_same|]. congruence.
  - exists x0. rewrite list_lookup_insert_ne by done. eauto using sig_stable_refl.
Qed.

Lemma stable_effect σ e x x' :
  effects σ !! e = Some x → Effect._callback x' = Effect._callback x →
  stable σ (upd_effects (λ l, <[e := x']> l) σ).
Proof.
  intros He Hc. split; st_trivial.
  intros e0 x0 H0. destruct (decide (e0 = e)) as [->|Hne].
  - eexists. split; [by eapply lookup_insert_same|]. by simplify_eq.
  - exists x0. by rewrite list_lookup_insert_ne.
Qed.

Lemma stable_log σ ev : stable σ (add_log ev σ).
Proof. split; st_trivial. Qed.

Lemma stable_set_evalContext σ v : stable σ (set_evalContext v σ).
Proof. split; st_trivial. Qed.

Lemma stable_set_batchedEffect σ v : stable σ (set_batchedEffect v σ).
Proof. split; st_trivial. Qed.

Lemma stable_set_batchDepth σ v : stable σ (set_batchDepth v σ).
Proof. split; st_trivial. Qed.

Lemma stable_set_batchIteration σ v : stable σ (set_batchIteration v σ).
Proof. split; st_trivial. Qed.

Lemma stable_set_globalVersion σ v :
  globalVersion σ ≤ v → stable σ (set_globalVersion v σ).
Proof. split; st_trivial. Qed.

Lemma stable_set_errorSerial σ v :
  (errorSerial σ ≤ v)%nat → stable σ (set_errorSerial v σ).
Proof. split; st_trivial. Qed.

Lemma stable_notify fuel :
  (∀ t, preserves stable (notify fuel t))
  ∧ (∀ h, preserves stable (notify_targets fuel h)).
Proof.
  assert (∀ σ0,
     (∀ t σ r σ', stable σ0 σ → notify fuel t σ = Done r σ' → stable σ0 σ' ∧ r = Normal tt)
     ∧ (∀ h σ r σ', stable σ0 σ → notify_targets fuel h σ = Done r σ'
          → stable σ0 σ' ∧ r = Normal tt)) as H.
  { intros σ0. apply notify_preserves.
    - intros σ t H. etrans; [done|apply stable_log].
    - intros σ c x y H Hx Hy _. etrans; [done|]. eapply stable_signal; [done|].
      unfold sig_stable. simpl. rewrite Hy. simpl. by split.
    - intros σ e x H Hx _. etrans; [done|]. unfold enqueue_effect.
      etrans; [|apply stable_set_batchedEffect]. by eapply stable_effect. }
  split; intros ? σ r σ' Hr; eapply H in Hr; try apply Hr; done.
Qed.

(** [R] is preserved by every function of the mutually recursive part of
    the engine, run with [fuel]; for the recomputation proper, of the
    computeds in [Q]. *)
Definition engine_preserves (R : relation State) (Q : nat → Prop) (fuel : nat) : Prop :=
  (∀ s, preserves R (peek fuel s))
  ∧ (∀ s, preserves R (Computed_peek fuel s))
  ∧ (∀ s, Q s → preserves R (Computed_recompute fuel s))
  ∧ (∀ h, preserves R (Computed_check_sources fuel h))
  ∧ (∀ s, preserves R (getValue fuel s))
  ∧ (∀ s, preserves R (get_value fuel s))
  ∧ (∀ s v, preserves R (set_value fuel s v))
  ∧ preserves R (endBatch fuel)
  ∧ (∀ err h, preserves R (endBatch_loop fuel err h))
  ∧ (∀ eff err h, preserves R (endBatch_effects fuel eff err h))
  ∧ (∀ e, preserves R (Effect_callback fuel e))
  ∧ (∀ e p, preserves R (endEffect fuel e p))
  ∧ (∀ cb, preserves R (batch fuel cb))
  ∧ (∀ p, preserves R (run fuel p)).

(** Unfolds one level of the mutually recursive functions, and nothing else. *)
Ltac engine_unfold :=
  cbn [peek Computed_peek Computed_recompute Computed_check_sources getValue
       get_value set_value endBatch endBatch_loop endBatch_effects
       Effect_callback endEffect batch run].

Tactic Notation "engine_unfold" "in" hyp(H) :=
  cbn [peek Computed_peek Computed_recompute Computed_check_sources getValue
       get_value set_value endBatch endBatch_loop endBatch_effects
       Effect_callback endEffect batch run] in H.

(** One step of the syntax-directed decomposition of a goal [preserves R m]. *)
Ltac papply lem := apply lem; try typeclasses eauto.
Ltac pres_step :=
  match goal with
  | |- preserves _ (bind _ _) => papply preserves_bind; [|intros ?]
  | |- preserves _ (ret _) => papply preserves_ret
  | |- preserves _ (throw _) => papply preserves_throw
  | |- preserves _ (get _) => papply preserves_get
  | |- preserves _ crash => papply preserves_crash
  | |- preserves _ out_of_fuel => papply preserves_out_of_fuel
  | |- preserves _ (try_finally _ _) => papply preserves_try_finally
  | |- preserves _ (try_catch _ _) => papply preserves_try_catch; [|intros ?]
  | |- preserves _ (when _ _) => papply preserves_when
  | |- preserves _ (getSignal _) => papply preserves_getSignal
  | |- preserves _ (getNode _) => papply preserves_getNode
  | |- preserves _ (getEffect _) => papply preserves_getEffect
  | |- preserves _ (getComputed _) => papply preserves_getComputed
  | |- preserves _ (match ?x with _ => _ end) => destruct x
  | |- preserves _ (if ?b then _ else _) => destruct b
  | H : preserves ?R ?m |- preserves ?R ?m => exact H
  | H : ∀ _, preserves ?R _ |- preserves ?R _ => apply H
  | H : ∀ _ _, preserves ?R _ |- preserves ?R _ => apply H
  | H : ∀ _ _ _, preserves ?R _ |- preserves ?R _ => apply H
  end.
Ltac pres := repeat pres_step.

Lemma stable_sig_flags σ c x f :
  signals σ !! c = Some x →
  stable σ (upd_signals (λ l, <[c := Signal.map_computed
              (λ y, Computed.set_flags (f y) y) x]> l) σ).
Proof.
  intros Hx. eapply stable_signal; [done|]. unfold sig_stable. simpl.
  destruct (Signal.computed x); by split.
Qed.

Lemma engine_stable fuel : engine_preserves stable (λ _, True) fuel.
Proof.
  induction fuel as [|fuel IH];
    [by unfold engine_preserves, preserves; split_and!; intros|].
  destruct IH as (IHpeek & IHcpeek & IHrecompute & IHcheck & IHgetValue & IHget & IHset
                  & IHendBatch & IHloop & IHeffects & IHcallback & IHendEffect & IHbatch & IHrun).
  pose proof preserves_links_only_calls as (Lsub & Lunsub & Lunsubs & Lprep & Lclean & Ltrack & Lfin).
  pose proof (stable_notify fuel) as [Nnotify Ntargets].
  unfold engine_preserves. split_and!; intros; engine_unfold.
  all: unfold returnComputed, Computed_store, Effect_start, cycleDetected, readonly_error,
         startBatch.
  all: pres.
  all: try exact I.
  all: try (eapply preserves_weaken; [apply stable_links|done]).
  all: try (apply preserves_throw_new_error; intros; apply stable_set_errorSerial; lia).
  all: try (apply preserves_modComputed; intros; by apply stable_sig_flags).
  all: try (apply preserves_modify; intros; simpl;
            first [apply stable_set_evalContext|apply stable_set_batchedEffect
                  |apply stable_set_batchDepth|apply stable_set_batchIteration
                  |apply stable_log|apply stable_set_globalVersion; lia]).
  all: try (apply preserves_modEffect; intros; by eapply stable_effect).
  all: try (apply preserves_modSignal; intros; eapply stable_signal; [done|];
            unfold sig_stable; simpl;
            match goal with |- _ ∧ match Signal.computed ?x with _ => _ end =>
              destruct (Signal.computed x) end; split; (done || lia)).
  all: try (apply preserves_modComputed; intros; eapply stable_signal; [done|];
            unfold sig_stable; simpl;
            match goal with H : Signal.computed _ = Some _ |- _ => rewrite H end;
            by split).
Qed.

(** ** A running computed is frozen *)

(** The computed carries the flag [RUNNING]. *)
Definition running (σ : State) (c : nat) : Prop :=
  ∃ x y, signals σ !! c = Some x ∧ Signal.computed x = Some y
         ∧ has_flag (Computed._flags y) RUNNING = true.

(** [frozen c σ σ']: if computed [c] is running in [σ], it is still running
    in [σ'], with the same cached value, version and error state, and its
    formula was not invoked in between. *)
Definition frozen (c : nat) (σ σ' : State) : Prop :=
  running σ c →
  ∃ x y x' y',
    signals σ !! c = Some x ∧ Signal.computed x = Some y
    ∧ signals σ' !! c = Some x' ∧ Signal.computed x' = Some y'
    ∧ has_flag (Computed._flags y') RUNNING = true
    ∧ Signal._value x' = Signal._value x
    ∧ Signal._version x' = Signal._version x
    ∧ has_flag (Computed._flags y') HAS_ERROR = has_flag (Computed._flags y) HAS_ERROR
    ∧ ∃ l, log σ' = log σ ++ l ∧ EvCompute c ∉ l.

Lemma frozen_refl c σ : frozen c σ σ.
Proof.
  intros (x & y & Hx & Hy & Hr). exists x, y, x, y. split_and!; try done.
  exists []. rewrite app_nil_r. split; [done|]. apply not_elem_of_nil.
Qed.

Lemma frozen_trans c σ1 σ2 σ3 : frozen c σ1 σ2 → frozen c σ2 σ3 → frozen c σ1 σ3.
Proof.
  intros H12 H23 Hrun.
  destruct (H12 Hrun) as (x & y & x' & y' & Hx & Hy & Hx' & Hy' & Hr & Hv & Hver & Herr & l & Hl & Hnl).
  destruct H23 as (x2 & y2 & x3 & y3 & Hx2 & Hy2 & Hx3 & Hy3 & Hr3 & Hv3 & Hver3 & Herr3 & l' & Hl' & Hnl').
  { by exists x', y'. }
  simplify_eq. exists x, y, x3, y3. split_and!; try done; try congruence.
  exists (l ++ l'). rewrite Hl', Hl, app_assoc. split; [done|].
  rewrite elem_of_app. tauto.
Qed.

#[global] Instance frozen_preorder c : PreOrder (frozen c).
Proof. split; [intros ?; apply frozen_refl|intros ???; apply frozen_trans]. Qed.

Lemma not_compute_read c l : Forall is_read l → EvCompute c ∉ l.
Proof.
  intros Hl Hin. rewrite Forall_forall in Hl. by apply Hl in Hin.
Qed.

Lemma frozen_links c σ σ' : links_only σ σ' → frozen c σ σ'.
Proof.
  intros [] (x & y & Hx & Hy & Hr).
  destruct (lo_signals0 _ _ Hx) as (x' & Hx' & Hv & Hver & Hc).
  rewrite Hy in Hc. destruct (Signal.computed x') as [y'|] eqn:Hy'; [|done].
  destruct Hc as (_ & _ & Hrun & _ & Herr).
  exists x, y, x', y'. split_and!; try done; try congruence.
  destruct lo_log0 as (l & Hl & Hread). exists l. eauto using not_compute_read.
Qed.

(** An update of another signal, or of [c] that keeps what [frozen] names. *)
Lemma frozen_signal c σ s x x' :
  signals σ !! s = Some x →
  (s = c → ∀ y, Signal.computed x = Some y →
     has_flag (Computed._flags y) RUNNING = true →
     ∃ y', Signal.computed x' = Some y'
       ∧ has_flag (Computed._flags y') RUNNING = true
       ∧ Signal._value x' = Signal._value x
       ∧ Signal._version x' = Signal._version x
       ∧ has_flag (Computed._flags y') HAS_ERROR = has_flag (Computed._flags y) HAS_ERROR) →
  frozen c σ (upd_signals (λ l, <[s := x']> l) σ).
Proof.
  intros Hs Hsame (x0 & y0 & Hx0 & Hy0 & Hr0).
  destruct (decide (s = c)) as [->|Hne].
  - rewrite Hs in Hx0. injection Hx0 as <-.
    destruct (Hsame eq_refl _ Hy0 Hr0) as (y' & ? & ? & ? & ? & ?).
    exists x, y0, x', y'. split_and!; try done.
    + simpl. by eapply lookup_insert_same.
    + exists []. rewrite app_nil_r. split; [done|]. apply not_elem_of_nil.
  - exists x0, y0, x0, y0. split_and!; try done.
    + simpl. by rewrite list_lookup_insert_ne.
    + exists []. rewrite app_nil_r. split; [done|]. apply not_elem_of_nil.
Qed.

(** An update that leaves the signals and the log alone. *)
Lemma frozen_other c σ σ' :
  signals σ' = signals σ → log σ' = log σ → frozen c σ σ'.
Proof.
  intros Hs Hl (x & y & Hx & Hy & Hr). exists x, y, x, y. rewrite Hs, Hl.
  split_and!; try done.
  exists []. rewrite app_nil_r. split; [done|]. apply not_elem_of_nil.
Qed.

Lemma frozen_log c σ ev : ev ≠ EvCompute c → frozen c σ (add_log ev σ).
Proof.
  intros Hev (x & y & Hx & Hy & Hr). exists x, y, x, y. split_and!; try done.
  exists [ev]. split; [done|]. by apply not_elem_of_cons; split; [|apply not_elem_of_nil].
Qed.

Lemma frozen_notify c fuel :
  (∀ t, preserves (frozen c) (notify fuel t))
  ∧ (∀ h, preserves (frozen c) (notify_targets fuel h)).
Proof.
  assert (∀ σ0,
     (∀ t σ r σ', frozen c σ0 σ → notify fuel t σ = Done r σ' → frozen c σ0 σ' ∧ r = Normal tt)
     ∧ (∀ h σ r σ', frozen c σ0 σ → notify_targets fuel h σ = Done r σ'
          → frozen c σ0 σ' ∧ r = Normal tt)) as H.
  { intros σ0. apply notify_preserves.
    - intros σ t H. etrans; [done|]. by apply frozen_log.
    - intros σ s x y H Hx Hy _. etrans; [done|]. eapply frozen_signal; [done|].
      intros -> y0 Hy0 Hr. rewrite Hy in Hy0. injection Hy0 as <-.
      simpl. rewrite Hy. simpl. eexists. split; [done|].
      simpl. rewrite !has_flag_set_flag_other by done. done.
    - intros σ e x H Hx _. etrans; [done|]. by apply frozen_other. }
  split; intros ? σ r σ' Hr; eapply H in Hr; try apply Hr; done.
Qed.

(** Proves that a primitive step preserves [frozen c]; updates of signals
    must be of signals other than [c]. *)
Ltac frozen_prim :=
  match goal with
  | |- preserves _ (modComputed _ _) =>
      apply preserves_modComputed; intros; eapply frozen_signal; [done|intros; congruence]
  | |- preserves _ (modSignal _ _) =>
      apply preserves_modSignal; intros; eapply frozen_signal; [done|intros; congruence]
  | |- preserves _ (modify (add_log _)) =>
      apply preserves_modify; intros; apply frozen_log; congruence
  | |- preserves _ (modify _) =>
      apply preserves_modify; intros; by apply frozen_other
  | |- preserves _ (modEffect _ _) =>
      apply preserves_modEffect; intros; by apply frozen_other
  | |- preserves _ (throw_new_error _) =>
      apply preserves_throw_new_error; intros; by apply frozen_other
  | |- preserves _ (notify_targets _ _) => apply frozen_notify
  | |- preserves (frozen _) _ =>
      eapply preserves_weaken; [apply frozen_links|]; apply preserves_links_only_calls
  end.

Section frozen_engine.
Context (c : nat) (fuel : nat).
Hypothesis IH : engine_preserves (frozen c) (λ s, s ≠ c) fuel.

Lemma frozen_Computed_peek s : preserves (frozen c) (Computed_peek (S fuel) s).
Proof.
  destruct IH as (IHpeek & IHcpeek & IHrecompute & IHcheck & _).
  destruct (decide (s = c)) as [->|Hne].
  - intros σ r σ' H Hrun. pose proof Hrun as (x & y & Hx & Hy & Hr).
    engine_unfold in H. unfold bind at 1 in H.
    erewrite modComputed_Some in H by done.
    unfold bind at 1 in H. erewrite getComputed_Some in H;
      [|simpl; by eapply lookup_insert_same|simpl; by rewrite Hy].
    simpl in H. rewrite has_flag_clear_flag_other in H by done. rewrite Hr in H.
    unfold bind at 1 in H. simpl in H. injection H as <- <-.
    generalize Hrun. change (frozen c σ (set_errorSerial (S (errorSerial σ))
      (upd_signals (λ l, <[c := Signal.map_computed (λ x, Computed.set_flags
         (clear_flag (Computed._flags x) NOTIFIED) x) x]> l) σ))).
    etrans; [|by apply frozen_other].
    eapply frozen_signal; [exact Hx|]. intros _ y0 Hy0 Hr0.
    rewrite Hy in Hy0. injection Hy0 as <-.
    simpl. rewrite Hy. simpl. eexists. split; [done|]. simpl.
    rewrite !has_flag_clear_flag_other by done. done.
  - engine_unfold. unfold returnComputed, cycleDetected. pres; try frozen_prim.
    all: done.
Qed.

Lemma frozen_Computed_recompute s :
  s ≠ c → preserves (frozen c) (Computed_recompute (S fuel) s).
Proof.
  destruct IH as (_ & _ & _ & _ & _ & _ & _ & _ & _ & _ & _ & _ & _ & IHrun).
  intros Hne. engine_unfold. unfold returnComputed, Computed_store.
  pres; try frozen_prim.
Qed.

Lemma frozen_set_value s v : preserves (frozen c) (set_value (S fuel) s v).
Proof.
  destruct IH as (_ & _ & _ & _ & _ & _ & _ & IHendBatch & _).
  destruct (decide (s = c)) as [->|Hne].
  - intros σ r σ' H. engine_unfold in H.
    apply bind_Done in H as [(this & σ1 & H1 & H)|(? & H1 & ?)];
      apply getSignal_Done in H1 as (x0 & Hx & ? & ->); simplify_eq.
    destruct (Signal.computed x0) eqn:Hc.
    + apply throw_new_error_Done in H as [_ ->]. by apply frozen_other.
    + intros (x1 & y1 & Hx1 & Hy1 & _). congruence.
  - engine_unfold. unfold cycleDetected, readonly_error, startBatch.
    pres; try frozen_prim.
Qed.

End frozen_engine.

Lemma engine_frozen c fuel : engine_preserves (frozen c) (λ s, s ≠ c) fuel.
Proof.
  induction fuel as [|fuel IH];
    [by unfold engine_preserves, preserves; split_and!; intros|].
  pose proof (frozen_Computed_peek c fuel IH) as Hcpeek.
  pose proof (frozen_Computed_recompute c fuel IH) as Hrecompute.
  pose proof (frozen_set_value c fuel IH) as Hset.
  destruct IH as (IHpeek & IHcpeek & IHrecompute & IHcheck & IHgetValue & IHget & IHset
                  & IHendBatch & IHloop & IHeffects & IHcallback & IHendEffect & IHbatch & IHrun).
  unfold engine_preserves. split_and!; intros; try done; try (by apply Hrecompute).
  all: engine_unfold; unfold Effect_start, cycleDetected, startBatch.
  all: pres; try frozen_prim.
Qed.

(** While a computed is running, no call into the engine invokes its
    formula or changes its cached value, version or error state. *)
Lemma check_sources_frozen c fuel h :
  preserves (frozen c) (Computed_check_sources fuel h).
Proof. apply engine_frozen. Qed.


(** ** Reading a computed that is up to date *)

(** The signal record [x] with computed part [y]. *)
Definition with_computed (x : Signal.t) (y : Computed.t) : Signal.t :=
  Signal.mk (Signal._value x) (Signal._version x) (Signal._node x) (Signal._targets x) (Some y).

(** The state with signal [c] replaced by [a]. *)
Definition put_signal (c : nat) (a : Signal.t) (σ : State) : State :=
  upd_signals (λ l, <[c := a]> l) σ.

Lemma put_signal_twice c a b σ : put_signal c b (put_signal c a σ) = put_signal c b σ.
Proof. unfold put_signal, upd_signals. simpl. by rewrite list_insert_insert_eq. Qed.

Lemma put_signal_lookup c a x σ :
  signals σ !! c = Some x → signals (put_signal c a σ) !! c = Some a.
Proof. intros H. simpl. by eapply lookup_insert_same. Qed.

Lemma modComputed_put σ c x y f :
  signals σ !! c = Some x → Signal.computed x = Some y →
  modComputed c f σ = Done (Normal tt) (put_signal c (with_computed x (f y)) σ).
Proof.
  intros Hx Hy. rewrite (modComputed_Some _ _ _ _ _ Hx Hy).
  unfold put_signal, with_computed, Signal.map_computed. by rewrite Hy.
Qed.

(** What a read of an up-to-date computed returns: the cached value, or
    the cached error rethrown. *)
Definition cached (x : Signal.t) (y : Computed.t) : completion value :=
  if has_flag (Computed._flags y) HAS_ERROR then Throws (Signal._value x)
  else Normal (Signal._value x).

Lemma returnComputed_put σ c x y :
  signals σ !! c = Some x → Signal.computed x = Some y →
  returnComputed c σ
  = Done (cached x y)
      (put_signal c (with_computed x
         (Computed.set_flags (clear_flag (Computed._flags y) RUNNING) y)) σ).
Proof.
  intros Hx Hy. unfold returnComputed, bind.
  rewrite (modComputed_put _ _ _ _ _ Hx Hy).
  erewrite getComputed_Some; [|by eapply put_signal_lookup|reflexivity].
  erewrite getSignal_Some by (by eapply put_signal_lookup).
  simpl. rewrite has_flag_clear_flag_other by done. unfold cached.
  by destruct (has_flag (Computed._flags y) HAS_ERROR).
Qed.

(** Reduces projections applied to record updates. *)
Ltac rsimpl :=
  cbn [Computed._flags Computed._compute Computed._sources Computed._globalVersion
       Computed.set_flags Computed.set_sources Computed.set_globalVersion
       Signal._value Signal._version Signal._node Signal._targets Signal.computed
       Signal.set_value Signal.set_version Signal.set_node Signal.set_targets
       Signal.map_computed with_computed
       Effect._callback Effect._sources Effect._nextEffect Effect._flags
       Effect.set_sources Effect.set_nextEffect Effect.set_flags
       Node.signal Node.prevSignal Node.nextSignal Node.target Node.prevTarget
       Node.nextTarget Node.version Node.used Node.rollbackNode
       Node.set_prevSignal Node.set_nextSignal Node.set_prevTarget Node.set_nextTarget
       Node.set_version Node.set_used Node.set_rollbackNode
       fmap option_fmap option_map].

(** The flags of a computed when [peek] has passed the cycle check. *)
Definition entered_flags (f : Z) : Z := set_flag (clear_flag f NOTIFIED) RUNNING.

(** [Computed.prototype.peek] up to the first freshness check. *)
Lemma Computed_peek_enter fuel σ c x y :
  signals σ !! c = Some x → Signal.computed x = Some y →
  has_flag (Computed._flags y) RUNNING = false →
  Computed_peek (S fuel) c σ
  = (let y1 := Computed.set_flags (entered_flags (Computed._flags y)) y in
     let σ1 := put_signal c (with_computed x y1) σ in
     if negb (has_flag (Computed._flags y) STALE) && bool_decide (Signal._targets x ≠ None)
     then returnComputed c σ1
     else
       let y2 := Computed.set_flags (clear_flag (Computed._flags y1) STALE) y1 in
       let σ2 := put_signal c (with_computed x y2) σ in
       if Computed._globalVersion y =? globalVersion σ then returnComputed c σ2
       else
         let y3 := Computed.set_globalVersion (globalVersion σ) y2 in
         let σ3 := put_signal c (with_computed x y3) σ in
         bind (if 0 <? Signal._version x
               then bind (Computed_check_sources fuel (Computed._sources y))
                      (λ node, ret (bool_decide (node = None)))
               else ret false)
           (λ fresh : bool, if fresh then returnComputed c else Computed_recompute fuel c) σ3).
Proof.
  intros Hx Hy Hr. engine_unfold.
  unfold bind at 1. rewrite (modComputed_put _ _ _ _ _ Hx Hy).
  unfold bind at 1. erewrite getComputed_Some; [|by eapply put_signal_lookup|reflexivity].
  rsimpl. rewrite has_flag_clear_flag_other by done. rewrite Hr.
  unfold bind at 1. simpl when. unfold ret at 1.
  unfold bind at 1.
  erewrite modComputed_put; [|by eapply put_signal_lookup|reflexivity].
  rewrite put_signal_twice.
  unfold bind at 1. erewrite getComputed_Some; [|by eapply put_signal_lookup|reflexivity].
  unfold bind at 1. erewrite getSignal_Some by (by eapply put_signal_lookup).
  rsimpl. cbv zeta. unfold entered_flags.
  rewrite has_flag_set_flag_other by done. rewrite has_flag_clear_flag_other by done.
  destruct (negb (has_flag (Computed._flags y) STALE)
            && bool_decide (Signal._targets x ≠ None)); [reflexivity|].
  unfold bind at 1.
  erewrite modComputed_put; [|by eapply put_signal_lookup|reflexivity].
  rewrite put_signal_twice.
  unfold bind at 1. erewrite getComputed_Some; [|by eapply put_signal_lookup|reflexivity].
  unfold bind at 1, get at 1. rsimpl.
  change (globalVersion (put_signal c ?a σ)) with (globalVersion σ).
  destruct (Computed._globalVersion y =? globalVersion σ); [reflexivity|].
  unfold bind at 1.
  erewrite modComputed_put; [|by eapply put_signal_lookup|reflexivity].
  rewrite put_signal_twice.
  unfold bind at 1. erewrite getSignal_Some by (by eapply put_signal_lookup).
  rsimpl.
  destruct (0 <? Signal._version x); [|reflexivity].
  unfold bind at 1 3. unfold bind at 1.
  erewrite getComputed_Some; [|by eapply put_signal_lookup|reflexivity].
  reflexivity.
Qed.

(** From [σ] to [σ'] nothing changed but flags and the observed
    [globalVersion] of computed [c], whose record was [x]; in particular
    nothing was logged, so no formula was invoked. *)
Definition only_flags_changed (c : nat) (x : Signal.t) (y : Computed.t) (σ σ' : State) : Prop :=
  nodes σ' = nodes σ ∧ effects σ' = effects σ ∧ log σ' = log σ
  ∧ evalContext σ' = evalContext σ ∧ batchedEffect σ' = batchedEffect σ
  ∧ batchDepth σ' = batchDepth σ ∧ batchIteration σ' = batchIteration σ
  ∧ globalVersion σ' = globalVersion σ ∧ errorSerial σ' = errorSerial σ
  ∧ ∃ y', signals σ' = <[c := with_computed x y']> (signals σ)
          ∧ Computed._compute y' = Computed._compute y
          ∧ Computed._sources y' = Computed._sources y
          ∧ has_flag (Computed._flags y') HAS_ERROR = has_flag (Computed._flags y) HAS_ERROR
          ∧ has_flag (Computed._flags y') RUNNING = false.

(** The state in which [Computed.prototype.peek] starts to check the
    sources of computed [c]. *)
Definition check_state (c : nat) (x : Signal.t) (y : Computed.t) (σ : State) : State :=
  put_signal c (with_computed x
    (Computed.set_globalVersion (globalVersion σ)
       (Computed.set_flags (clear_flag (entered_flags (Computed._flags y)) STALE) y))) σ.

Lemma peek_fast_subscribed fuel σ c x y :
  signals σ !! c = Some x → Signal.computed x = Some y →
  has_flag (Computed._flags y) RUNNING = false →
  has_flag (Computed._flags y) STALE = false → Signal._targets x ≠ None →
  ∃ σ', Computed_peek (S fuel) c σ = Done (cached x y) σ'
        ∧ only_flags_changed c x y σ σ'.
Proof.
  intros Hx Hy Hr Hs Ht. rewrite (Computed_peek_enter _ _ _ _ _ Hx Hy Hr). cbv zeta.
  rewrite Hs, bool_decide_eq_true_2 by done. simpl.
  erewrite returnComputed_put; [|by eapply put_signal_lookup|reflexivity].
  rewrite put_signal_twice. eexists. split.
  - f_equal. unfold cached. rsimpl. unfold entered_flags.
    by rewrite has_flag_set_flag_other, has_flag_clear_flag_other by done.
  - unfold only_flags_changed. split_and!; try done.
    eexists. split; [reflexivity|]. rsimpl. split_and!; try done.
    + unfold entered_flags.
      by rewrite has_flag_clear_flag_other, has_flag_set_flag_other,
        has_flag_clear_flag_other by done.
    + apply has_flag_clear_flag.
Qed.

Lemma peek_fast_global fuel σ c x y :
  signals σ !! c = Some x → Signal.computed x = Some y →
  has_flag (Computed._flags y) RUNNING = false →
  Computed._globalVersion y = globalVersion σ →
  ∃ σ', Computed_peek (S fuel) c σ = Done (cached x y) σ'
        ∧ only_flags_changed c x y σ σ'.
Proof.
  intros Hx Hy Hr Hgv.
  destruct (negb (has_flag (Computed._flags y) STALE)
            && bool_decide (Signal._targets x ≠ None)) eqn:Hfast.
  { apply andb_true_iff in Hfast as [Hs Ht]. apply negb_true_iff in Hs.
    apply bool_decide_eq_true in Ht. by apply peek_fast_subscribed. }
  rewrite (Computed_peek_enter _ _ _ _ _ Hx Hy Hr). cbv zeta.
  rewrite Hfast, Hgv, Z.eqb_refl.
  erewrite returnComputed_put; [|by eapply put_signal_lookup|reflexivity].
  rewrite put_signal_twice. eexists. split.
  - f_equal. unfold cached. rsimpl. unfold entered_flags.
    by rewrite has_flag_clear_flag_other, has_flag_set_flag_other,
      has_flag_clear_flag_other by done.
  - unfold only_flags_changed. split_and!; try done.
    eexists. split; [reflexivity|]. rsimpl. split_and!; try done.
    + unfold entered_flags.
      by rewrite !has_flag_clear_flag_other, has_flag_set_flag_other,
        has_flag_clear_flag_other by done.
    + apply has_flag_clear_flag.
Qed.

Lemma RUNNING_nonzero : RUNNING ≠ 0.
Proof. done. Qed.

Lemma running_check_state σ c x y :
  signals σ !! c = Some x → running (check_state c x y σ) c.
Proof.
  intros Hx. eexists _, _. split; [by eapply put_signal_lookup|]. split; [reflexivity|].
  rsimpl. unfold entered_flags.
  rewrite has_flag_clear_flag_other by done. apply has_flag_set_flag, RUNNING_nonzero.
Qed.

Lemma peek_sources_unchanged fuel σ c x y σ2 :
  signals σ !! c = Some x → Signal.computed x = Some y →
  has_flag (Computed._flags y) RUNNING = false →
  0 < Signal._version x →
  Computed_check_sources fuel (Computed._sources y) (check_state c x y σ)
    = Done (Normal None) σ2 →
  ∃ σ' l x' y',
    Computed_peek (S fuel) c σ = Done (cached x y) σ'
    ∧ log σ' = log σ ++ l ∧ (EvCompute c ∉ l)
    ∧ signals σ' !! c = Some x' ∧ Signal.computed x' = Some y'
    ∧ Signal._value x' = Signal._value x ∧ Signal._version x' = Signal._version x
    ∧ has_flag (Computed._flags y') HAS_ERROR = has_flag (Computed._flags y) HAS_ERROR.
Proof.
  intros Hx Hy Hr Hver Hcheck.
  assert (∀ σ', only_flags_changed c x y σ σ' →
    ∃ (l : list event) x' y', log σ' = log σ ++ l ∧ (EvCompute c ∉ l)
      ∧ signals σ' !! c = Some x' ∧ Signal.computed x' = Some y'
      ∧ Signal._value x' = Signal._value x ∧ Signal._version x' = Signal._version x
      ∧ has_flag (Computed._flags y') HAS_ERROR = has_flag (Computed._flags y) HAS_ERROR)
    as Hfast.
  { intros σ' (_ & _ & Hlog & _ & _ & _ & _ & _ & _ & y' & Hsig & _ & _ & Herr & _).
    exists [], (with_computed x y'), y'. rewrite Hlog, Hsig, app_nil_r.
    split_and!; try done; [apply not_elem_of_nil|by eapply lookup_insert_same]. }
  destruct (negb (has_flag (Computed._flags y) STALE)
            && bool_decide (Signal._targets x ≠ None)) eqn:Hsub.
  { apply andb_true_iff in Hsub as [Hs Ht]. apply negb_true_iff in Hs.
    apply bool_decide_eq_true in Ht.
    destruct (peek_fast_subscribed fuel _ _ _ _ Hx Hy Hr Hs Ht) as (σ' & Hp & Hch).
    destruct (Hfast _ Hch) as (l & x' & y' & ?). exists σ', l, x', y'. by split. }
  destruct (Computed._globalVersion y =? globalVersion σ) eqn:Hgv.
  { apply Z.eqb_eq in Hgv.
    destruct (peek_fast_global fuel _ _ _ _ Hx Hy Hr Hgv) as (σ' & Hp & Hch).
    destruct (Hfast _ Hch) as (l & x' & y' & ?). exists σ', l, x', y'. by split. }
  assert (Computed_peek (S fuel) c σ = returnComputed c σ2) as ->.
  { rewrite (Computed_peek_enter _ _ _ _ _ Hx Hy Hr). cbv zeta.
    rewrite Hsub, Hgv. destruct (Z.ltb_spec 0 (Signal._version x)); [|lia].
    change (put_signal c _ σ) with (check_state c x y σ).
    unfold bind at 1 2. rewrite Hcheck.
    unfold ret at 1. by rewrite bool_decide_eq_true_2. }
  destruct (check_sources_frozen c _ _ _ _ _ Hcheck (running_check_state _ _ _ y Hx))
    as (x1 & y1 & x2 & y2 & Hx1 & Hy1 & Hx2 & Hy2 & Hr2 & Hv & Hve & He & l & Hl & Hnl).
  unfold check_state in Hx1. erewrite put_signal_lookup in Hx1 by done.
  injection Hx1 as <-. injection Hy1 as <-.
  rewrite (returnComputed_put _ _ _ _ Hx2 Hy2).
  eexists _, l, _, _. split_and!.
  - f_equal. unfold cached. rewrite Hv, He. rsimpl. unfold entered_flags.
    by rewrite !has_flag_clear_flag_other, has_flag_set_flag_other,
      has_flag_clear_flag_other by done.
  - exact Hl.
  - exact Hnl.
  - by eapply put_signal_lookup.
  - reflexivity.
  - exact Hv.
  - exact Hve.
  - rsimpl. rewrite has_flag_clear_flag_other by done. rewrite He. rsimpl.
    unfold entered_flags.
    by rewrite !has_flag_clear_flag_other, has_flag_set_flag_other,
      has_flag_clear_flag_other by done.
Qed.

Lemma peek_source fuel σ s x :
  is_source σ s x → peek (S fuel) s σ = Done (Normal (Signal._value x)) σ.
Proof.
  intros [Hs Hc]. engine_unfold. unfold bind. by rewrite (getSignal_Some _ _ _ Hs), Hc.
Qed.

(** Every edge on the list leads to a source whose version is the one the
    edge recorded. *)
Definition sources_match (σ : State) (l : list nat) : Prop :=
  ∀ n, n ∈ l → ∃ nd sg, nodes σ !! n = Some nd
                        ∧ is_source σ (Node.signal nd) sg
                        ∧ Signal._version sg = Node.version nd.

(** With matching sources the check of the sources ends at the end of the
    list and leaves the state as it is. *)
Lemma check_sources_match fuel σ h l :
  chain Node.nextSignal (nodes σ) h l → sources_match σ l →
  (length l < fuel)%nat →
  Computed_check_sources fuel h σ = Done (Normal None) σ.
Proof.
  revert h l. induction fuel as [|fuel IH]; [lia|].
  intros h l Hch Hm Hlen. engine_unfold. destruct l as [|n l].
  - simpl in Hch. by subst h.
  - destruct Hch as (-> & nd & Hnd & Hch).
    destruct (Hm n) as (nd' & sg & Hnd' & Hsrc & Hver); [by left|].
    rewrite Hnd in Hnd'. injection Hnd' as <-.
    unfold bind at 1. rewrite (getNode_Some _ _ _ Hnd).
    unfold bind at 1. rewrite (getSignal_Some _ _ _ (proj1 Hsrc)).
    rewrite bool_decide_eq_false_2 by (intros ?; congruence).
    destruct fuel as [|fuel]; [simpl in Hlen; lia|].
    unfold bind at 1, try_catch, bind at 1. rewrite (peek_source _ _ _ _ Hsrc).
    unfold ret at 1. unfold bind at 1. rewrite (getNode_Some _ _ _ Hnd).
    unfold bind at 1. rewrite (getSignal_Some _ _ _ (proj1 Hsrc)).
    rewrite bool_decide_eq_false_2 by (intros ?; congruence).
    eapply IH; [done| |simpl in Hlen; lia].
    intros m Hin. apply Hm. by right.
Qed.

Lemma sources_match_check_state σ c x y l :
  signals σ !! c = Some x → Signal.computed x = Some y →
  sources_match σ l → sources_match (check_state c x y σ) l.
Proof.
  intros Hx Hy Hm n Hin. destruct (Hm n Hin) as (nd & sg & Hnd & [Hsg Hc] & Hver).
  exists nd, sg. split_and!; try done. split; [|done]. simpl.
  rewrite list_lookup_insert_ne; [done|]. intros Heq. rewrite <- Heq in Hsg. congruence.
Qed.

(** The three ways in which a read of a computed returns what is cached,
    without running the formula. *)
Lemma peek_up_to_date (fuel : nat) (σ : State) (c : nat) (x : Signal.t) (y : Computed.t) :
  signals σ !! c = Some x → Signal.computed x = Some y →
  has_flag (Computed._flags y) RUNNING = false →
  (has_flag (Computed._flags y) STALE = false → Signal._targets x ≠ None →
     ∃ σ', Computed_peek (S fuel) c σ = Done (cached x y) σ'
           ∧ only_flags_changed c x y σ σ')
  ∧ (Computed._globalVersion y = globalVersion σ →
     ∃ σ', Computed_peek (S fuel) c σ = Done (cached x y) σ'
           ∧ only_flags_changed c x y σ σ')
  ∧ (∀ σ2, 0 < Signal._version x →
     Computed_check_sources fuel (Computed._sources y) (check_state c x y σ)
       = Done (Normal None) σ2 →
     ∃ σ' l x' y',
       Computed_peek (S fuel) c σ = Done (cached x y) σ'
       ∧ log σ' = log σ ++ l ∧ (EvCompute c ∉ l)
       ∧ signals σ' !! c = Some x' ∧ Signal.computed x' = Some y'
       ∧ Signal._value x' = Signal._value x ∧ Signal._version x' = Signal._version x
       ∧ has_flag (Computed._flags y') HAS_ERROR = has_flag (Computed._flags y) HAS_ERROR)
  ∧ (∀ l, 0 < Signal._version x →
     chain Node.nextSignal (nodes σ) (Computed._sources y) l →
     sources_match σ l → (length l < fuel)%nat →
     ∃ σ', Computed_peek (S fuel) c σ = Done (cached x y) σ'
           ∧ only_flags_changed c x y σ σ').
Proof.
  intros Hx Hy Hr. split_and!.
  - by apply peek_fast_subscribed.
  - by apply peek_fast_global.
  - intros σ2 Hver Hcheck. by eapply peek_sources_unchanged.
  - intros l Hver Hch Hm Hlen.
    destruct (negb (has_flag (Computed._flags y) STALE)
              && bool_decide (Signal._targets x ≠ None)) eqn:Hsub.
    { apply andb_true_iff in Hsub as [Hs Ht]. apply negb_true_iff in Hs.
      apply bool_decide_eq_true in Ht. by apply peek_fast_subscribed. }
    destruct (Computed._globalVersion y =? globalVersion σ) eqn:Hgv.
    { apply Z.eqb_eq in Hgv. by apply peek_fast_global. }
    rewrite (Computed_peek_enter _ _ _ _ _ Hx Hy Hr). cbv zeta.
    rewrite Hsub, Hgv. destruct (Z.ltb_spec 0 (Signal._version x)); [|lia].
    change (put_signal c _ σ) with (check_state c x y σ).
    unfold bind at 1 2.
    rewrite (check_sources_match fuel (check_state c x y σ) _ l);
      [|exact Hch|by apply sources_match_check_state|exact Hlen].
    unfold ret at 1. rewrite bool_decide_eq_true_2 by done.
    unfold check_state.
    erewrite returnComputed_put; [|by eapply put_signal_lookup|reflexivity].
    rewrite put_signal_twice. eexists. split.
    + f_equal. unfold cached. rsimpl. unfold entered_flags.
      by rewrite has_flag_clear_flag_other, has_flag_set_flag_other,
        has_flag_clear_flag_other by done.
    + unfold only_flags_changed. split_and!; try done.
      eexists. split; [reflexivity|]. rsimpl. split_and!; try done.
      * unfold entered_flags.
        by rewrite !has_flag_clear_flag_other, has_flag_set_flag_other,
          has_flag_clear_flag_other by done.
      * apply has_flag_clear_flag.
Qed.

(** ** Errors of a formula *)

Definition outcome_value (r : completion value) : value :=
  match r with Normal v => v | Throws e => e end.

Definition outcome_is_error (r : completion value) : bool :=
  match r with Normal _ => false | Throws _ => true end.

Lemma stable_computed σ σ' c x y :
  stable σ σ' → signals σ !! c = Some x → Signal.computed x = Some y →
  ∃ x' y', signals σ' !! c = Some x' ∧ Signal.computed x' = Some y'
           ∧ Computed._compute y' = Computed._compute y.
Proof.
  intros Hst Hx Hy. destruct (st_signals _ _ Hst _ _ Hx) as (x' & Hx' & _ & Hc).
  rewrite Hy in Hc. destruct (Signal.computed x') as [y'|] eqn:Hy'; [|done].
  by exists x', y'.
Qed.

(** The recomputation proper, given what the preparation of the sources,
    the formula and the cleanup of the sources do. *)
Lemma Computed_recompute_run fuel σ c x y σp r σd σe :
  signals σ !! c = Some x → Signal.computed x = Some y →
  prepareSources fuel (TComputed c) (set_evalContext (Some (TComputed c)) σ)
    = Done (Normal tt) σp →
  run fuel (Computed._compute y) (add_log (EvCompute c) σp) = Done r σd →
  cleanupSources fuel (TComputed c) σd = Done (Normal tt) σe →
  Computed_recompute (S fuel) c σ
  = bind (Computed_store c (outcome_value r) (outcome_is_error r))
      (λ _, returnComputed c) (set_evalContext (evalContext σ) σe).
Proof.
  intros Hx Hy Hprep Hrun Hclean.
  destruct (stable_computed (set_evalContext (Some (TComputed c)) σ) σp c x y)
    as (xp & yp & Hxp & Hyp & Hcomp); [|done|done|].
  { apply stable_links. by eapply prepareSources_links. }
  engine_unfold. unfold bind at 1, get at 1.
  unfold bind at 1, try_finally, try_catch.
  unfold bind at 1, modify at 1. unfold bind at 1. rewrite Hprep.
  unfold bind at 1. rewrite (getComputed_Some _ _ _ _ Hxp Hyp).
  unfold bind at 1, modify at 1. unfold bind at 1. rewrite Hcomp, Hrun.
  destruct r as [v|e]; simpl.
  - unfold bind at 1. rewrite Hclean. reflexivity.
  - unfold bind at 1. rewrite Hclean. reflexivity.
Qed.

(** Storing an outcome and returning it. *)
Lemma store_and_return σ c x y v isErr :
  signals σ !! c = Some x → Signal.computed x = Some y →
  ∃ σ' x' y',
    bind (Computed_store c v isErr) (λ _, returnComputed c) σ
    = Done (if isErr then Throws v else Normal v) σ'
    ∧ signals σ' !! c = Some x' ∧ Signal.computed x' = Some y'
    ∧ Signal._value x' = v
    ∧ has_flag (Computed._flags y') HAS_ERROR = isErr
    ∧ has_flag (Computed._flags y') RUNNING = false
    ∧ Computed._compute y' = Computed._compute y.
Proof.
  intros Hx Hy. unfold bind. rewrite (Computed_store_result _ _ _ _ _ _ Hx Hy).
  pose proof (store_condition_true x y v isErr) as Hcond.
  destruct (store_condition x y v isErr).
  - erewrite returnComputed_put; [|simpl; by eapply lookup_insert_same|reflexivity].
    assert (has_flag (if isErr then set_flag (Computed._flags y) HAS_ERROR
                      else clear_flag (Computed._flags y) HAS_ERROR) HAS_ERROR = isErr)
      as Hflag.
    { destruct isErr.
      - apply has_flag_set_flag, HAS_ERROR_nonzero.
      - apply has_flag_clear_flag. }
    eexists _, _, _. split_and!.
    + f_equal. unfold cached, stored_record. rsimpl. rewrite Hflag. by destruct isErr.
    + simpl. lookup_ins.
    + reflexivity.
    + reflexivity.
    + rsimpl. by rewrite has_flag_clear_flag_other.
    + rsimpl. apply has_flag_clear_flag.
    + reflexivity.
  - assert (isErr = false ∧ has_flag (Computed._flags y) HAS_ERROR = false
            ∧ v = Signal._value x) as (-> & He & ->).
    { split_and!.
      - destruct isErr; [|done]. exfalso. assert (false = true) by (apply Hcond; eauto). done.
      - destruct (has_flag (Computed._flags y) HAS_ERROR); [|done].
        exfalso. assert (false = true) by (apply Hcond; eauto). done.
      - destruct (strict_neq (Signal._value x) v) eqn:Hs.
        + exfalso. assert (false = true) by (apply Hcond; eauto). done.
        + by apply strict_neq_false in Hs as [? _]. }
    rewrite (returnComputed_put _ _ _ _ Hx Hy).
    eexists _, _, _. split_and!.
    + f_equal. unfold cached. by rewrite He.
    + by eapply put_signal_lookup.
    + reflexivity.
    + reflexivity.
    + rsimpl. by rewrite has_flag_clear_flag_other.
    + rsimpl. apply has_flag_clear_flag.
    + reflexivity.
Qed.

(** A recomputation whose formula throws captures the error. *)
Lemma formula_error_captured (fuel : nat) (σ : State) (c : nat)
    (x : Signal.t) (y : Computed.t) (σp σd σe : State) (r : completion value) :
  signals σ !! c = Some x → Signal.computed x = Some y →
  prepareSources fuel (TComputed c) (set_evalContext (Some (TComputed c)) σ)
    = Done (Normal tt) σp →
  run fuel (Computed._compute y) (add_log (EvCompute c) σp) = Done r σd →
  cleanupSources fuel (TComputed c) σd = Done (Normal tt) σe →
  ∃ σ' x' y',
    Computed_recompute (S fuel) c σ = Done r σ'
    ∧ signals σ' !! c = Some x' ∧ Signal.computed x' = Some y'
    ∧ Signal._value x' = outcome_value r
    ∧ has_flag (Computed._flags y') HAS_ERROR = outcome_is_error r
    ∧ has_flag (Computed._flags y') RUNNING = false
    ∧ (∀ fuel' σ1 x1 y1,
         signals σ1 !! c = Some x1 → Signal.computed x1 = Some y1 →
         Signal._value x1 = Signal._value x' →
         has_flag (Computed._flags y1) HAS_ERROR = has_flag (Computed._flags y') HAS_ERROR →
         has_flag (Computed._flags y1) RUNNING = false →
         (has_flag (Computed._flags y1) STALE = false ∧ Signal._targets x1 ≠ None)
         ∨ Computed._globalVersion y1 = globalVersion σ1 →
         ∃ σ2, Computed_peek (S fuel') c σ1 = Done r σ2
               ∧ only_flags_changed c x1 y1 σ1 σ2).
Proof.
  intros Hx Hy Hprep Hrun Hclean.
  rewrite (Computed_recompute_run _ _ _ _ _ _ _ _ _ Hx Hy Hprep Hrun Hclean).
  assert (stable σ (set_evalContext (evalContext σ) σe)) as Hst.
  { etrans; [apply (stable_set_evalContext _ (Some (TComputed c)))|].
    etrans; [apply stable_links; by eapply prepareSources_links|].
    etrans; [apply (stable_log _ (EvCompute c))|].
    etrans; [by eapply engine_stable|].
    etrans; [apply stable_links; by eapply cleanupSources_links|].
    apply stable_set_evalContext. }
  destruct (stable_computed _ _ _ _ _ Hst Hx Hy) as (xe & ye & Hxe & Hye & _).
  destruct (store_and_return _ c xe ye (outcome_value r) (outcome_is_error r) Hxe Hye)
    as (σ' & x' & y' & Hres & Hx' & Hy' & Hv & Herr & Hrunning & _).
  exists σ', x', y'. split_and!; try done.
  - rewrite Hres. by destruct r.
  - intros fuel' σ1 x1 y1 Hx1 Hy1 Hv1 Herr1 Hr1 Hfresh.
    assert (cached x1 y1 = r) as <-.
    { unfold cached. rewrite Herr1, Herr, Hv1, Hv. by destruct r. }
    destruct Hfresh as [[Hs Ht]|Hgv].
    + by apply peek_fast_subscribed.
    + by apply peek_fast_global.
Qed.

(** ** Scenarios *)

(** A formula that throws when its source holds [0]. *)
Definition throwing (a : nat) : prog :=
  GetValue a (λ v, if bool_decide (v = VNum 0) then Throw (VStr "zero") else Ret v).

(** Source 0 holds [0]; computed 1 runs [throwing 0]; computed 2 reads
    computed 1. *)
Definition throwing_state : State :=
  state_of (let* a := signal (VNum 0) in
            let* c := computed (throwing a) in
            computed (GetValue c Ret)).



(** Source 0 and source 1; computed 2 has read source 0; source 1 was
    written afterwards. *)
Definition unrelated_write_state : State :=
  state_of (let* a := signal (VNum 1) in
            let* b := signal (VNum 2) in
            let* c := computed (GetValue a Ret) in
            let* _ := peek 10 c in
            set_value 10 b (VNum 3)).

Definition unrelated_write_signal : Signal.t :=
  default (Signal.mk VUndefined 0 None None None) (signals unrelated_write_state !! 2%nat).

Definition unrelated_write_computed : Computed.t :=
  default (Computed.mk (Ret VUndefined) None 0 0) (Signal.computed unrelated_write_signal).



(** ** Batches are balanced *)

(** [queue effs h es]: following [_nextEffect] from [h] visits the effects
    [es], each of them once and each of them [NOTIFIED]. *)
Fixpoint queue (effs : list Effect.t) (h : option nat) (es : list nat) : Prop :=
  match es with
  | [] => h = None
  | e :: es' =>
      h = Some e ∧ (e ∉ es')
      ∧ ∃ x, effs !! e = Some x
             ∧ has_flag (Effect._flags x) NOTIFIED = true
             ∧ queue effs (Effect._nextEffect x) es'
  end.

(** Every effect that is enqueued ([NOTIFIED]) in [σ] is still enqueued in
    [σ'], with the same successor in the queue. *)
Definition enqueued_kept (σ σ' : State) : Prop :=
  ∀ e x, effects σ !! e = Some x → has_flag (Effect._flags x) NOTIFIED = true →
    ∃ x', effects σ' !! e = Some x'
          ∧ has_flag (Effect._flags x') NOTIFIED = true
          ∧ Effect._nextEffect x' = Effect._nextEffect x.

Definition unnotified (σ : State) (e : nat) : Prop :=
  ∀ x, effects σ !! e = Some x → has_flag (Effect._flags x) NOTIFIED = false.

(** The queue [batchedEffect] of [σ'] is the one of [σ] with effects in
    front of it that were not enqueued in [σ]. *)
Definition queue_grows (σ σ' : State) : Prop :=
  ∀ es, queue (effects σ) (batchedEffect σ) es →
    ∃ added, queue (effects σ') (batchedEffect σ') (added ++ es)
             ∧ Forall (unnotified σ) added.

Definition queue_kept (σ σ' : State) : Prop :=
  enqueued_kept σ σ' ∧ queue_grows σ σ'.

(** [depth_rel lo k σ σ']: if at least [lo] batches are open in [σ], then
    in [σ'] the depth has changed by [k], [batchIteration] is the same, the
    enqueued effects are still enqueued and the queue has only grown. *)
Definition depth_rel (lo k : Z) (σ σ' : State) : Prop :=
  lo ≤ batchDepth σ →
  batchDepth σ' = batchDepth σ + k
  ∧ batchIteration σ' = batchIteration σ
  ∧ queue_kept σ σ'.

(** Inside a batch, a call leaves the depth as it found it. *)
Definition balanced : relation State := depth_rel 1 0.

(** Inside a nested batch, a call closes one batch without draining. *)
Definition closes : relation State := depth_rel 2 (-1).

Lemma queue_insert_other effs h es e x :
  e ∉ es → queue effs h es → queue (<[e := x]> effs) h es.
Proof.
  revert h. induction es as [|e0 es IH]; intros h Hnin Hq; [done|].
  destruct Hq as (-> & Hnin0 & x0 & Hx0 & Hn & Hq).
  apply not_elem_of_cons in Hnin as [Hne Hnin].
  split; [done|]. split; [done|]. exists x0.
  rewrite list_lookup_insert_ne by done. split_and!; try done. by apply IH.
Qed.

Lemma queue_notified effs h es e :
  queue effs h es → e ∈ es →
  ∃ x, effs !! e = Some x ∧ has_flag (Effect._flags x) NOTIFIED = true.
Proof.
  revert h. induction es as [|e0 es IH]; intros h Hq Hin; [by apply elem_of_nil in Hin|].
  destruct Hq as (-> & Hnin0 & x0 & Hx0 & Hn & Hq).
  apply elem_of_cons in Hin as [->|Hin]; eauto.
Qed.

Lemma enqueued_kept_refl σ : enqueued_kept σ σ.
Proof. intros e x Hx Hn. eauto. Qed.

Lemma enqueued_kept_trans σ1 σ2 σ3 :
  enqueued_kept σ1 σ2 → enqueued_kept σ2 σ3 → enqueued_kept σ1 σ3.
Proof.
  intros H12 H23 e x Hx Hn. destruct (H12 _ _ Hx Hn) as (x' & Hx' & Hn' & Hnext).
  destruct (H23 _ _ Hx' Hn') as (x'' & ? & ? & ?). exists x''. split_and!; congruence.
Qed.

Lemma enqueued_kept_same σ σ' : effects σ' = effects σ → enqueued_kept σ σ'.
Proof. intros He e x Hx Hn. rewrite He. eauto. Qed.

Lemma enqueued_kept_effect σ e x x' :
  effects σ !! e = Some x →
  (has_flag (Effect._flags x) NOTIFIED = true →
     has_flag (Effect._flags x') NOTIFIED = true
     ∧ Effect._nextEffect x' = Effect._nextEffect x) →
  enqueued_kept σ (upd_effects (λ l, <[e := x']> l) σ).
Proof.
  intros Hx Hsame e0 x0 Hx0 Hn. simpl. destruct (decide (e0 = e)) as [->|Hne].
  - rewrite Hx in Hx0. injection Hx0 as <-. exists x'.
    split; [by eapply lookup_insert_same|]. by apply Hsame.
  - exists x0. by rewrite list_lookup_insert_ne.
Qed.

Lemma enqueued_kept_queue σ σ' h es :
  enqueued_kept σ σ' → queue (effects σ) h es → queue (effects σ') h es.
Proof.
  intros Hk. revert h. induction es as [|e es IH]; intros h Hq; [done|].
  destruct Hq as (-> & Hnin & x & Hx & Hn & Hq).
  destruct (Hk _ _ Hx Hn) as (x' & Hx' & Hn' & Hnext).
  split; [done|]. split; [done|]. exists x'. split_and!; try done.
  rewrite Hnext. by apply IH.
Qed.

Lemma unnotified_before σ σ' e :
  enqueued_kept σ σ' → unnotified σ' e → unnotified σ e.
Proof.
  intros Hk Hu x Hx. destruct (has_flag (Effect._flags x) NOTIFIED) eqn:Hn; [|done].
  destruct (Hk _ _ Hx Hn) as (x' & Hx' & Hn' & _). by rewrite (Hu _ Hx') in Hn'.
Qed.

Lemma queue_grows_same σ σ' :
  enqueued_kept σ σ' → batchedEffect σ' = batchedEffect σ → queue_grows σ σ'.
Proof.
  intros Hk Hb es Hq. exists []. split; [|done]. simpl. rewrite Hb.
  by eapply enqueued_kept_queue.
Qed.

Lemma queue_grows_trans σ1 σ2 σ3 :
  enqueued_kept σ1 σ2 → queue_grows σ1 σ2 → queue_grows σ2 σ3 → queue_grows σ1 σ3.
Proof.
  intros Hk H12 H23 es Hq. destruct (H12 _ Hq) as (a1 & Hq2 & Hu1).
  destruct (H23 _ Hq2) as (a2 & Hq3 & Hu2). exists (a2 ++ a1).
  rewrite <- app_assoc. split; [done|]. apply Forall_app. split; [|done].
  eapply Forall_impl; [exact Hu2|]. intros e. by apply unnotified_before.
Qed.

Lemma queue_kept_refl σ : queue_kept σ σ.
Proof.
  split; [apply enqueued_kept_refl|].
  apply queue_grows_same; [apply enqueued_kept_refl|done].
Qed.

Lemma queue_kept_trans σ1 σ2 σ3 : queue_kept σ1 σ2 → queue_kept σ2 σ3 → queue_kept σ1 σ3.
Proof.
  intros [Hk12 Hg12] [Hk23 Hg23]. split.
  - by eapply enqueued_kept_trans.
  - by eapply queue_grows_trans.
Qed.

Lemma queue_kept_same σ σ' :
  effects σ' = effects σ → batchedEffect σ' = batchedEffect σ → queue_kept σ σ'.
Proof.
  intros He Hb. pose proof (enqueued_kept_same _ _ He). split; [done|].
  by apply queue_grows_same.
Qed.

Lemma queue_kept_effect σ e x x' :
  effects σ !! e = Some x →
  (has_flag (Effect._flags x) NOTIFIED = true →
     has_flag (Effect._flags x') NOTIFIED = true
     ∧ Effect._nextEffect x' = Effect._nextEffect x) →
  queue_kept σ (upd_effects (λ l, <[e := x']> l) σ).
Proof.
  intros Hx Hsame. pose proof (enqueued_kept_effect _ _ _ _ Hx Hsame). split; [done|].
  by apply queue_grows_same.
Qed.

Lemma queue_kept_queue σ σ' h es :
  queue_kept σ σ' → queue (effects σ) h es → queue (effects σ') h es.
Proof. intros [Hk _]. by apply enqueued_kept_queue. Qed.

(** [Effect.prototype._notify] on an effect that is not enqueued puts it in
    front of the queue. *)
Lemma queue_kept_enqueue σ e x :
  effects σ !! e = Some x → has_flag (Effect._flags x) NOTIFIED = false →
  queue_kept σ (enqueue_effect e x σ).
Proof.
  intros Hx Hn. unfold enqueue_effect.
  assert (enqueued_kept σ (set_batchedEffect (Some e)
            (upd_effects (λ l, <[e := Effect.set_nextEffect (batchedEffect σ)
               (Effect.set_flags (set_flag (Effect._flags x) NOTIFIED) x)]> l) σ))) as Hk.
  { eapply enqueued_kept_trans; [|by apply enqueued_kept_same].
    eapply enqueued_kept_effect; [done|]. congruence. }
  split; [done|]. intros es Hq. exists [e]. split.
  - simpl. split; [done|]. split.
    + intros Hin. destruct (queue_notified _ _ _ _ Hq Hin) as (x0 & Hx0 & Hn0). congruence.
    + eexists. split; [by eapply lookup_insert_same|]. split.
      * simpl. apply has_flag_set_flag. done.
      * simpl. apply queue_insert_other; [|done].
        intros Hin. destruct (queue_notified _ _ _ _ Hq Hin) as (x0 & Hx0 & Hn0). congruence.
  - apply Forall_singleton. intros x0 Hx0. congruence.
Qed.

Lemma depth_rel_refl lo σ : depth_rel lo 0 σ σ.
Proof. intros _. split_and!; [lia|done|apply queue_kept_refl]. Qed.

Lemma depth_rel_trans lo1 k1 lo2 k2 σ1 σ2 σ3 :
  lo2 ≤ lo1 + k1 →
  depth_rel lo1 k1 σ1 σ2 → depth_rel lo2 k2 σ2 σ3 → depth_rel lo1 (k1 + k2) σ1 σ3.
Proof.
  intros Hlo H12 H23 Hd. destruct (H12 Hd) as (Hd2 & Hi2 & Hq2).
  destruct H23 as (Hd3 & Hi3 & Hq3); [lia|].
  split_and!; [lia|congruence|by eapply queue_kept_trans].
Qed.

Lemma depth_rel_weaken lo lo' k σ σ' : lo ≤ lo' → depth_rel lo k σ σ' → depth_rel lo' k σ σ'.
Proof. intros Hlo H Hd. apply H. lia. Qed.

#[global] Instance balanced_preorder : PreOrder balanced.
Proof.
  split.
  - intros σ. apply depth_rel_refl.
  - intros σ1 σ2 σ3 H12 H23. by apply (depth_rel_trans 1 0 1 0 σ1 σ2 σ3).
Qed.

(** An update that leaves the effects and the two counters alone. *)
Lemma depth_rel_other lo σ σ' :
  effects σ' = effects σ → batchedEffect σ' = batchedEffect σ →
  batchDepth σ' = batchDepth σ →
  batchIteration σ' = batchIteration σ → depth_rel lo 0 σ σ'.
Proof.
  intros He Hb Hd Hi _. split_and!; [lia|done|by apply queue_kept_same].
Qed.

Lemma depth_rel_links lo σ σ' : links_only σ σ' → depth_rel lo 0 σ σ'.
Proof.
  intros Hl _.
  split_and!; [rewrite (lo_batchDepth _ _ Hl); lia|apply (lo_batchIteration _ _ Hl)|].
  assert (enqueued_kept σ σ') as Hk.
  { intros e x Hx Hn. destruct (lo_effects _ _ Hl _ _ Hx) as (x' & ? & _ & ? & Hf).
    exists x'. rewrite Hf. by split_and!. }
  split; [done|]. apply queue_grows_same; [done|apply (lo_batchedEffect _ _ Hl)].
Qed.

Lemma depth_rel_effect_flags lo σ e x f :
  effects σ !! e = Some x →
  (has_flag (Effect._flags x) NOTIFIED = true → has_flag f NOTIFIED = true) →
  depth_rel lo 0 σ (upd_effects (λ l, <[e := Effect.set_flags f x]> l) σ).
Proof.
  intros Hx Hf _. split_and!; [simpl; lia|done|].
  eapply queue_kept_effect; [done|]. intros Hn. split; [by apply Hf|done].
Qed.

Lemma depth_rel_notify lo fuel :
  (∀ t, preserves (depth_rel lo 0) (notify fuel t))
  ∧ (∀ h, preserves (depth_rel lo 0) (notify_targets fuel h)).
Proof.
  assert (∀ σ0,
     (∀ t σ r σ', depth_rel lo 0 σ0 σ → notify fuel t σ = Done r σ'
        → depth_rel lo 0 σ0 σ' ∧ r = Normal tt)
     ∧ (∀ h σ r σ', depth_rel lo 0 σ0 σ → notify_targets fuel h σ = Done r σ'
          → depth_rel lo 0 σ0 σ' ∧ r = Normal tt)) as H.
  { intros σ0. apply notify_preserves.
    - intros σ t H Hd. destruct (H Hd) as (? & ? & ?). by split_and!.
    - intros σ c x y H Hx Hy _ Hd. destruct (H Hd) as (? & ? & ?). by split_and!.
    - intros σ e x H Hx Hn Hd. destruct (H Hd) as (? & ? & Hq). split_and!; try done.
      eapply queue_kept_trans; [done|]. by apply queue_kept_enqueue. }
  split; intros ? σ r σ' Hr; eapply H in Hr; try apply Hr; apply depth_rel_refl.
Qed.

Lemma depth_rel_refl' lo k σ : k = 0 → depth_rel lo k σ σ.
Proof. intros ->. apply depth_rel_refl. Qed.

Lemma depth_rel_step lo k σ σ1 σ' k2 lo2 :
  depth_rel lo (k - k2) σ σ1 → depth_rel lo2 k2 σ1 σ' → lo2 ≤ lo + (k - k2) →
  depth_rel lo k σ σ'.
Proof.
  intros H1 H2 Hlo. replace k with ((k - k2) + k2) by lia.
  by eapply depth_rel_trans.
Qed.

Lemma depth_rel_set_batchDepth lo σ d k :
  d = batchDepth σ + k → depth_rel lo k σ (set_batchDepth d σ).
Proof. intros -> _. split_and!; [done|done|by apply queue_kept_same]. Qed.

(** Proves [depth_rel lo k σ σ'] where [σ'] is built from [σ] by updates
    and by calls whose [depth_rel] is in the context. *)
Ltac dr_step :=
  match goal with
  | |- depth_rel _ _ ?σ ?σ => apply depth_rel_refl'; lia
  | H : depth_rel ?lo2 ?k2 ?σ1 ?σ' |- depth_rel ?lo ?k ?σ ?σ' =>
      apply (depth_rel_step lo k σ σ1 σ' k2 lo2); [|exact H|lia]
  | H : links_only ?σ1 ?σ' |- depth_rel ?lo ?k ?σ ?σ' =>
      apply (depth_rel_step lo k σ σ1 σ' 0 (lo + (k - 0))); [|by apply depth_rel_links|lia]
  | |- depth_rel ?lo ?k ?σ (set_batchDepth (_ + 1) ?σ1) =>
      apply (depth_rel_step lo k σ σ1 _ 1 (lo + (k - 1)));
        [|apply depth_rel_set_batchDepth; simpl; lia|lia]
  | |- depth_rel ?lo ?k ?σ (set_batchDepth (_ - 1) ?σ1) =>
      apply (depth_rel_step lo k σ σ1 _ (-1) (lo + (k - (-1))));
        [|apply depth_rel_set_batchDepth; simpl; lia|lia]
  | |- depth_rel ?lo ?k ?σ (upd_effects (λ l, <[_ := Effect.set_flags _ _]> l) ?σ1) =>
      apply (depth_rel_step lo k σ σ1 _ 0 (lo + (k - 0)));
        [|eapply depth_rel_effect_flags; [simpl; eassumption|
            intros; first [by rewrite has_flag_set_flag_other
                          |by rewrite has_flag_clear_flag_other]]|lia]
  | |- depth_rel ?lo ?k ?σ (?upd _ ?σ1) =>
      apply (depth_rel_step lo k σ σ1 _ 0 (lo + (k - 0)));
        [|apply depth_rel_other; reflexivity|lia]
  end.
Ltac dr_chain := repeat dr_step.

(** Proves that a primitive step preserves [balanced]. *)
Ltac balanced_prim :=
  match goal with
  | |- preserves _ (modComputed _ _) =>
      apply preserves_modComputed; intros; by apply depth_rel_other
  | |- preserves _ (modSignal _ _) =>
      apply preserves_modSignal; intros; by apply depth_rel_other
  | |- preserves _ (modify _) =>
      apply preserves_modify; intros; by apply depth_rel_other
  | |- preserves _ (throw_new_error _) =>
      apply preserves_throw_new_error; intros; by apply depth_rel_other
  | |- preserves _ (notify_targets _ _) => apply depth_rel_notify
  | |- preserves balanced _ =>
      eapply preserves_weaken; [apply depth_rel_links|]; apply preserves_links_only_calls
  end.

(** The relation each function of the mutually recursive part keeps. *)
Definition engine_balanced (fuel : nat) : Prop :=
  (∀ s, preserves balanced (peek fuel s))
  ∧ (∀ s, preserves balanced (Computed_peek fuel s))
  ∧ (∀ s, preserves balanced (Computed_recompute fuel s))
  ∧ (∀ h, preserves balanced (Computed_check_sources fuel h))
  ∧ (∀ s, preserves balanced (getValue fuel s))
  ∧ (∀ s, preserves balanced (get_value fuel s))
  ∧ (∀ s v, preserves balanced (set_value fuel s v))
  ∧ preserves closes (endBatch fuel)
  ∧ (∀ e, preserves balanced (Effect_callback fuel e))
  ∧ (∀ e p, preserves closes (endEffect fuel e p))
  ∧ (∀ cb, preserves balanced (batch fuel cb))
  ∧ (∀ p, preserves balanced (run fuel p)).

Lemma closes_endBatch fuel : preserves closes (endBatch fuel).
Proof.
  destruct fuel as [|fuel]; [done|].
  intros σ r σ' H Hd. engine_unfold in H. minv.
  destruct (Z.ltb_spec 1 (batchDepth σ)); [|lia]. minv.
  split_and!; [simpl; lia|done|by apply queue_kept_same].
Qed.

Section balanced_engine.
Context (fuel : nat).
Hypothesis IH : engine_balanced fuel.

Lemma balanced_set_value s v : preserves balanced (set_value (S fuel) s v).
Proof.
  destruct IH as (_ & _ & _ & _ & _ & _ & _ & IHendBatch & _).
  intros σ r σ' H. engine_unfold in H. unfold cycleDetected, readonly_error, startBatch in H.
  minv_case.
  all: repeat match goal with
       | H : try_finally _ _ _ = Done _ _ |- _ =>
           apply try_finally_Done in H as (? & ? & ? & [[? ?]|(? & ? & ?)])
       end; minv.
  all: repeat match goal with
       | H : notify_targets _ _ _ = Done _ _ |- _ =>
           apply (proj2 (depth_rel_notify 1 _)) in H
       | H : endBatch _ _ = Done _ _ |- _ => apply IHendBatch in H
       end.
  all: unfold balanced, closes in *; dr_chain.
Qed.

Lemma closes_endEffect e p : preserves closes (endEffect (S fuel) e p).
Proof.
  destruct IH as (_ & _ & _ & _ & _ & _ & _ & IHendBatch & _).
  intros σ r σ' H. engine_unfold in H. minv_case.
  all: repeat match goal with
       | H : cleanupSources _ _ _ = Done _ _ |- _ =>
           apply cleanupSources_links in H as [? ?]; simplify_eq
       | H : endBatch _ _ = Done _ _ |- _ => apply IHendBatch in H
       end.
  all: unfold balanced, closes in *; dr_chain.
Qed.

Lemma balanced_Effect_callback e : preserves balanced (Effect_callback (S fuel) e).
Proof.
  destruct IH as (_ & _ & _ & _ & _ & _ & _ & _ & _ & IHendEffect & _ & IHrun).
  intros σ r σ' H. engine_unfold in H.
  unfold Effect_start, cycleDetected, startBatch in H. minv_case.
  all: repeat match goal with
       | H : try_finally _ _ _ = Done _ _ |- _ =>
           apply try_finally_Done in H as (? & ? & ? & [[? ?]|(? & ? & ?)])
       end; minv.
  all: repeat match goal with
       | H : prepareSources _ _ _ = Done _ _ |- _ =>
           apply prepareSources_links in H as [? ?]; simplify_eq
       | H : run _ _ _ = Done _ _ |- _ => apply IHrun in H
       | H : endEffect _ _ _ _ = Done _ _ |- _ => apply IHendEffect in H
       end.
  all: unfold balanced, closes in *; dr_chain.
Qed.

Lemma balanced_batch cb : preserves balanced (batch (S fuel) cb).
Proof.
  destruct IH as (_ & _ & _ & _ & _ & _ & _ & _ & _ & _ & _ & IHrun).
  intros σ r σ' H. engine_unfold in H. minv.
  destruct (Z.ltb_spec 0 (batchDepth σ)).
  - by eapply IHrun.
  - intros Hd. lia.
Qed.

End balanced_engine.

Lemma engine_is_balanced fuel : engine_balanced fuel.
Proof.
  induction fuel as [|fuel IH];
    [by unfold engine_balanced, preserves; split_and!; intros|].
  pose proof (balanced_set_value fuel IH) as Hset.
  pose proof (closes_endEffect fuel IH) as HendEffect.
  pose proof (balanced_Effect_callback fuel IH) as Hcallback.
  pose proof (balanced_batch fuel IH) as Hbatch.
  pose proof (closes_endBatch (S fuel)) as HendBatch.
  destruct IH as (IHpeek & IHcpeek & IHrecompute & IHcheck & IHgetValue & IHget & IHset
                  & IHendBatch & IHcallback & IHendEffect & IHbatch & IHrun).
  unfold engine_balanced. split_and!; intros; try done.
  all: engine_unfold; unfold returnComputed, Computed_store, cycleDetected.
  all: pres; try balanced_prim.
Qed.

(** ** The drain of the effect queue *)

(** One effect of a drain pass in the words of the specification: clear
    its [notified] flag, invoke its callback, and capture the error if it
    is the first one. *)
Definition drain_one (fuel : nat) (e : nat) (acc : value * bool) : M (value * bool) :=
  let* _ := modEffect e (Effect.set_nextEffect None) in
  let* _ := modEffect e (λ x, Effect.set_flags (clear_flag (Effect._flags x) NOTIFIED) x) in
  try_catch
    (let* _ := Effect_callback fuel e in ret acc)
    (λ err, if negb acc.2 then ret (err, true) else ret acc).

(** A drain pass in the words of the specification: every effect of the
    list gets its turn, whatever the earlier ones did. *)
Fixpoint drain_list (fuel : nat) (es : list nat) (acc : value * bool) : M (value * bool) :=
  match fuel with
  | O => out_of_fuel
  | S fuel' =>
      match es with
      | [] => ret acc
      | e :: es' => let* acc' := drain_one fuel' e acc in drain_list fuel' es' acc'
      end
  end.

Lemma balanced_callback fuel e : preserves balanced (Effect_callback fuel e).
Proof. apply engine_is_balanced. Qed.

(** What one effect of the drain does to the accumulated error. *)
Lemma drain_one_result fuel e acc σ r σ' :
  drain_one fuel e acc σ = Done r σ' →
  ∃ σ1 c, Effect_callback fuel e σ1 = Done c σ'
    ∧ r = Normal (match c with
                  | Normal _ => acc
                  | Throws err => if acc.2 then acc else (err, true)
                  end).
Proof.
  unfold drain_one. intros H. minv.
  - eexists _, _. split; [done|]. done.
  - destruct acc as [a []]; simpl in *; minv; eexists _, _; (split; [done|done]).
Qed.

Lemma drain_one_balanced fuel e acc σ r σ' :
  drain_one fuel e acc σ = Done r σ' → 1 ≤ batchDepth σ →
  batchDepth σ' = batchDepth σ ∧ batchIteration σ' = batchIteration σ.
Proof.
  unfold drain_one. intros H Hd. minv.
  all: match goal with H : Effect_callback _ _ _ = Done _ _ |- _ =>
         apply balanced_callback in H; destruct H as (? & ? & _); [simpl; lia|] end.
  - simpl in *. split; [lia|done].
  - destruct acc as [a []]; simpl in *; minv; (split; [lia|done]).
Qed.

Lemma bind_assoc {A B C} (m : M A) (k : A → M B) (k' : B → M C) σ :
  bind (bind m k) k' σ = bind m (λ a, bind (k a) k') σ.
Proof. unfold bind. by destruct (m σ) as [[a|e] σ1| |]. Qed.

Lemma bind_ext_results {A B} (m : M A) (k1 k2 : A → M B) σ :
  (∀ a σ1, m σ = Done (Normal a) σ1 → k1 a σ1 = k2 a σ1) →
  bind m k1 σ = bind m k2 σ.
Proof. intros H. unfold bind. destruct (m σ) as [[a|e] σ1| |]; eauto. Qed.

(** The effects still pending stay pending while one effect has its turn. *)
Lemma drain_one_keeps fuel e acc σ r σ' h es :
  e ∉ es → queue (effects σ) h es → 1 ≤ batchDepth σ →
  drain_one fuel e acc σ = Done r σ' →
  queue (effects σ') h es.
Proof.
  intros Hnin Hq Hd H. unfold drain_one in H. minv.
  all: match goal with H : Effect_callback _ _ _ = Done _ _ |- _ =>
         apply balanced_callback in H; destruct H as (_ & _ & Hk); [simpl; lia|] end.
  all: try (match goal with H : (if ?b then _ else _) _ = Done _ _ |- _ =>
              destruct b; minv end).
  all: eapply queue_kept_queue; [exact Hk|]; simpl.
  all: apply queue_insert_other; [done|]; by apply queue_insert_other.
Qed.

(** One round of the inner loop of [endBatch] is one turn of an effect. *)
Lemma endBatch_effects_unfold fuel e err he σ :
  endBatch_effects (S fuel) (Some e) err he σ
  = bind (getEffect e) (λ x,
      bind (drain_one fuel e (err, he))
        (λ acc', endBatch_effects fuel (Effect._nextEffect x) acc'.1 acc'.2)) σ.
Proof.
  engine_unfold. apply bind_ext_results. intros x σ0 _.
  unfold drain_one. rewrite bind_assoc. apply bind_ext_results; intros [] ? _.
  rewrite bind_assoc. apply bind_ext_results; intros [] ? _. reflexivity.
Qed.

(** The inner loop of [endBatch], which follows [_nextEffect], does what
    the specification says of the list of pending effects. *)
Lemma endBatch_effects_refines fuel h es err he σ :
  queue (effects σ) h es → 1 ≤ batchDepth σ →
  endBatch_effects fuel h err he σ = drain_list fuel es (err, he) σ.
Proof.
  revert h es err he σ. induction fuel as [|fuel IH]; [done|].
  intros h es err he σ Hq Hd. destruct es as [|e es].
  - simpl in Hq. subst h. reflexivity.
  - destruct Hq as (-> & Hnin & x & Hx & Hn & Hq). simpl drain_list.
    rewrite endBatch_effects_unfold.
    unfold bind at 1. rewrite (getEffect_Some _ _ _ Hx).
    apply bind_ext_results. intros [err' he'] σ1 H1. simpl.
    apply IH.
    + by eapply drain_one_keeps.
    + by destruct (drain_one_balanced _ _ _ _ _ _ H1 Hd) as [-> _].
Qed.

Lemma drain_list_result fuel es acc σ r σ' :
  drain_list fuel es acc σ = Done r σ' → 1 ≤ batchDepth σ →
  batchDepth σ' = batchDepth σ ∧ batchIteration σ' = batchIteration σ
  ∧ ∃ acc', r = Normal acc' ∧ (acc.2 = true → acc' = acc).
Proof.
  revert es acc σ. induction fuel as [|fuel IH]; [done|].
  intros es acc σ H Hd. simpl in H. destruct es as [|e es].
  - minv. split_and!; try done. eauto.
  - apply bind_Done in H as [(acc1 & σ1 & H1 & H)|(e0 & H1 & ?)].
    + pose proof (drain_one_balanced _ _ _ _ _ _ H1 Hd) as [Hd1 Hi1].
      apply drain_one_result in H1 as (σ0 & c & _ & Hr). injection Hr as ->.
      apply IH in H as (Hd2 & Hi2 & acc' & -> & Hacc); [|lia].
      split_and!; [lia|congruence|]. exists acc'. split; [done|].
      intros Ht. rewrite Hacc.
      * destruct c; [done|]. by rewrite Ht.
      * destruct c; [done|]. by rewrite Ht.
    + apply drain_one_result in H1 as (σ0 & c & _ & Hr). done.
Qed.

Lemma endBatch_effects_result fuel h err he σ r σ' :
  endBatch_effects fuel h err he σ = Done r σ' → 1 ≤ batchDepth σ →
  batchDepth σ' = batchDepth σ ∧ batchIteration σ' = batchIteration σ
  ∧ ∃ acc', r = Normal acc' ∧ (he = true → acc' = (err, he)).
Proof.
  revert h err he σ r σ'. induction fuel as [|fuel IH]; [done|].
  intros h err he σ r σ' H Hd. destruct h as [e|].
  - rewrite endBatch_effects_unfold in H.
    apply bind_Done in H as [(x & σ0 & Hx & H)|(e0 & Hx & ?)];
      apply getEffect_Done in Hx as (x' & Hx & ? & ?); simplify_eq.
    apply bind_Done in H as [(acc1 & σ1 & H1 & H)|(e0 & H1 & ?)].
    + pose proof (drain_one_balanced _ _ _ _ _ _ H1 Hd) as [Hd1 Hi1].
      apply drain_one_result in H1 as (σb & c & _ & Hr). injection Hr as ->.
      apply IH in H as (Hd2 & Hi2 & acc' & -> & Hacc); [|lia].
      split_and!; [lia|congruence|]. exists acc'. split; [done|].
      intros ->. destruct c; simpl in *; by apply Hacc.
    + by apply drain_one_result in H1 as (σb & c & _ & Hr).
  - engine_unfold in H. minv. split_and!; try done. eauto.
Qed.

(** The outer loop of [endBatch]: when the queue is empty, the counters are
    reset and the captured error, if there is one, is thrown. *)
Lemma endBatch_loop_end fuel err he σ :
  batchedEffect σ = None →
  endBatch_loop (S fuel) err he σ
  = Done (if he then Throws err else Normal tt)
         (set_batchDepth (batchDepth σ - 1) (set_batchIteration 0 σ)).
Proof.
  intros Hb. engine_unfold. unfold bind, get. rewrite Hb. by destruct he.
Qed.

(** The outer loop of [endBatch]: one pass over the pending effects. *)
Lemma endBatch_loop_pass fuel e es err he σ :
  batchedEffect σ = Some e → queue (effects σ) (Some e) es → 1 ≤ batchDepth σ →
  endBatch_loop (S fuel) err he σ
  = bind (drain_list fuel es (err, he)) (λ acc, endBatch_loop fuel acc.1 acc.2)
      (set_batchIteration (batchIteration σ + 1) (set_batchedEffect None σ)).
Proof.
  intros Hb Hq Hd. engine_unfold. unfold bind at 1, get. rewrite Hb.
  unfold bind at 1, modify. unfold bind at 1. simpl.
  unfold bind. by rewrite (endBatch_effects_refines _ _ es).
Qed.

Lemma endBatch_loop_result fuel err he σ r σ' :
  endBatch_loop fuel err he σ = Done r σ' → 1 ≤ batchDepth σ →
  batchedEffect σ' = None ∧ batchIteration σ' = 0
  ∧ batchDepth σ' = batchDepth σ - 1
  ∧ (he = true → r = Throws err)
  ∧ (r = Normal tt ∨ ∃ error, r = Throws error).
Proof.
  revert err he σ r σ'. induction fuel as [|fuel IH]; [done|].
  intros err he σ r σ' H Hd. destruct (batchedEffect σ) as [e|] eqn:Hb.
  - engine_unfold in H. unfold bind at 1, get in H. rewrite Hb in H.
    unfold bind at 1, modify in H. unfold bind at 1 in H.
    apply bind_Done in H as [(acc1 & σ1 & H1 & H)|(e0 & H1 & ?)];
      apply endBatch_effects_result in H1 as (Hd1 & Hi1 & acc' & Hr & Hacc);
      try (simpl; lia); simplify_eq.
    apply IH in H as (? & ? & ? & Hhe & ?); [|simpl in *; lia].
    split_and!; try done; [simpl in *; lia|].
    intros ->. specialize (Hacc eq_refl). subst acc'. by apply Hhe.
  - rewrite endBatch_loop_end in H by done. simplify_eq. simpl.
    split_and!; try done.
    + by intros ->.
    + destruct he; eauto.
Qed.

(** While one effect has its turn, the queue of the next pass only grows,
    and not by an effect that is still waiting for its turn. *)
Lemma drain_one_queue fuel e acc σ r σ' new :
  drain_one fuel e acc σ = Done r σ' → 1 ≤ batchDepth σ →
  e ∉ new → queue (effects σ) (batchedEffect σ) new →
  ∃ added, queue (effects σ') (batchedEffect σ') (added ++ new)
    ∧ ∀ e' x, e' ≠ e → effects σ !! e' = Some x →
        has_flag (Effect._flags x) NOTIFIED = true → e' ∉ added.
Proof.
  intros H Hd Hnin Hq. unfold drain_one in H. minv.
  all: match goal with H : Effect_callback _ _ _ = Done _ _ |- _ =>
         apply balanced_callback in H; destruct H as (_ & _ & _ & Hg); [simpl; lia|] end.
  all: try (match goal with H : (if ?b then _ else _) _ = Done _ _ |- _ =>
              destruct b; minv end).
  all: destruct (Hg new) as (added & Hq' & Hu);
    [simpl; apply queue_insert_other; [done|]; by apply queue_insert_other|].
  all: exists added; split; [done|].
  all: intros e' x' Hne Hx' Hn' Hin.
  all: rewrite Forall_forall in Hu; specialize (Hu _ Hin x'); simpl in Hu.
  all: rewrite !list_lookup_insert_ne in Hu by done.
  all: specialize (Hu Hx'); congruence.
Qed.

(** After a pass over the pending effects [es], the effects enqueued in the
    meantime form a queue again. *)
Lemma drain_list_queue fuel es acc σ r σ' h new :
  drain_list fuel es acc σ = Done r σ' → 1 ≤ batchDepth σ →
  queue (effects σ) h es → queue (effects σ) (batchedEffect σ) new →
  (∀ e, e ∈ es → e ∉ new) →
  ∃ new', queue (effects σ') (batchedEffect σ') new'.
Proof.
  revert es acc σ r σ' h new. induction fuel as [|fuel IH]; [done|].
  intros es acc σ r σ' h new H Hd Hes Hnew Hdisj. simpl in H. destruct es as [|e es].
  - minv. eauto.
  - destruct Hes as (-> & Hnin & x & Hx & Hn & Hes).
    apply bind_Done in H as [(acc1 & σ1 & H1 & H)|(e0 & H1 & ?)].
    + pose proof (drain_one_balanced _ _ _ _ _ _ H1 Hd) as [Hd1 _].
      pose proof (drain_one_keeps _ _ _ _ _ _ _ _ Hnin Hes Hd H1) as Hes1.
      destruct (drain_one_queue _ _ _ _ _ _ new H1 Hd) as (added & Hq1 & Hadd);
        [apply Hdisj; left|done|].
      eapply (IH es acc1 σ1 r σ' _ (added ++ new)); [done|lia|done|done|].
      intros e' Hin. rewrite elem_of_app. intros [Hin'|Hin'].
      * destruct (queue_notified _ _ _ _ Hes Hin) as (x' & Hx' & Hn').
        eapply Hadd; [|done|done|done]. intros ->. done.
      * eapply Hdisj; [|done]. by right.
    + by apply drain_one_result in H1 as (σb & c & _ & Hr).
Qed.

(** The pending effects, read off [batchedEffect] and [_nextEffect]. *)
Fixpoint pending (n : nat) (effs : list Effect.t) (h : option nat) : list nat :=
  match n, h with
  | S n', Some e =>
      e :: match effs !! e with
           | Some x => pending n' effs (Effect._nextEffect x)
           | None => []
           end
  | _, _ => []
  end.

(** Draining in the words of the specification: take the current list and
    clear the global pointer, increment [batchIteration], give every effect
    of the list its turn, and repeat while effects were enqueued; when
    drained, reset [batchIteration], decrement [batchDepth] and rethrow the
    first captured error, if any. *)
Fixpoint drain (fuel : nat) (acc : value * bool) : M unit :=
  match fuel with
  | O => out_of_fuel
  | S fuel' =>
      let* es := get (λ σ, pending (length (effects σ)) (effects σ) (batchedEffect σ)) in
      match es with
      | _ :: _ =>
          let* _ := modify (set_batchedEffect None) in
          let* _ := modify (λ σ, set_batchIteration (σ.(batchIteration) + 1) σ) in
          let* acc' := drain_list fuel' es acc in
          drain fuel' acc'
      | [] =>
          let* _ := modify (set_batchIteration 0) in
          let* _ := modify (λ σ, set_batchDepth (σ.(batchDepth) - 1) σ) in
          if acc.2 then throw acc.1 else ret tt
      end
  end.

Lemma queue_NoDup effs h es : queue effs h es → NoDup es.
Proof.
  revert h. induction es as [|e es IH]; intros h Hq; [constructor|].
  destruct Hq as (-> & Hnin & x & Hx & Hn & Hq). constructor; eauto.
Qed.

Lemma queue_length effs h es : queue effs h es → (length es ≤ length effs)%nat.
Proof.
  intros Hq. replace (length effs) with (length (seq 0 (length effs))) at 1
    by apply length_seq.
  apply submseteq_length, NoDup_submseteq; [by eapply queue_NoDup|].
  intros e Hin. destruct (queue_notified _ _ _ _ Hq Hin) as (x & Hx & _).
  apply elem_of_seq. apply lookup_lt_Some in Hx. lia.
Qed.

Lemma queue_pending n effs h es :
  queue effs h es → (length es ≤ n)%nat → pending n effs h = es.
Proof.
  revert h es. induction n as [|n IH]; intros h es Hq Hlen.
  - destruct es; [|simpl in Hlen; lia]. by destruct h.
  - destruct es as [|e es].
    + simpl in Hq. by subst h.
    + destruct Hq as (-> & Hnin & x & Hx & Hn & Hq). simpl. rewrite Hx.
      f_equal. apply IH; [done|]. simpl in Hlen. lia.
Qed.

Lemma bind_modify {A} (f : State → State) (k : unit → M A) σ :
  bind (modify f) k σ = k tt (f σ).
Proof. reflexivity. Qed.

(** The outer loop of [endBatch] drains as the specification says. *)
Lemma endBatch_loop_refines fuel err he σ es :
  queue (effects σ) (batchedEffect σ) es → 1 ≤ batchDepth σ →
  endBatch_loop fuel err he σ = drain fuel (err, he) σ.
Proof.
  revert err he σ es. induction fuel as [|fuel IH]; [done|].
  intros err he σ es Hq Hd. simpl drain. unfold bind at 1, get.
  rewrite (queue_pending _ _ _ es) by (done || by eapply queue_length).
  destruct es as [|e es].
  - simpl in Hq. rewrite endBatch_loop_end by done. by destruct he.
  - pose proof Hq as (Hb & _). rewrite (endBatch_loop_pass _ e (e :: es)) by congruence.
    rewrite bind_modify. cbv beta. rewrite bind_modify. cbv beta.
    apply bind_ext_results. intros [err' he'] σ1 H1. simpl.
    pose proof (drain_list_result _ _ _ _ _ _ H1) as (Hd1 & _); [simpl; lia|].
    destruct (drain_list_queue _ _ _ _ _ _ (Some e) [] H1) as (new' & Hnew);
      [simpl; lia|by rewrite <- Hb|done|by intros ? _ ?%elem_of_nil|].
    apply (IH _ _ _ new'); [done|simpl in Hd1; lia].
Qed.

Lemma endBatch_outermost fuel σ :
  batchDepth σ ≤ 1 → endBatch (S fuel) σ = endBatch_loop fuel VUndefined false σ.
Proof.
  intros Hd. engine_unfold. unfold bind, get.
  by destruct (Z.ltb_spec 1 (batchDepth σ)); [lia|].
Qed.

(** C7. When the outermost batch ends with a well-formed queue of pending
    effects, [endBatch] drains as the specification says ([drain]): every
    effect of a pass gets its turn ([drain_list]), a turn whose callback
    throws ends normally with the error captured if it is the first
    ([drain_one]), and a captured error stays through the later turns; when
    [endBatch] returns or throws, the queue is empty, [batchIteration] is 0,
    [batchDepth] has been decremented, and the outcome is the captured
    error, thrown, or a normal return. *)
Theorem endBatch_drain fuel σ es :
  batchDepth σ = 1 → queue (effects σ) (batchedEffect σ) es →
  endBatch (S fuel) σ = drain fuel (VUndefined, false) σ
  ∧ (∀ e acc σ0 r σ1, drain_one fuel e acc σ0 = Done r σ1 →
       ∃ σb c, Effect_callback fuel e σb = Done c σ1
         ∧ r = Normal (match c with
                       | Normal _ => acc
                       | Throws err => if acc.2 then acc else (err, true)
                       end))
  ∧ (∀ es0 acc σ0 r σ1, drain_list fuel es0 acc σ0 = Done r σ1 → 1 ≤ batchDepth σ0 →
       ∃ acc', r = Normal acc' ∧ (acc.2 = true → acc' = acc))
  ∧ (∀ r σ', endBatch (S fuel) σ = Done r σ' →
       batchedEffect σ' = None ∧ batchIteration σ' = 0 ∧ batchDepth σ' = 0
       ∧ (r = Normal tt ∨ ∃ error, r = Throws error)).
Proof.
  intros Hd Hq. rewrite endBatch_outermost by lia. split_and!.
  - apply (endBatch_loop_refines _ _ _ _ es); [done|lia].
  - intros e acc σ0 r σ1. apply drain_one_result.
  - intros es0 acc σ0 r σ1 H Hd0.
    by destruct (drain_list_result _ _ _ _ _ _ H Hd0) as (_ & _ & ?).
  - intros r σ' H. apply endBatch_loop_result in H as (? & ? & ? & _ & ?); [|lia].
    split_and!; try done. lia.
Qed.

(** Three effects on one source; the first two throw when the source is
    not 0. *)
Definition failing (s : nat) (msg : string) : prog :=
  GetValue s (λ v,
    if bool_decide (v = VNum 0) then Ret VUndefined else Throw (VStr msg)).

(** The state in which the write [s.value = 1] calls [endBatch]: the three
    effects have been notified and are pending in the order of creation. *)
Definition drain_state : State :=
  state_of (let* s := signal (VNum 0) in
            let* _ := effect 20 (failing s "first") in
            let* _ := effect 20 (failing s "second") in
            let* _ := effect 20 (GetValue s (λ _, Ret VUndefined)) in
            let* _ := modSignal s (Signal.set_value (VNum 1)) in
            let* _ := modSignal s (λ x, Signal.set_version (x.(Signal._version) + 1) x) in
            let* _ := modify (λ σ, set_globalVersion (σ.(globalVersion) + 1) σ) in
            let* _ := startBatch in
            let* this := getSignal s in
            notify_targets 10 this.(Signal._targets)).

Definition is_run (ev : event) : bool :=
  match ev with EvEffect _ => true | _ => false end.

(** [queue] as a test. *)
Fixpoint queueb (effs : list Effect.t) (h : option nat) (es : list nat) : bool :=
  match es with
  | [] => bool_decide (h = None)
  | e :: es' =>
      bool_decide (h = Some e) && bool_decide (e ∉ es')
      && match effs !! e with
         | Some x => has_flag (Effect._flags x) NOTIFIED
                     && queueb effs (Effect._nextEffect x) es'
         | None => false
         end
  end.

Lemma queueb_queue effs h es : queueb effs h es = true → queue effs h es.
Proof.
  revert h. induction es as [|e es IH]; intros h H; simpl in *.
  - by apply bool_decide_eq_true in H.
  - destruct (effs !! e) as [x|] eqn:Hx; [|by rewrite andb_false_r in H].
    apply andb_true_iff in H as [H [Hn Hq]%andb_true_iff].
    apply andb_true_iff in H as [Hh Hnin].
    apply bool_decide_eq_true in Hh. apply bool_decide_eq_true in Hnin.
    split; [done|]. split; [done|]. exists x. split_and!; try done. by apply IH.
Qed.

Lemma endBatch_drain_witness :
  ∃ σ', endBatch 60 drain_state = Done (Throws (VStr "first")) σ'
        ∧ drain 59 (VUndefined, false) drain_state = Done (Throws (VStr "first")) σ'
        ∧ filter is_run (log σ')
          = filter is_run (log drain_state) ++ [EvEffect 0; EvEffect 1; EvEffect 2]
        ∧ batchIteration σ' = 0 ∧ batchDepth σ' = 0.
Proof.
  destruct (endBatch_drain 59 drain_state [0; 1; 2]%nat) as (Href & _ & _ & Hend).
  - reflexivity.
  - apply queueb_queue. vm_compute. reflexivity.
  - eexists. split; [vm_compute; reflexivity|]. rewrite <- Href.
    split; [vm_compute; reflexivity|]. split; [vm_compute; reflexivity|].
    split; reflexivity.
Defined.


(** ** Effect feedback loops *)





(** The number of times the body of an effect has been entered. *)
Definition runs (σ : State) : nat := length (filter is_run (log σ)).




(** ** The list of sources (C1, C2) *)

(** The sources read off a list head: the signal of each node, following
    [nextSignal] for at most [n] nodes. *)
Fixpoint walk (n : nat) (nds : list Node.t) (h : option nat) : list nat :=
  match n, h with
  | S n', Some i =>
      match nds !! i with
      | Some nd => Node.signal nd :: walk n' nds (Node.nextSignal nd)
      | None => []
      end
  | _, _ => []
  end.

Definition computed_sources (σ : State) (c : nat) : option nat :=
  match signals σ !! c with
  | Some x =>
      match Signal.computed x with
      | Some y => Computed._sources y
      | None => None
      end
  | None => None
  end.

(** Two nodes whose [nextSignal] point at each other. *)
Definition two_cycle (σ : State) (n m : nat) : Prop :=
  ∃ nd md, nodes σ !! n = Some nd ∧ Node.nextSignal nd = Some m
           ∧ nodes σ !! m = Some md ∧ Node.nextSignal md = Some n.

(** On a cyclic list the loop of [prepareSources] does not end. *)
Lemma prepareSources_loop_cycle fuel n m σ r σ' :
  two_cycle σ n m → prepareSources_loop fuel (Some n) σ ≠ Done r σ'.
Proof.
  revert n m σ. induction fuel as [|fuel IH]; [done|].
  intros n m σ (nd & md & Hn & Hnext & Hm & Hmnext) H. simpl in H.
  apply bind_Done in H as [(nd0 & σ0 & H0 & H)|(? & H0 & ?)];
    apply getNode_Done in H0 as (? & ? & ? & ?); simplify_eq.
  apply bind_Done in H as [(sg0 & σ0 & H0 & H)|(? & H0 & ?)];
    apply getSignal_Done in H0 as (sg & Hsg & ? & ?); simplify_eq.
  apply bind_Done in H as [([] & σ1 & H1 & H)|(? & H1 & ?)]; last first.
  { destruct (Signal._node sg); minv. }
  assert (∃ nd1, nodes σ1 !! n = Some nd1 ∧ Node.nextSignal nd1 = Some m
                 ∧ ∀ k, k ≠ n → nodes σ1 !! k = nodes σ !! k) as (nd1 & Hn1 & Hnext1 & Hframe1).
  { destruct (Signal._node sg); minv.
    - eexists. split; [by eapply lookup_insert_same|]. split; [done|].
      intros k Hk. simpl. by rewrite list_lookup_insert_ne.
    - eauto. }
  minv.
  match goal with H : <[n := ?x]> _ !! n = Some ?y |- _ =>
    assert (y = x) as -> by (erewrite lookup_insert_same in H by done; congruence) end.
  match goal with H : prepareSources_loop _ _ _ = Done _ _ |- _ =>
    simpl in H; rewrite Hnext1 in H; apply (IH m n) in H; [done|] end.
  simpl. destruct (decide (m = n)) as [->|Hne].
  - eexists _, _. split_and!; try (by eapply lookup_insert_same); simpl; congruence.
  - exists md. eexists. split_and!.
    + simpl. rewrite list_lookup_insert_ne by done. by rewrite Hframe1.
    + done.
    + simpl. by eapply lookup_insert_same.
    + simpl. congruence.
Qed.

(** A computed whose list of sources is cyclic cannot be recomputed. *)
Lemma Computed_recompute_cycle fuel c σ x y n m r σ' :
  signals σ !! c = Some x → Signal.computed x = Some y →
  Computed._sources y = Some n → two_cycle σ n m →
  Computed_recompute fuel c σ ≠ Done r σ'.
Proof.
  intros Hx Hy Hn Hcyc H. destruct fuel as [|fuel]; [done|].
  engine_unfold in H. unfold prepareSources in H. minv.
  all: match goal with
       | H : prepareSources_loop _ _ _ = Done _ _ |- _ =>
           rewrite Hn in H; eapply prepareSources_loop_cycle in H; [done|exact Hcyc]
       end.
Qed.

(** [() => f.peek() ? a.value : (c.value, a.value)]: when [f] is false the
    formula reads the new dependency [c] before [a]. *)
Definition toggled (f a c : nat) : prog :=
  PeekValue f (λ fv,
    if bool_decide (fv = VBool true) then GetValue a (λ v, Ret v)
    else GetValue c (λ _, GetValue a (λ v, Ret v))).

(** The computed [toggled] is evaluated with [f] true, then [f] is set to
    false and [a] to 5, and the computed is read again. *)
Definition reorder_run : M value :=
  let* f := signal (VBool true) in
  let* a := signal (VNum 1) in
  let* c := signal (VNum 2) in
  let* d := computed (toggled f a c) in
  let* _ := peek 30 d in
  let* _ := set_value 30 f (VBool false) in
  let* _ := set_value 30 a (VNum 5) in
  peek 30 d.

Definition reorder_state : State := state_of reorder_run.

(** C2 fails in the code. The second evaluation of [toggled] reads [c],
    a new dependency, and then [a], the head of the list of the first
    evaluation: the new node is put in front of the node of [a] without
    [prevSignal] of the latter being set, so that moving the node of [a] to
    the front leaves the new node pointing at it. After the evaluation the
    list of sources is the cycle [a, c, a, c, ...] instead of [c, a], and the
    computed cannot be recomputed any more: the loop of [prepareSources] does
    not end. *)
Theorem reordered_read_cycle :
  reorder_run init = Done (Normal (VNum 5)) reorder_state
  ∧ computed_sources reorder_state 3 = Some 0%nat
  ∧ walk 5 (nodes reorder_state) (Some 0%nat) = [1; 2; 1; 2; 1]%nat
  ∧ two_cycle reorder_state 0 1
  ∧ (∀ fuel r σ', Computed_recompute fuel 3 reorder_state ≠ Done r σ')
  ∧ (let* _ := set_value 30 1 (VNum 6) in peek 2000 3) reorder_state = OutOfFuel.
Proof.
  assert (two_cycle reorder_state 0 1) as Hcyc.
  { eexists _, _. split_and!; vm_compute; reflexivity. }
  split_and!; try (vm_compute; reflexivity); [done|].
  intros fuel r σ'.
  by eapply (Computed_recompute_cycle _ _ _ _ _ 0%nat 1%nat).
Qed.





(** * The list of sources of an evaluator *)

(** ** Bookkeeping of targets keeps the lists of sources *)

(** The fields of a node that make the lists of sources. *)
Definition src_node (nd : Node.t) : nat * option nat * option nat * Target * bool * option nat :=
  (Node.signal nd, Node.prevSignal nd, Node.nextSignal nd, Node.target nd,
   Node.used nd, Node.rollbackNode nd).

Definition src_signal (x : Signal.t) : option nat * option (option nat) :=
  (Signal._node x, Computed._sources <$> Signal.computed x).

(** The part of the state that the lists of sources are made of. *)
Definition lists (σ : State)
  : list (nat * option nat * option nat * Target * bool * option nat)
    * list (option nat * option (option nat)) * list (option nat) :=
  (src_node <$> nodes σ, src_signal <$> signals σ, Effect._sources <$> effects σ).

(** The lists of sources, the log and the evaluation context. *)
Definition edges (σ : State) := (lists σ, log σ, evalContext σ).

Lemma edges_upd_node σ n nd' :
  src_node <$> nodes σ !! n = Some (src_node nd') →
  edges (upd_nodes (λ l, <[n := nd']> l) σ) = edges σ.
Proof.
  intros H. unfold edges, lists. simpl. rewrite list_fmap_insert.
  rewrite list_insert_id; [done|]. by rewrite list_lookup_fmap.
Qed.

Lemma edges_upd_signal σ s x' :
  src_signal <$> signals σ !! s = Some (src_signal x') →
  edges (upd_signals (λ l, <[s := x']> l) σ) = edges σ.
Proof.
  intros H. unfold edges, lists. simpl. rewrite list_fmap_insert.
  rewrite list_insert_id; [done|]. by rewrite list_lookup_fmap.
Qed.


Ltac edges_side :=
  simpl;
  match goal with
  | H : ?l !! ?n = Some _ |- _ <$> ?l !! ?n = Some _ =>
      rewrite H; unfold src_signal, src_node, Signal.map_computed; simpl;
      repeat match goal with
             | Hc : Signal.computed ?x = _ |- context [Signal.computed ?x] => rewrite Hc
             end;
      done
  end.
Ltac edges_step :=
  first [ rewrite edges_upd_node by edges_side
        | rewrite edges_upd_signal by edges_side ].
Ltac edges_chain := repeat edges_step; try done.








(** ** Lists of sources as lists of nodes *)

(** A field of the node [n] of an arena. *)
Definition nfield {A} (f : Node.t → A) (nds : list Node.t) (n : nat) : option A :=
  f <$> nds !! n.

Definition nnext (nds : list Node.t) (n : nat) : option nat :=
  mjoin (nfield Node.nextSignal nds n).
Definition nprev (nds : list Node.t) (n : nat) : option nat :=
  mjoin (nfield Node.prevSignal nds n).

(** [signal._node] *)
Definition snode (sgs : list Signal.t) (s : nat) : option nat :=
  mjoin (Signal._node <$> sgs !! s).

(** [sseg nds h l t]: following [nextSignal] from [h] visits the nodes [l]
    and arrives at [t]. *)
Fixpoint sseg (nds : list Node.t) (h : option nat) (l : list nat) (t : option nat) : Prop :=
  match l with
  | [] => h = t
  | n :: l' => h = Some n ∧ sseg nds (nnext nds n) l' t
  end.








(** ** Lists of nodes *)



Lemma sseg_head nds h l t n : sseg nds h (n :: l) t → h = Some n.
Proof. by intros [-> _]. Qed.

Lemma sseg_head' nds h l : sseg nds h l None → h = head l.
Proof. destruct l; simpl; [done|]. by intros [-> _]. Qed.



Lemma nfield_insert_keep {A} (f : Node.t → A) nds a x nd' m :
  nds !! a = Some x → f nd' = f x →
  nfield f (<[a := nd']> nds) m = nfield f nds m.
Proof.
  intros Ha Hf. unfold nfield. destruct (decide (m = a)) as [->|Hne].
  - rewrite list_lookup_insert_eq by (by eapply lookup_lt_Some). rewrite Ha. simpl.
    by rewrite Hf.
  - by rewrite list_lookup_insert_ne.
Qed.

Lemma nfield_insert_set {A} (f : Node.t → A) nds a x nd' m :
  nds !! a = Some x →
  nfield f (<[a := nd']> nds) m
  = if decide (m = a) then Some (f nd') else nfield f nds m.
Proof.
  intros Ha. unfold nfield. destruct (decide (m = a)) as [->|Hne].
  - by rewrite list_lookup_insert_eq by (by eapply lookup_lt_Some).
  - by rewrite list_lookup_insert_ne.
Qed.

Lemma nfield_app {A} (f : Node.t → A) nds nd m :
  nfield f (nds ++ [nd]) m
  = if decide (m = length nds) then Some (f nd) else nfield f nds m.
Proof.
  unfold nfield. destruct (decide (m = length nds)) as [->|Hne].
  - by rewrite list_lookup_middle.
  - destruct (decide (m < length nds)%nat).
    + by rewrite lookup_app_l.
    + rewrite !lookup_ge_None_2; [done|lia|]. rewrite length_app. simpl. lia.
Qed.

Lemma snode_insert_keep sgs a x x' s :
  sgs !! a = Some x → Signal._node x' = Signal._node x →
  snode (<[a := x']> sgs) s = snode sgs s.
Proof.
  intros Ha Hf. unfold snode. destruct (decide (s = a)) as [->|Hne].
  - rewrite list_lookup_insert_eq by (by eapply lookup_lt_Some). rewrite Ha. simpl.
    by rewrite Hf.
  - by rewrite list_lookup_insert_ne.
Qed.

Lemma snode_insert_set sgs a x x' s :
  sgs !! a = Some x →
  snode (<[a := x']> sgs) s = if decide (s = a) then Signal._node x' else snode sgs s.
Proof.
  intros Ha. unfold snode. destruct (decide (s = a)) as [->|Hne].
  - by rewrite list_lookup_insert_eq by (by eapply lookup_lt_Some).
  - by rewrite list_lookup_insert_ne.
Qed.


(** ** Reads *)







(** ** States with the same lists of sources *)

Lemma lists_node σ σ' n nd' :
  lists σ' = lists σ → nodes σ' !! n = Some nd' →
  ∃ nd, nodes σ !! n = Some nd ∧ src_node nd = src_node nd'.
Proof.
  intros He Hn. injection He as He _ _.
  assert ((src_node <$> nodes σ) !! n = Some (src_node nd')) as H.
  { rewrite <- He, list_lookup_fmap, Hn. done. }
  rewrite list_lookup_fmap in H. destruct (nodes σ !! n) as [nd|]; [|done].
  exists nd. split; [done|]. simpl in H. congruence.
Qed.















Lemma edges_evalContext σ σ' : edges σ' = edges σ → evalContext σ' = evalContext σ.
Proof. unfold edges. congruence. Qed.

(** ** Moving a node to the front *)


(** Rewrites the fields of a node of an updated arena in terms of the
    arena before the update. *)
Ltac arena_step :=
  first
    [ erewrite nfield_insert_keep by (first [eassumption|reflexivity])
    | erewrite nfield_insert_set by eassumption
    | erewrite snode_insert_keep by (first [eassumption|reflexivity])
    | erewrite snode_insert_set by eassumption
    | rewrite nfield_app ].
Ltac arena := unfold nnext, nprev; simpl; repeat arena_step; simpl.











(** ** A tracked read keeps the list well-formed *)











(** A field of the nodes that an update of the state leaves alone. *)
Ltac same_field H := intros; rewrite H; arena; repeat case_decide; simplify_eq; done.





Lemma last_app_ne {A} (l1 l2 : list A) : l2 ≠ [] → last (l1 ++ l2) = last l2.
Proof.
  intros H. destruct l2 as [|x l2 _] using rev_ind; [done|].
  by rewrite app_assoc, !last_snoc.
Qed.


(** ** The tracked read *)



(** ** [prepareSources] *)









(** ** [cleanupSources] *)













(** ** Bodies that read plain signals *)














(** ** One evaluation *)







Lemma Computed_store_edges c v b σ r σ' :
  Computed_store c v b σ = Done r σ' → edges σ' = edges σ.
Proof.
  unfold Computed_store. intros H. minv_case; edges_chain.
Qed.

Lemma returnComputed_edges c σ r σ' :
  returnComputed c σ = Done r σ' → edges σ' = edges σ.
Proof.
  unfold returnComputed. intros H. minv_case; edges_chain.
Qed.





(** ** The evaluation of an effect *)







(** ** The order of the list of sources after an evaluation *)















(** * Writes, reads and recomputations *)

(** The state in which [m] leaves [σ]. *)
Definition state_after {A} (m : M A) (σ : State) : State :=
  match m σ with
  | Done _ σ' => σ'
  | _ => σ
  end.

(** ** The write guard of a source *)

(** A source that holds NaN, in the 101st pass of a drain. *)
Definition nan_guard_state : State :=
  mkState [Signal.mk VNaN 0 None None None] [] [] None None 1 101 0 0%nat [].

(** An effect that writes NaN to [s] whenever [t] is not 0. *)
Definition nan_writer (t s : nat) : prog :=
  GetValue t (λ tv, GetValue s (λ _,
    if bool_decide (tv = VNum 0) then Ret VUndefined
    else SetValue s VNaN (Ret VUndefined))).

Definition nan_loop_state : State :=
  state_of (let* t := signal (VNum 0) in
            let* s := signal VNaN in
            effect 30 (nan_writer t s)).

(** C9 as stated fails for NaN: the stored value is NaN and the value
    written is NaN, and the write raises cycle-detected at the guard, since
    [NaN !== NaN].  The state is reached by an effect that keeps writing NaN
    to a source it reads: the write in the 101st pass of the drain throws,
    with NaN stored all along. *)
Lemma stored_nan_write_counterexample :
  Signal._value <$> signals nan_guard_state !! 0%nat = Some VNaN
  ∧ set_value 1 0 VNaN nan_guard_state
    = Done (Throws (VError 0 "Cycle detected")) (set_errorSerial 1 nan_guard_state)
  ∧ Signal._value <$> signals nan_loop_state !! 1%nat = Some VNaN
  ∧ set_value 150 0 (VNum 1) nan_loop_state
    = Done (Throws (VError 0 "Cycle detected"))
        (state_after (set_value 150 0 (VNum 1)) nan_loop_state)
  ∧ Signal._value <$> signals (state_after (set_value 150 0 (VNum 1)) nan_loop_state) !! 1%nat
    = Some VNaN.
Proof. split_and!; vm_compute; reflexivity. Qed.

(** C9, amended.  When the setter of a source raises cycle-detected at its
    guard (the new value differs from the stored one by [!==], which NaN
    always does, and [batchIteration > 100]), nothing has been mutated: the
    stored value, the version, [globalVersion], the edges, the effect queue
    and the log of notifications are as before.  Writing a value that is
    identical to the stored one and is not NaN returns normally and leaves
    the state as it is, whatever [batchIteration] holds; writing NaN over a
    stored NaN is a write of a differing value and raises at the guard. *)
Theorem write_guard_mutates_nothing (fuel : nat) (σ : State) (s : nat) (x : Signal.t) :
  is_source σ s x →
  (∀ v, v ≠ Signal._value x ∨ v = VNaN → 100 < batchIteration σ →
     ∃ σ', set_value (S fuel) s v σ
             = Done (Throws (VError (errorSerial σ) "Cycle detected")) σ'
       ∧ signals σ' = signals σ ∧ globalVersion σ' = globalVersion σ
       ∧ nodes σ' = nodes σ ∧ effects σ' = effects σ
       ∧ batchedEffect σ' = batchedEffect σ ∧ batchDepth σ' = batchDepth σ
       ∧ batchIteration σ' = batchIteration σ ∧ evalContext σ' = evalContext σ
       ∧ log σ' = log σ)
  ∧ (Signal._value x ≠ VNaN →
     set_value (S fuel) s (Signal._value x) σ = Done (Normal tt) σ)
  ∧ (Signal._value x = VNaN → 100 < batchIteration σ →
     set_value (S fuel) s (Signal._value x) σ
     = Done (Throws (VError (errorSerial σ) "Cycle detected"))
         (set_errorSerial (S (errorSerial σ)) σ)).
Proof.
  intros Hs. split_and!.
  - intros v Hv Hbi. apply strict_neq_true in Hv. eexists.
    split; [by apply (set_value_guard _ _ _ x)|]. by split_and!.
  - intros Hv. apply (set_value_same _ _ _ x); [done|]. by apply strict_neq_same.
  - intros Hv Hbi. apply (set_value_guard _ _ _ x); [done| |done].
    apply strict_neq_true. by right.
Qed.

Definition guard_state : State :=
  mkState [Signal.mk (VNum 0) 0 None None None] [] [] None None 1 101 0 0%nat [].

Lemma write_guard_mutates_nothing_witness :
  (∃ σ', set_value 1 0 (VNum 1) guard_state
           = Done (Throws (VError 0 "Cycle detected")) σ'
       ∧ signals σ' = signals guard_state)
  ∧ set_value 1 0 (VNum 0) guard_state = Done (Normal tt) guard_state.
Proof.
  destruct (write_guard_mutates_nothing 0 guard_state 0
              (Signal.mk (VNum 0) 0 None None None)) as (H1 & H2 & _).
  - split; reflexivity.
  - split; [|by apply H2].
    destruct (H1 (VNum 1)) as (σ' & Hr & Hsig & _); [by left|reflexivity|].
    exists σ'. split; [exact Hr|exact Hsig].
Defined.

(** ** The version recorded by a tracked read *)

(** [() => { s.value; s.value = 1; return s.value }] *)
Definition read_write_read (s : nat) : prog :=
  GetValue s (λ _, SetValue s (VNum 1) (GetValue s (λ v, Ret v))).

Definition read_write_read_state : State :=
  state_of (let* s := signal (VNum 0) in
            let* d := computed (read_write_read s) in
            peek 30 d).

(** C10 as stated fails for a repeated read: the formula reads [s], writes
    it, and reads it again; the second read selects no edge, so that after
    the evaluation the edge still holds version 0 while the source is at
    version 1. *)
Lemma repeated_read_counterexample :
  (let* s := signal (VNum 0) in
   let* d := computed (read_write_read s) in
   peek 30 d) init = Done (Normal (VNum 1)) read_write_read_state
  ∧ Node.signal <$> nodes read_write_read_state !! 0%nat = Some 0%nat
  ∧ Node.target <$> nodes read_write_read_state !! 0%nat = Some (TComputed 1)
  ∧ Node.version <$> nodes read_write_read_state !! 0%nat = Some 0
  ∧ Signal._version <$> signals read_write_read_state !! 0%nat = Some 1.
Proof. split_and!; vm_compute; reflexivity. Qed.

(** The read selects no edge exactly when the source's [_node] is an edge
    of the evaluator that is marked as used. *)
Definition used_edge (σ : State) (t : Target) (s : nat) : Prop :=
  ∃ x n nd, signals σ !! s = Some x ∧ Signal._node x = Some n
            ∧ nodes σ !! n = Some nd ∧ Node.target nd = t ∧ Node.used nd = true.

Lemma getValue_track_None fuel t s σ r σ' :
  getValue_track fuel t s σ = Done r σ' → r = Normal None ↔ used_edge σ t s.
Proof.
  intros H. unfold getValue_track in H.
  apply bind_Done in H as [(u & σ0 & Hm & H)|(u & Hm & _)];
    apply modify_Done in Hm as [Hu ->]; [|done].
  apply bind_Done in H as [(x & σ1 & Hx & H)|(e0 & Hx & _)];
    apply getSignal_Done in Hx as (x' & Hx & ? & ->); simplify_eq.
  unfold used_edge. simpl in Hx.
  destruct (Signal._node x') as [n|] eqn:Hn.
  - apply bind_Done in H as [(b & σ1 & Hb & H)|(? & Hb & _)].
    + apply bind_Done in Hb as [(nd & σ2 & Hnd & Hb)|(? & Hnd & _)];
        apply getNode_Done in Hnd as (nd' & Hnd & ? & ->); simplify_eq.
      apply ret_Done in Hb as [[= ->] ->]. simpl in Hnd.
      destruct (decide (Node.target nd' = t)) as [Ht|Ht].
      * rewrite bool_decide_eq_false_2 in H by (by intros ?).
        apply bind_Done in H as [(nd & σ2 & Hnd2 & H)|(? & Hnd2 & _)];
          apply getNode_Done in Hnd2 as (nd2 & Hnd2 & ? & ->); simplify_eq.
        destruct (Node.used nd2) eqn:Hu; simpl in H.
        -- apply ret_Done in H as [-> _]. split; [|done]. intros _.
           simpl in *. exists x', n, nd2. split_and!; try done. congruence.
        -- split.
           ++ intros ->. minv_case.
           ++ intros (x0 & n0 & nd0 & ? & ? & ? & ? & ?). simpl in *. simplify_eq. congruence.
      * rewrite bool_decide_eq_true_2 in H by done. split.
        -- intros ->. minv_case.
        -- intros (x0 & n0 & nd0 & ? & ? & ? & ? & ?). simpl in *. simplify_eq.
    + apply bind_Done in Hb as [(nd & σ2 & Hnd & Hb)|(? & Hnd & _)];
        apply getNode_Done in Hnd as (nd' & Hnd & ? & ->); simplify_eq.
      all: try by apply ret_Done in Hb as [? _].
  - split.
    + intros ->. minv_case.
    + intros (x0 & n0 & nd0 & ? & ? & ? & ? & ?). simplify_eq.
Qed.

(** The edge that a tracked read selects exists. *)
Lemma getValue_track_node fuel t s σ n σ' :
  getValue_track fuel t s σ = Done (Normal (Some n)) σ' → is_Some (nodes σ' !! n).
Proof.
  unfold getValue_track. intros H. minv_case.
  all: repeat match goal with
       | H : target_set_sources _ _ _ = Done _ _ |- _ =>
           apply target_set_sources_links in H as [? ?]; simplify_eq
       | H : subscribe _ _ _ _ = Done _ _ |- _ =>
           apply (proj1 (subscribe_links _)) in H as [? ?]; simplify_eq
       end.
  all: repeat match goal with
       | H : links_only ?a ?b |- _ =>
           assert (∀ k, k < length (nodes a) → k < length (nodes b))%nat
             by (let Hk := fresh in
                 intros ? Hk; apply lookup_lt_is_Some in Hk as [? Hk];
                 apply (lo_nodes _ _ H) in Hk as (? & Hk & _); by eapply lookup_lt_Some);
           clear H
       end.
  all: repeat match goal with
       | H : nodes _ !! _ = Some _ |- _ => apply lookup_lt_Some in H
       | H : _ !! _ = Some _ |- _ => clear H
       end.
  all: apply lookup_lt_is_Some.
  all: simpl in *; rewrite ?length_insert, ?length_app in *; simpl in *.
  all: repeat match goal with
       | H : ∀ k, (k < _ → k < length ?B)%nat |- (_ < length ?B)%nat => apply H
       end.
  all: simpl in *; rewrite ?length_insert, ?length_app in *; simpl in *; try lia.
Qed.

(** C10, amended.  In a tracked read that selects an edge of the evaluator
    for the source (a new dependency, or one not yet used in the current
    evaluation), the edge receives the version that the source has when its
    [peek] is over, whether [peek] returned or threw: the write is in the
    [finally] block, and the completion of [peek], an error included, is the
    completion of the read.  A read selects no edge exactly when the source
    has been read before in the current evaluation; such a read writes no
    version, it ends in the state in which [peek] ended. *)
Theorem getValue_records_version (fuel : nat) (σ σ1 σ2 : State) (t : Target)
    (s : nat) (node : option nat) (c : completion value) :
  evalContext σ = Some t →
  getValue_track fuel t s σ = Done (Normal node) σ1 →
  peek fuel s σ1 = Done c σ2 →
  (node = None ↔ used_edge σ t s)
  ∧ ∃ sg σ3,
      signals σ2 !! s = Some sg
      ∧ getValue (S fuel) s σ = Done c σ3
      ∧ signals σ3 = signals σ2
      ∧ match node with
        | Some n =>
            ∃ nd, nodes σ2 !! n = Some nd
              ∧ σ3 = upd_nodes (λ l, <[n := Node.set_version (Signal._version sg) nd]> l) σ2
              ∧ Node.version <$> nodes σ3 !! n = Some (Signal._version sg)
        | None => σ3 = σ2
        end.
Proof.
  intros Hctx Htrack Hpeek. split.
  { rewrite <- (getValue_track_None _ _ _ _ _ _ Htrack). split; congruence. }
  assert (stable σ1 σ2) as Hst by (by eapply (proj1 (engine_stable fuel))).
  assert (∃ sg, signals σ2 !! s = Some sg) as [sg Hsg].
  { destruct fuel as [|fuel]; [done|]. engine_unfold in Hpeek.
    apply bind_Done in Hpeek as [(x1 & σ0 & Hx1 & _)|(e & Hx1 & _)];
      apply getSignal_Done in Hx1 as (x' & Hx' & ? & ?); simplify_eq.
    destruct (st_signals _ _ Hst _ _ Hx') as (x2 & Hx2 & _). eauto. }
  assert (∀ n, node = Some n → is_Some (nodes σ2 !! n)) as Hnode.
  { intros n ->. destruct (getValue_track_node _ _ _ _ _ _ Htrack) as [nd Hnd].
    destruct (st_nodes _ _ Hst _ _ Hnd) as (nd' & Hnd' & _). eauto. }
  exists sg.
  rewrite (getValue_unfold _ _ _ _ Hctx). unfold bind. rewrite Htrack.
  unfold try_finally. rewrite Hpeek. destruct node as [n|]; simpl.
  - destruct (Hnode n eq_refl) as [nd Hnd]. unfold bind.
    rewrite (getSignal_Some _ _ _ Hsg), (modNode_Some _ _ _ _ Hnd).
    eexists. split; [done|]. split; [reflexivity|]. split; [done|].
    exists nd. split_and!; try done.
    simpl. by erewrite lookup_insert_same.
  - unfold ret. eexists. by split_and!.
Qed.

Lemma getValue_records_version_witness :
  (∃ σ3, getValue 12 1 (set_evalContext (Some (TComputed 2)) throwing_state)
           = Done (Throws (VStr "zero")) σ3
         ∧ Node.version <$> nodes σ3 !! 0%nat = Some 1)
  ∧ (∃ σ1 σ3, getValue 12 0 (set_evalContext (Some (TComputed 2)) throwing_state)
                = Done (Normal (VNum 0)) σ1
              ∧ getValue 12 0 σ1 = Done (Normal (VNum 0)) σ3
              ∧ nodes σ3 = nodes σ1).
Proof.
  split.
  - destruct (getValue_records_version 11%nat
                (set_evalContext (Some (TComputed 2)) throwing_state)
                (state_after (getValue_track 11 (TComputed 2) 1)
                   (set_evalContext (Some (TComputed 2)) throwing_state))
                (state_after (peek 11 1)
                   (state_after (getValue_track 11 (TComputed 2) 1)
                      (set_evalContext (Some (TComputed 2)) throwing_state)))
                (TComputed 2) 1%nat (Some 0%nat) (Throws (VStr "zero")))
      as (_ & sg & σ3 & Hsg & H1 & _ & nd & _ & _ & H3);
      [reflexivity|vm_compute; reflexivity|vm_compute; reflexivity|].
    exists σ3. split; [exact H1|].
    vm_compute in Hsg. injection Hsg as <-. exact H3.
  - exists (state_after (getValue 12 0) (set_evalContext (Some (TComputed 2)) throwing_state)).
    destruct (getValue_records_version 11%nat
                (state_after (getValue 12 0)
                   (set_evalContext (Some (TComputed 2)) throwing_state))
                (state_after (getValue_track 11 (TComputed 2) 0)
                   (state_after (getValue 12 0)
                      (set_evalContext (Some (TComputed 2)) throwing_state)))
                (state_after (peek 11 0)
                   (state_after (getValue_track 11 (TComputed 2) 0)
                      (state_after (getValue 12 0)
                         (set_evalContext (Some (TComputed 2)) throwing_state))))
                (TComputed 2) 0%nat None (Normal (VNum 0)))
      as (_ & sg & σ3 & _ & H1 & _ & H3);
      [reflexivity|vm_compute; reflexivity|vm_compute; reflexivity|].
    exists σ3. split; [vm_compute; reflexivity|]. split; [exact H1|]. by rewrite H3.
Defined.

(** ** Reads of a computed whose list of sources is a cycle *)

(** Two edges whose [nextSignal] point at each other, each with the version
    of its source, a plain signal: no source has changed. *)
Definition cycle_matches (σ : State) (n m : nat) : Prop :=
  ∃ nd md sn sm,
    nodes σ !! n = Some nd ∧ Node.nextSignal nd = Some m
    ∧ nodes σ !! m = Some md ∧ Node.nextSignal md = Some n
    ∧ is_source σ (Node.signal nd) sn ∧ Signal._version sn = Node.version nd
    ∧ is_source σ (Node.signal md) sm ∧ Signal._version sm = Node.version md.

Lemma cycle_matches_sym σ n m : cycle_matches σ n m → cycle_matches σ m n.
Proof.
  intros (nd & md & sn & sm & ? & ? & ? & ? & ? & ? & ? & ?).
  exists md, nd, sm, sn. by split_and!.
Qed.

(** On such a list the check of the sources finds every version matching
    and goes round until the fuel is spent, whatever the fuel. *)
Lemma check_sources_cycle_fuel fuel n m σ :
  cycle_matches σ n m → Computed_check_sources fuel (Some n) σ = OutOfFuel.
Proof.
  revert n m. induction fuel as [|fuel IH]; [done|].
  intros n m Hcyc. pose proof Hcyc as (nd & md & sn & sm & Hn & Hnext & _ & _ & Hsn & Hv & _).
  engine_unfold. unfold bind at 1. rewrite (getNode_Some _ _ _ Hn).
  unfold bind at 1. rewrite (getSignal_Some _ _ _ (proj1 Hsn)).
  rewrite bool_decide_eq_false_2 by (by intros ?).
  destruct fuel as [|fuel]; [done|].
  unfold bind at 1, try_catch, bind at 1. rewrite (peek_source _ _ _ _ Hsn).
  unfold ret at 1. unfold bind at 1. rewrite (getNode_Some _ _ _ Hn).
  unfold bind at 1. rewrite (getSignal_Some _ _ _ (proj1 Hsn)).
  rewrite bool_decide_eq_false_2 by (by intros ?).
  rewrite Hnext. apply (IH m n), cycle_matches_sym.
  destruct Hcyc as (nd' & md' & sn' & sm' & ?). by exists nd', md', sn', sm'.
Qed.

Lemma check_sources_cycle fuel n m σ r σ' :
  cycle_matches σ n m → Computed_check_sources fuel (Some n) σ ≠ Done r σ'.
Proof. intros H. by rewrite (check_sources_cycle_fuel _ _ _ _ H). Qed.

Lemma cycle_matches_put σ c x a n m :
  signals σ !! c = Some x → is_Some (Signal.computed x) →
  cycle_matches σ n m → cycle_matches (put_signal c a σ) n m.
Proof.
  intros Hx [y Hy] (nd & md & sn & sm & ? & ? & ? & ? & [Hsn ?] & ? & [Hsm ?] & ?).
  exists nd, md, sn, sm. split_and!; try done.
  - split; [|done]. unfold put_signal. simpl. rewrite list_lookup_insert_ne; [done|].
    intros Heq. rewrite Heq in *. congruence.
  - split; [|done]. unfold put_signal. simpl. rewrite list_lookup_insert_ne; [done|].
    intros Heq. rewrite Heq in *. congruence.
Qed.

(** A read of a computed that has no dependent, after a write somewhere,
    checks its sources; if their list is such a cycle, the read does not
    return: it uses up whatever fuel it is given. *)
Lemma peek_scan_cycle fuel c σ x y n m :
  signals σ !! c = Some x → Signal.computed x = Some y →
  has_flag (Computed._flags y) RUNNING = false →
  Signal._targets x = None →
  Computed._globalVersion y ≠ globalVersion σ →
  0 < Signal._version x →
  Computed._sources y = Some n → cycle_matches σ n m →
  peek fuel c σ = OutOfFuel.
Proof.
  intros Hx Hy Hrun Ht Hgv Hver Hsrc Hcyc.
  destruct fuel as [|fuel]; [done|]. engine_unfold.
  unfold bind. rewrite (getSignal_Some _ _ _ Hx), Hy.
  destruct fuel as [|fuel]; [done|].
  rewrite (Computed_peek_enter _ _ _ _ _ Hx Hy Hrun). cbv zeta.
  rewrite Ht. rewrite bool_decide_eq_false_2, andb_false_r by (by intros ?).
  destruct (Z.eqb_spec (Computed._globalVersion y) (globalVersion σ)); [done|].
  destruct (Z.ltb_spec 0 (Signal._version x)); [|lia].
  unfold bind. rewrite Hsrc.
  rewrite (check_sources_cycle_fuel _ n m); [done|].
  apply (cycle_matches_put _ _ x); [done|by eexists|exact Hcyc].
Qed.

(** The same, computed. *)
Definition cycle_matchesb (σ : State) (n m : nat) : bool :=
  match nodes σ !! n, nodes σ !! m with
  | Some nd, Some md =>
      match signals σ !! Node.signal nd, signals σ !! Node.signal md with
      | Some sn, Some sm =>
          bool_decide (Node.nextSignal nd = Some m)
          && bool_decide (Node.nextSignal md = Some n)
          && match Signal.computed sn with None => true | Some _ => false end
          && bool_decide (Signal._version sn = Node.version nd)
          && match Signal.computed sm with None => true | Some _ => false end
          && bool_decide (Signal._version sm = Node.version md)
      | _, _ => false
      end
  | _, _ => false
  end.

Lemma cycle_matchesb_true σ n m : cycle_matchesb σ n m = true → cycle_matches σ n m.
Proof.
  unfold cycle_matchesb. intros H.
  destruct (nodes σ !! n) as [nd|] eqn:Hn; [|done].
  destruct (nodes σ !! m) as [md|] eqn:Hm; [|done].
  destruct (signals σ !! Node.signal nd) as [sn|] eqn:Hsn; [|done].
  destruct (signals σ !! Node.signal md) as [sm|] eqn:Hsm; [|done].
  repeat (apply andb_prop in H as [H ?]).
  destruct (Signal.computed sn) eqn:?; [done|]. destruct (Signal.computed sm) eqn:?; [done|].
  exists nd, md, sn, sm.
  repeat match goal with H : bool_decide _ = true |- _ => apply bool_decide_eq_true_1 in H end.
  by split_and!.
Qed.

Definition scans_cycle (σ : State) (c : nat) : bool :=
  match signals σ !! c with
  | Some x =>
      match Signal.computed x with
      | Some y =>
          negb (has_flag (Computed._flags y) RUNNING)
          && match Signal._targets x with None => true | Some _ => false end
          && negb (Computed._globalVersion y =? globalVersion σ)
          && (0 <? Signal._version x)
          && match Computed._sources y with
             | Some n =>
                 match Node.nextSignal <$> nodes σ !! n with
                 | Some (Some m) => cycle_matchesb σ n m
                 | _ => false
                 end
             | None => false
             end
      | None => false
      end
  | None => false
  end.

Lemma scans_cycle_hangs σ c :
  scans_cycle σ c = true → ∀ fuel, peek fuel c σ = OutOfFuel.
Proof.
  unfold scans_cycle. intros H fuel.
  destruct (signals σ !! c) as [x|] eqn:Hx; [|done].
  destruct (Signal.computed x) as [y|] eqn:Hy; [|done].
  repeat (apply andb_prop in H as [H ?]).
  destruct (Computed._sources y) as [n|] eqn:Hsrc; [|done].
  destruct (Node.nextSignal <$> nodes σ !! n) as [[m|]|] eqn:Hm; try done.
  destruct (Signal._targets x) eqn:Ht; [done|].
  apply (peek_scan_cycle _ _ _ x y n m); try done.
  - by apply negb_true_iff.
  - apply negb_true_iff in H2. by apply Z.eqb_neq.
  - by apply Z.ltb_lt.
  - by apply cycle_matchesb_true.
Qed.

(** The state of [reorder_state] after a write to [f], which the formula
    only peeks at: no source of the computed has changed. *)
Definition unchanged_state : State := state_after (set_value 30 0 (VBool true)) reorder_state.

(** C6 fails in the code.  After the two evaluations of [toggled] in
    [reorder_run] the list of sources of the computed is the cycle
    [a, c, a, ...].  A write to [f], which is not a source, is followed by
    a read of the computed: every edge holds the version of its source, so
    the read is to return the cached value; but the check of the sources
    goes round the cycle and the read never returns: it uses up whatever
    fuel it is given. *)
Theorem up_to_date_read_hangs :
  reorder_run init = Done (Normal (VNum 5)) reorder_state
  ∧ peek 30 3 reorder_state = Done (Normal (VNum 5)) (state_after (peek 30 3) reorder_state)
  ∧ set_value 30 0 (VBool true) reorder_state = Done (Normal tt) unchanged_state
  ∧ cycle_matches unchanged_state 0 1
  ∧ (∀ fuel, peek fuel 3 unchanged_state = OutOfFuel).
Proof.
  split_and!.
  - vm_compute. reflexivity.
  - vm_compute. reflexivity.
  - vm_compute. reflexivity.
  - apply cycle_matchesb_true. vm_compute. reflexivity.
  - apply scans_cycle_hangs. vm_compute. reflexivity.
Qed.

(** ** A captured error *)

(** [() => f.peek() ? a.value : (c.value, a.value, throw "boom")] *)
Definition toggled_throw (f a c : nat) : prog :=
  PeekValue f (λ fv,
    if bool_decide (fv = VBool true) then GetValue a (λ v, Ret v)
    else GetValue c (λ _, GetValue a (λ _, Throw (VStr "boom")))).

Definition captured_run : M value :=
  let* f := signal (VBool true) in
  let* a := signal (VNum 1) in
  let* c := signal (VNum 2) in
  let* d := computed (toggled_throw f a c) in
  let* _ := peek 30 d in
  let* _ := set_value 30 f (VBool false) in
  let* _ := set_value 30 a (VNum 5) in
  peek 30 d.

Definition has_error (σ : State) (c : nat) : bool :=
  match signals σ !! c with
  | Some x => match Signal.computed x with
              | Some y => has_flag (Computed._flags y) HAS_ERROR
              | None => false
              end
  | None => false
  end.

Definition captured_state : State := state_of captured_run.

Definition captured_unchanged_state : State :=
  state_after (set_value 30 0 (VBool true)) captured_state.

(** C8 fails in the code.  The second evaluation of [toggled_throw] throws,
    and the error is captured: the computed holds it with [HAS_ERROR] set,
    and a read right away rethrows it.  But that evaluation has read [c], a
    new dependency, and then [a], the head of the old list, which leaves
    the list of sources a cycle.  After a write to [f], which is not a
    dependency, a read is to rethrow the captured error; instead the check
    of the sources goes round the cycle and the read never returns: it uses
    up whatever fuel it is given. *)
Theorem captured_error_read_hangs :
  captured_run init = Done (Throws (VStr "boom")) captured_state
  ∧ Signal._value <$> signals captured_state !! 3%nat = Some (VStr "boom")
  ∧ has_error captured_state 3 = true
  ∧ peek 30 3 captured_state
    = Done (Throws (VStr "boom")) (state_after (peek 30 3) captured_state)
  ∧ set_value 30 0 (VBool true) captured_state = Done (Normal tt) captured_unchanged_state
  ∧ cycle_matches captured_unchanged_state 0 1
  ∧ (∀ fuel, peek fuel 3 captured_unchanged_state = OutOfFuel).
Proof.
  split_and!.
  - vm_compute. reflexivity.
  - vm_compute. reflexivity.
  - vm_compute. reflexivity.
  - vm_compute. reflexivity.
  - vm_compute. reflexivity.
  - apply cycle_matchesb_true. vm_compute. reflexivity.
  - apply scans_cycle_hangs. vm_compute. reflexivity.
Qed.

(** ** The version of a computed across a recomputation *)

(** A recomputation that returns has prepared the sources, run the formula
    and cleaned the sources up. *)
Lemma Computed_recompute_Done fuel σ c x y r σ' :
  signals σ !! c = Some x → Signal.computed x = Some y →
  Computed_recompute (S fuel) c σ = Done r σ' →
  ∃ σp r0 σd σe,
    prepareSources fuel (TComputed c) (set_evalContext (Some (TComputed c)) σ)
      = Done (Normal tt) σp
    ∧ run fuel (Computed._compute y) (add_log (EvCompute c) σp) = Done r0 σd
    ∧ cleanupSources fuel (TComputed c) σd = Done (Normal tt) σe.
Proof.
  intros Hx Hy H.
  destruct (prepareSources fuel (TComputed c) (set_evalContext (Some (TComputed c)) σ))
    as [rp σp| |] eqn:Hprep.
  2,3: exfalso; engine_unfold in H; unfold bind at 1, get at 1 in H;
       unfold bind at 1, try_finally, try_catch in H;
       unfold bind at 1, modify at 1 in H; unfold bind at 1 in H;
       rewrite Hprep in H; discriminate H.
  destruct (prepareSources_links _ _ _ _ _ Hprep) as [-> Hlo].
  destruct (stable_computed (set_evalContext (Some (TComputed c)) σ) σp c x y)
    as (xp & yp & Hxp & Hyp & Hcomp); [by apply stable_links|done|done|].
  destruct (run fuel (Computed._compute y) (add_log (EvCompute c) σp))
    as [r0 σd| |] eqn:Hrun.
  2,3: exfalso; engine_unfold in H; unfold bind at 1, get at 1 in H;
       unfold bind at 1, try_finally, try_catch in H;
       unfold bind at 1, modify at 1 in H; unfold bind at 1 in H;
       rewrite Hprep in H; unfold bind at 1 in H;
       rewrite (getComputed_Some _ _ _ _ Hxp Hyp) in H;
       unfold bind at 1, modify at 1 in H; unfold bind at 1 in H;
       rewrite Hcomp, Hrun in H; discriminate H.
  destruct (cleanupSources fuel (TComputed c) σd) as [rc σe| |] eqn:Hclean.
  2,3: exfalso; engine_unfold in H; unfold bind at 1, get at 1 in H;
       unfold bind at 1, try_finally, try_catch in H;
       unfold bind at 1, modify at 1 in H; unfold bind at 1 in H;
       rewrite Hprep in H; unfold bind at 1 in H;
       rewrite (getComputed_Some _ _ _ _ Hxp Hyp) in H;
       unfold bind at 1, modify at 1 in H; unfold bind at 1 in H;
       rewrite Hcomp, Hrun in H; destruct r0; simpl in H;
       unfold bind at 1 in H; rewrite Hclean in H; discriminate H.
  destruct (cleanupSources_links _ _ _ _ _ Hclean) as [-> _].
  by exists σp, r0, σd, σe.
Qed.

(** Storing an outcome and returning it: what becomes of the version. *)
Lemma store_outcome σ c x y v isErr :
  signals σ !! c = Some x → Signal.computed x = Some y →
  ∃ σ' x' y',
    bind (Computed_store c v isErr) (λ _, returnComputed c) σ
    = Done (if isErr then Throws v else Normal v) σ'
    ∧ signals σ' !! c = Some x' ∧ Signal.computed x' = Some y'
    ∧ has_flag (Computed._flags y') RUNNING = false
    ∧ log σ' = log σ
    ∧ if store_condition x y v isErr
      then Signal._version x' = Signal._version x + 1 ∧ Signal._value x' = v
           ∧ has_flag (Computed._flags y') HAS_ERROR = isErr
      else Signal._version x' = Signal._version x ∧ Signal._value x' = Signal._value x
           ∧ has_flag (Computed._flags y') HAS_ERROR = has_flag (Computed._flags y) HAS_ERROR.
Proof.
  intros Hx Hy. unfold bind. rewrite (Computed_store_result _ _ _ _ _ _ Hx Hy).
  pose proof (store_condition_true x y v isErr) as Hcond.
  destruct (store_condition x y v isErr).
  - erewrite returnComputed_put; [|simpl; by eapply lookup_insert_same|reflexivity].
    assert (has_flag (if isErr then set_flag (Computed._flags y) HAS_ERROR
                      else clear_flag (Computed._flags y) HAS_ERROR) HAS_ERROR = isErr)
      as Hflag.
    { destruct isErr.
      - apply has_flag_set_flag, HAS_ERROR_nonzero.
      - apply has_flag_clear_flag. }
    eexists _, _, _. split_and!.
    + f_equal. unfold cached, stored_record. rsimpl. rewrite Hflag. by destruct isErr.
    + simpl. lookup_ins.
    + reflexivity.
    + rsimpl. apply has_flag_clear_flag.
    + reflexivity.
    + reflexivity.
    + reflexivity.
    + rsimpl. by rewrite has_flag_clear_flag_other.
  - assert (isErr = false ∧ has_flag (Computed._flags y) HAS_ERROR = false
            ∧ v = Signal._value x) as (-> & He & ->).
    { split_and!.
      - destruct isErr; [|done]. exfalso. assert (false = true) by (apply Hcond; eauto). done.
      - destruct (has_flag (Computed._flags y) HAS_ERROR); [|done].
        exfalso. assert (false = true) by (apply Hcond; eauto). done.
      - destruct (strict_neq (Signal._value x) v) eqn:Hs.
        + exfalso. assert (false = true) by (apply Hcond; eauto). done.
        + by apply strict_neq_false in Hs as [? _]. }
    rewrite (returnComputed_put _ _ _ _ Hx Hy).
    eexists _, _, _. split_and!.
    + f_equal. unfold cached. by rewrite He.
    + by eapply put_signal_lookup.
    + reflexivity.
    + rsimpl. apply has_flag_clear_flag.
    + reflexivity.
    + reflexivity.
    + reflexivity.
    + rsimpl. by rewrite has_flag_clear_flag_other.
Qed.

(** While the formula of a running computed is evaluated, and its sources
    are prepared and cleaned up, its cached value, version and error flag
    stay as they were. *)
Lemma recompute_frozen fuel σ c x y σp r0 σd σe :
  signals σ !! c = Some x → Signal.computed x = Some y →
  has_flag (Computed._flags y) RUNNING = true →
  prepareSources fuel (TComputed c) (set_evalContext (Some (TComputed c)) σ)
    = Done (Normal tt) σp →
  run fuel (Computed._compute y) (add_log (EvCompute c) σp) = Done r0 σd →
  cleanupSources fuel (TComputed c) σd = Done (Normal tt) σe →
  ∃ xe ye l1 l2,
    signals σe !! c = Some xe ∧ Signal.computed xe = Some ye
    ∧ Signal._value xe = Signal._value x ∧ Signal._version xe = Signal._version x
    ∧ has_flag (Computed._flags ye) HAS_ERROR = has_flag (Computed._flags y) HAS_ERROR
    ∧ log σe = log σ ++ l1 ++ EvCompute c :: l2
    ∧ (EvCompute c ∉ l1) ∧ (EvCompute c ∉ l2).
Proof.
  intros Hx Hy Hr Hprep Hrun Hclean.
  assert (frozen c σ σp) as H1.
  { etrans; [apply (frozen_other c σ (set_evalContext (Some (TComputed c)) σ)); reflexivity|].
    apply frozen_links. by eapply prepareSources_links. }
  destruct H1 as (x0 & y0 & xp & yp & Hx0 & Hy0 & Hxp & Hyp & Hrp & Hvp & Hverp & Herrp
                  & l1 & Hl1 & Hn1); [by exists x, y|].
  simplify_eq.
  assert (frozen c (add_log (EvCompute c) σp) σe) as H2.
  { etrans; [by eapply engine_frozen|].
    apply frozen_links. by eapply cleanupSources_links. }
  destruct H2 as (x0 & y0 & xe & ye & Hx0 & Hy0 & Hxe & Hye & Hre & Hve & Hvere & Herre
                  & l2 & Hl2 & Hn2); [by exists xp, yp|].
  simpl in Hx0. simplify_eq.
  exists xe, ye, l1, l2. split_and!; try done; try congruence.
  rewrite Hl2. simpl. rewrite Hl1. by rewrite <- !app_assoc.
Qed.

(** What a recomputation does to the version of the computed, which [peek]
    has marked running: the formula is run once, and its outcome [r] is the
    outcome of the recomputation; the version goes up by one, and the
    outcome is stored, exactly in the cases listed as [stores]. *)
Lemma recompute_stores (fuel : nat) (σ σ' : State) (c : nat)
    (x : Signal.t) (y : Computed.t) (r : completion value) :
  signals σ !! c = Some x → Signal.computed x = Some y →
  has_flag (Computed._flags y) RUNNING = true →
  Computed_recompute fuel c σ = Done r σ' →
  let stores := outcome_is_error r = true
                ∨ has_flag (Computed._flags y) HAS_ERROR = true
                ∨ Signal._value x ≠ outcome_value r
                ∨ Signal._value x = VNaN
                ∨ Signal._version x = 0 in
  ∃ x' y',
    signals σ' !! c = Some x' ∧ Signal.computed x' = Some y'
    ∧ r = cached x' y'
    ∧ (∃ fuel' σp σd l1 l2,
         run fuel' (Computed._compute y) (add_log (EvCompute c) σp) = Done r σd
         ∧ log σ' = log σ ++ l1 ++ EvCompute c :: l2
         ∧ (EvCompute c ∉ l1) ∧ (EvCompute c ∉ l2))
    ∧ (stores → Signal._version x' = Signal._version x + 1
                ∧ Signal._value x' = outcome_value r
                ∧ has_flag (Computed._flags y') HAS_ERROR = outcome_is_error r)
    ∧ (¬ stores → Signal._version x' = Signal._version x
                  ∧ Signal._value x' = Signal._value x
                  ∧ has_flag (Computed._flags y') HAS_ERROR
                    = has_flag (Computed._flags y) HAS_ERROR)
    ∧ (Signal._version x' = Signal._version x + 1 ↔ stores).
Proof.
  intros Hx Hy Hr H stores. destruct fuel as [|fuel]; [done|].
  destruct (Computed_recompute_Done _ _ _ _ _ _ _ Hx Hy H)
    as (σp & r0 & σd & σe & Hprep & Hrun & Hclean).
  rewrite (Computed_recompute_run _ _ _ _ _ _ _ _ _ Hx Hy Hprep Hrun Hclean) in H.
  destruct (recompute_frozen _ _ _ _ _ _ _ _ _ Hx Hy Hr Hprep Hrun Hclean)
    as (xe & ye & l1 & l2 & Hxe & Hye & Hve & Hvere & Herre & Hlog & Hn1 & Hn2).
  destruct (store_outcome (set_evalContext (evalContext σ) σe) c xe ye
              (outcome_value r0) (outcome_is_error r0) Hxe Hye)
    as (σ2 & x' & y' & Hres & Hx' & Hy' & Hrun' & Hlog' & Hcase).
  rewrite Hres in H. injection H as Hr0 <-.
  assert (r0 = r) as -> by (by destruct r0).
  pose proof (store_condition_true xe ye (outcome_value r) (outcome_is_error r)) as Hcond.
  rewrite Hve, Hvere, Herre, strict_neq_true in Hcond.
  assert (store_condition xe ye (outcome_value r) (outcome_is_error r) = true ↔ stores)
    as Hst by (rewrite Hcond; unfold stores; tauto).
  exists x', y'. split_and!; try done.
  - unfold cached. destruct (store_condition xe ye _ _) eqn:Hsc.
    + destruct Hcase as (_ & -> & ->). by destruct r.
    + destruct Hcase as (_ & -> & ->). rewrite Herre, Hve.
      assert (¬ stores) as Hns by (intros Hs; apply Hst in Hs; done).
      destruct r as [v|e]; [|destruct Hns; by left].
      destruct (has_flag (Computed._flags y) HAS_ERROR) eqn:He;
        [destruct Hns; right; by left|].
      f_equal. simpl in *.
      destruct (decide (Signal._value x = v)) as [<-|Hne]; [done|].
      destruct Hns. right. right. by left.
  - exists fuel, σp, σd, l1, l2. split_and!; try done. by rewrite Hlog'.
  - intros Hs. apply Hst in Hs. rewrite Hs in Hcase.
    destruct Hcase as (? & ? & ?). split_and!; congruence.
  - intros Hs. destruct (store_condition xe ye _ _); [by destruct Hs; apply Hst|].
    destruct Hcase as (? & ? & ?). split_and!; congruence.
  - destruct (store_condition xe ye _ _).
    + destruct Hcase as (? & ? & ?). split; [intros _; by apply Hst|intros _; congruence].
    + destruct Hcase as (? & ? & ?). split; [intros ?; lia|intros Hs; by apply Hst in Hs].
Qed.

(** The check of the sources does not throw. *)
Lemma check_sources_normal fuel h σ r σ' :
  Computed_check_sources fuel h σ = Done r σ' → ∃ node, r = Normal node.
Proof.
  revert h σ. induction fuel as [|fuel IH]; [done|].
  intros h σ H. engine_unfold in H. destruct h as [n|]; [|minv; eauto].
  apply bind_Done in H as [(nd & σ1 & Ha & H)|(e & Ha & _)];
    apply getNode_Done in Ha as (? & ? & ? & ?); simplify_eq.
  apply bind_Done in H as [(sg & σ1 & Hb & H)|(e & Hb & _)];
    apply getSignal_Done in Hb as (? & ? & ? & ?); simplify_eq.
  case_if H; [minv; eauto|].
  apply bind_Done in H as [([] & σ1 & Hc & H)|(e & Hc & _)]; last first.
  { apply try_catch_Done in Hc as [(? & _ & ?)|(? & ? & _ & Hh)]; minv. }
  apply bind_Done in H as [(nd & σ2 & Hd & H)|(e & Hd & _)];
    apply getNode_Done in Hd as (? & ? & ? & ?); simplify_eq.
  apply bind_Done in H as [(sg & σ2 & He & H)|(e & He & _)];
    apply getSignal_Done in He as (? & ? & ? & ?); simplify_eq.
  case_if H; [minv; eauto|]. by eapply IH.
Qed.

(** C3, amended.  A read of a computed that is not running either returns
    the cached outcome without running the formula, and then the version,
    the cached value and the error flag are what they were; or it recomputes:
    the formula is run once, its outcome [r] is the outcome of the read, and
    the version of the computed goes up by one, with the outcome stored as
    the value and the error flag saying whether it is an error, if and only
    if the formula threw, or the cached state was an error, or the cached
    value and the outcome differ under [!==] (they are different, or the
    cached value is [NaN]), or this is the first computation (version 0).
    In every other case of a recomputation the version, the value and the
    error flag are what they were. *)
Theorem recompute_version (fuel : nat) (σ σ' : State) (c : nat)
    (x : Signal.t) (y : Computed.t) (r : completion value) :
  signals σ !! c = Some x → Signal.computed x = Some y →
  has_flag (Computed._flags y) RUNNING = false →
  Computed_peek fuel c σ = Done r σ' →
  let stores := outcome_is_error r = true
                ∨ has_flag (Computed._flags y) HAS_ERROR = true
                ∨ Signal._value x ≠ outcome_value r
                ∨ Signal._value x = VNaN
                ∨ Signal._version x = 0 in
  ∃ x' y' l,
    signals σ' !! c = Some x' ∧ Signal.computed x' = Some y'
    ∧ log σ' = log σ ++ l
    ∧ r = cached x' y'
    ∧ (EvCompute c ∉ l →
         Signal._version x' = Signal._version x
         ∧ Signal._value x' = Signal._value x
         ∧ has_flag (Computed._flags y') HAS_ERROR = has_flag (Computed._flags y) HAS_ERROR)
    ∧ (EvCompute c ∈ l →
         (∃ l1 l2, l = l1 ++ EvCompute c :: l2 ∧ (EvCompute c ∉ l1) ∧ (EvCompute c ∉ l2))
         ∧ (∃ fuel' σp σd,
              run fuel' (Computed._compute y) (add_log (EvCompute c) σp) = Done r σd)
         ∧ (Signal._version x' = Signal._version x + 1 ↔ stores)
         ∧ (stores → Signal._version x' = Signal._version x + 1
                     ∧ Signal._value x' = outcome_value r
                     ∧ has_flag (Computed._flags y') HAS_ERROR = outcome_is_error r)
         ∧ (¬ stores → Signal._version x' = Signal._version x
                       ∧ Signal._value x' = Signal._value x
                       ∧ has_flag (Computed._flags y') HAS_ERROR
                         = has_flag (Computed._flags y) HAS_ERROR)).
Proof.
  intros Hx Hy Hr H stores. destruct fuel as [|fuel]; [done|].
  (* the outcome when the formula is not run *)
  assert (∀ (l : list event) x' y',
    Done r σ' = Done (cached x y) σ' → log σ' = log σ ++ l → EvCompute c ∉ l →
    signals σ' !! c = Some x' → Signal.computed x' = Some y' →
    Signal._value x' = Signal._value x → Signal._version x' = Signal._version x →
    has_flag (Computed._flags y') HAS_ERROR = has_flag (Computed._flags y) HAS_ERROR →
    ∃ x' y' l,
    signals σ' !! c = Some x' ∧ Signal.computed x' = Some y'
    ∧ log σ' = log σ ++ l
    ∧ r = cached x' y'
    ∧ (EvCompute c ∉ l →
         Signal._version x' = Signal._version x
         ∧ Signal._value x' = Signal._value x
         ∧ has_flag (Computed._flags y') HAS_ERROR = has_flag (Computed._flags y) HAS_ERROR)
    ∧ (EvCompute c ∈ l →
         (∃ l1 l2, l = l1 ++ EvCompute c :: l2 ∧ (EvCompute c ∉ l1) ∧ (EvCompute c ∉ l2))
         ∧ (∃ fuel' σp σd,
              run fuel' (Computed._compute y) (add_log (EvCompute c) σp) = Done r σd)
         ∧ (Signal._version x' = Signal._version x + 1 ↔ stores)
         ∧ (stores → Signal._version x' = Signal._version x + 1
                     ∧ Signal._value x' = outcome_value r
                     ∧ has_flag (Computed._flags y') HAS_ERROR = outcome_is_error r)
         ∧ (¬ stores → Signal._version x' = Signal._version x
                       ∧ Signal._value x' = Signal._value x
                       ∧ has_flag (Computed._flags y') HAS_ERROR
                         = has_flag (Computed._flags y) HAS_ERROR))) as Hcached.
  { intros l x' y' [= ->] Hl Hnl Hx' Hy' Hv Hver Herr. exists x', y', l.
    split_and!; try done.
    unfold cached. by rewrite Hv, Herr. }
  assert (∀ σ0, Computed_peek (S fuel) c σ = Done (cached x y) σ0 →
                only_flags_changed c x y σ σ0 → σ0 = σ' ∧ Done r σ' = Done (cached x y) σ'
                ∧ ∃ x' y', signals σ' !! c = Some x' ∧ Signal.computed x' = Some y'
                  ∧ log σ' = log σ ++ [] ∧ Signal._value x' = Signal._value x
                  ∧ Signal._version x' = Signal._version x
                  ∧ has_flag (Computed._flags y') HAS_ERROR
                    = has_flag (Computed._flags y) HAS_ERROR) as Hfast.
  { intros σ0 Hp (_ & _ & Hlog & _ & _ & _ & _ & _ & _ & y' & Hsig & _ & _ & Herr & _).
    rewrite Hp in H. injection H as <- <-. split; [done|]. split; [done|].
    exists (with_computed x y'), y'. rewrite Hlog, Hsig, app_nil_r.
    split_and!; try done. by eapply lookup_insert_same. }
  destruct (negb (has_flag (Computed._flags y) STALE)
            && bool_decide (Signal._targets x ≠ None)) eqn:Hsub.
  { apply andb_true_iff in Hsub as [Hs Ht]. apply negb_true_iff in Hs.
    apply bool_decide_eq_true in Ht.
    destruct (peek_fast_subscribed fuel _ _ _ _ Hx Hy Hr Hs Ht) as (σ0 & Hp & Hch).
    destruct (Hfast _ Hp Hch) as (_ & Heq & x' & y' & ? & ? & ? & ? & ? & ?).
    apply (Hcached [] x' y'); try done. apply not_elem_of_nil. }
  destruct (Computed._globalVersion y =? globalVersion σ) eqn:Hgv.
  { apply Z.eqb_eq in Hgv.
    destruct (peek_fast_global fuel _ _ _ _ Hx Hy Hr Hgv) as (σ0 & Hp & Hch).
    destruct (Hfast _ Hp Hch) as (_ & Heq & x' & y' & ? & ? & ? & ? & ? & ?).
    apply (Hcached [] x' y'); try done. apply not_elem_of_nil. }
  clear Hfast.
  (* the outcome of a recomputation from a state in which [c] is as in [σ] *)
  assert (∀ σ4 x4 y4 l0,
    signals σ4 !! c = Some x4 → Signal.computed x4 = Some y4 →
    has_flag (Computed._flags y4) RUNNING = true →
    Signal._value x4 = Signal._value x → Signal._version x4 = Signal._version x →
    has_flag (Computed._flags y4) HAS_ERROR = has_flag (Computed._flags y) HAS_ERROR →
    Computed._compute y4 = Computed._compute y →
    log σ4 = log σ ++ l0 → EvCompute c ∉ l0 →
    Computed_recompute fuel c σ4 = Done r σ' →
    ∃ x' y' l,
    signals σ' !! c = Some x' ∧ Signal.computed x' = Some y'
    ∧ log σ' = log σ ++ l
    ∧ r = cached x' y'
    ∧ (EvCompute c ∉ l →
         Signal._version x' = Signal._version x
         ∧ Signal._value x' = Signal._value x
         ∧ has_flag (Computed._flags y') HAS_ERROR = has_flag (Computed._flags y) HAS_ERROR)
    ∧ (EvCompute c ∈ l →
         (∃ l1 l2, l = l1 ++ EvCompute c :: l2 ∧ (EvCompute c ∉ l1) ∧ (EvCompute c ∉ l2))
         ∧ (∃ fuel' σp σd,
              run fuel' (Computed._compute y) (add_log (EvCompute c) σp) = Done r σd)
         ∧ (Signal._version x' = Signal._version x + 1 ↔ stores)
         ∧ (stores → Signal._version x' = Signal._version x + 1
                     ∧ Signal._value x' = outcome_value r
                     ∧ has_flag (Computed._flags y') HAS_ERROR = outcome_is_error r)
         ∧ (¬ stores → Signal._version x' = Signal._version x
                       ∧ Signal._value x' = Signal._value x
                       ∧ has_flag (Computed._flags y') HAS_ERROR
                         = has_flag (Computed._flags y) HAS_ERROR))) as Hrecompute.
  { intros σ4 x4 y4 l0 Hx4 Hy4 Hr4 Hv4 Hver4 Herr4 Hcomp4 Hl0 Hnl0 Hrec.
    destruct (recompute_stores _ _ _ _ _ _ _ Hx4 Hy4 Hr4 Hrec)
      as (x' & y' & Hx' & Hy' & Hres & (f' & σp & σd & l1 & l2 & Hrun & Hlog & Hn1 & Hn2)
          & Hs & Hns & Hiff).
    rewrite Hv4, Hver4, Herr4 in Hs, Hns, Hiff. rewrite Hcomp4 in Hrun.
    exists x', y', ((l0 ++ l1) ++ EvCompute c :: l2). split_and!; try done.
    - rewrite Hlog, Hl0. by rewrite <- !app_assoc.
    - intros Hnot. exfalso. apply Hnot. apply elem_of_app. right. left.
    - intros _. split_and!; try done.
      + exists (l0 ++ l1), l2. split_and!; try done. rewrite elem_of_app. tauto.
      + by exists f', σp, σd. }
  rewrite (Computed_peek_enter _ _ _ _ _ Hx Hy Hr) in H. cbv zeta in H.
  rewrite Hsub, Hgv in H.
  change (put_signal c _ σ) with (check_state c x y σ) in H.
  pose proof (running_check_state σ c x y Hx) as Hrunning.
  assert (signals (check_state c x y σ) !! c
          = Some (with_computed x
              (Computed.set_globalVersion (globalVersion σ)
                 (Computed.set_flags
                    (clear_flag (entered_flags (Computed._flags y)) STALE) y)))) as Hx3
    by (by eapply put_signal_lookup).
  assert (has_flag (clear_flag (entered_flags (Computed._flags y)) STALE) RUNNING = true)
    as Hr3.
  { unfold entered_flags. rewrite has_flag_clear_flag_other by done.
    apply has_flag_set_flag. done. }
  assert (has_flag (clear_flag (entered_flags (Computed._flags y)) STALE) HAS_ERROR
          = has_flag (Computed._flags y) HAS_ERROR) as He3.
  { unfold entered_flags.
    by rewrite has_flag_clear_flag_other, has_flag_set_flag_other,
      has_flag_clear_flag_other by done. }
  destruct (Z.ltb_spec 0 (Signal._version x)) as [Hver|Hver].
  - apply bind_Done in H as [(fresh & σ4 & Hcheck & H)|(e & Hcheck & _)]; last first.
    { apply bind_Done in Hcheck as [(node & σ5 & Hc & Hret)|(e' & Hc & _)].
      - by apply ret_Done in Hret as [? _].
      - by apply check_sources_normal in Hc as [? ?]. }
    apply bind_Done in Hcheck as [(node & σ5 & Hc & Hret)|(e' & Hc & ?)]; [|done].
    apply ret_Done in Hret as [[= ->] ->].
    destruct node as [n|]; simpl in H.
    + destruct (check_sources_frozen c _ _ _ _ _ Hc Hrunning)
        as (x1 & y1 & x4 & y4 & Hx1 & Hy1 & Hx4 & Hy4 & Hr4 & Hv & Hve & He & l0 & Hl0 & Hnl0).
      rewrite Hx3 in Hx1. injection Hx1 as <-. injection Hy1 as <-.
      destruct (stable_computed _ _ _ _ _ (proj1 (proj2 (proj2 (proj2 (engine_stable fuel)))) _ _ _ _ Hc) Hx3 eq_refl)
        as (x4' & y4' & Hx4' & Hy4' & Hcomp).
      simplify_eq. apply (Hrecompute σ5 x4 y4 l0); try done.
      by rewrite He.
    + destruct (peek_sources_unchanged fuel σ c x y σ5 Hx Hy Hr Hver Hc)
        as (σ0 & l & x' & y' & Hp & Hl & Hnl & Hx' & Hy' & Hv & Hve & He).
      assert (Computed_peek (S fuel) c σ = Done r σ') as Hp'.
      { rewrite (Computed_peek_enter _ _ _ _ _ Hx Hy Hr). cbv zeta.
        rewrite Hsub, Hgv. destruct (Z.ltb_spec 0 (Signal._version x)); [|lia].
        change (put_signal c _ σ) with (check_state c x y σ).
        unfold bind at 1 2. rewrite Hc. unfold ret at 1.
        by rewrite bool_decide_eq_true_2. }
      rewrite Hp in Hp'. injection Hp' as <- <-.
      by apply (Hcached l x' y').
  - unfold bind at 1, ret at 1 in H.
    apply (Hrecompute (check_state c x y σ) _ _ [] Hx3 eq_refl); try done.
    + by rewrite app_nil_r.
    + apply not_elem_of_nil.
Qed.

(** [a = signal(1); c = computed(() => (a.value, NaN)); c.peek();
    a.value = 2] *)
Definition nan_formula_state : State :=
  state_of (let* a := signal (VNum 1) in
            let* c := computed (GetValue a (λ _, Ret VNaN)) in
            let* _ := peek 20 c in
            set_value 20 a (VNum 2)).

Definition nan_signal : Signal.t :=
  default (Signal.mk VUndefined 0 None None None) (signals nan_formula_state !! 1%nat).

Definition nan_computed : Computed.t :=
  default (Computed.mk (Ret VUndefined) None 0 0) (Signal.computed nan_signal).

Lemma recompute_version_witness :
  Signal._value nan_signal = VNaN
  ∧ Signal._version nan_signal = 1
  ∧ Computed_peek 21 1 nan_formula_state
    = Done (Normal VNaN) (state_after (Computed_peek 21 1) nan_formula_state)
  ∧ ∃ x', signals (state_after (Computed_peek 21 1) nan_formula_state) !! 1%nat = Some x'
          ∧ Signal._value x' = VNaN ∧ Signal._version x' = 2.
Proof.
  assert (Computed_peek 21 1 nan_formula_state
          = Done (Normal VNaN) (state_after (Computed_peek 21 1) nan_formula_state))
    as Hpeek by (vm_compute; reflexivity).
  split; [reflexivity|]. split; [reflexivity|]. split; [exact Hpeek|].
  destruct (recompute_version 21 nan_formula_state
              (state_after (Computed_peek 21 1) nan_formula_state) 1
              nan_signal nan_computed (Normal VNaN))
    as (x' & y' & l & Hx' & _ & Hl & _ & _ & Hrec);
    [vm_compute; reflexivity|reflexivity|reflexivity|exact Hpeek|].
  exists x'. split; [exact Hx'|].
  assert (l = drop (length (log nan_formula_state))
                (log (state_after (Computed_peek 21 1) nan_formula_state))) as Hdrop
    by (rewrite Hl; by rewrite drop_app_length).
  destruct Hrec as (_ & _ & _ & Hstores & _);
    [rewrite Hdrop; vm_compute; by repeat constructor|].
  destruct Hstores as (Hver & Hval & _); [right; right; right; left; reflexivity|].
  split; [exact Hval|]. rewrite Hver. reflexivity.
Defined.

(** C3 as stated fails: the first computation of [computed(() => undefined)]
    increments the version although neither the cached value ([undefined])
    nor the error state changes. *)
Lemma version_iff_counterexample :
  ∃ x y σ' x' y',
    signals (state_of (computed (Ret VUndefined))) !! 0%nat = Some x
    ∧ Signal.computed x = Some y
    ∧ peek 10 0 (state_of (computed (Ret VUndefined))) = Done (Normal VUndefined) σ'
    ∧ signals σ' !! 0%nat = Some x' ∧ Signal.computed x' = Some y'
    ∧ Signal._version x' = Signal._version x + 1
    ∧ Signal._value x' = Signal._value x
    ∧ has_flag (Computed._flags y') HAS_ERROR = has_flag (Computed._flags y) HAS_ERROR.
Proof.
  eexists _, _, _, _, _.
  split; [vm_compute; reflexivity|].
  split; [reflexivity|].
  split; [vm_compute; reflexivity|].
  split; [vm_compute; reflexivity|].
  split; [reflexivity|].
  split_and!; vm_compute; reflexivity.
Qed.

(** ** Versions identify values *)

(** Whether a signal holds a captured error in place of a value. *)
Definition error_flag (x : Signal.t) : bool :=
  match Signal.computed x with
  | Some y => has_flag (Computed._flags y) HAS_ERROR
  | None => false
  end.

(** From [x] to [x'] the version has not decreased, and if it is the same
    then so are the value and the error state. *)
Definition sig_versioned (x x' : Signal.t) : Prop :=
  Signal._version x ≤ Signal._version x'
  ∧ (Signal._version x' = Signal._version x →
     Signal._value x' = Signal._value x ∧ error_flag x' = error_flag x).

(** [versioned σ σ']: [globalVersion] has not decreased; every signal of
    [σ] is still there, its version has not decreased and stands for the
    same value if it is the same; a plain signal is still one, and its
    version has increased by at most as much as [globalVersion]. *)
Definition versioned (σ σ' : State) : Prop :=
  globalVersion σ ≤ globalVersion σ'
  ∧ ∀ s x, signals σ !! s = Some x →
      ∃ x', signals σ' !! s = Some x' ∧ sig_versioned x x'
            ∧ (Signal.computed x = None →
               Signal.computed x' = None
               ∧ Signal._version x' - Signal._version x
                 ≤ globalVersion σ' - globalVersion σ).

Lemma sig_versioned_refl x : sig_versioned x x.
Proof. split; [lia|done]. Qed.

Lemma sig_versioned_trans x y z :
  sig_versioned x y → sig_versioned y z → sig_versioned x z.
Proof.
  intros [H1 H1'] [H2 H2']. split; [lia|]. intros Heq.
  destruct H1' as [Hv He]; [lia|]. destruct H2' as [Hv' He']; [lia|].
  split; congruence.
Qed.

#[global] Instance versioned_preorder : PreOrder versioned.
Proof.
  split.
  - intros σ. split; [lia|]. intros s x Hx. exists x. split; [done|].
    split; [apply sig_versioned_refl|]. intros ?. split; [done|lia].
  - intros σ1 σ2 σ3 [Hg12 H12] [Hg23 H23]. split; [lia|]. intros s x Hx.
    destruct (H12 _ _ Hx) as (y & Hy & Hxy & Hc1).
    destruct (H23 _ _ Hy) as (z & Hz & Hyz & Hc2).
    exists z. split; [done|]. split; [by eapply sig_versioned_trans|].
    intros Hc. destruct (Hc1 Hc) as [Hcy ?]. destruct (Hc2 Hcy). split; [done|lia].
Qed.

Lemma versioned_same σ σ' :
  signals σ' = signals σ → globalVersion σ' = globalVersion σ → versioned σ σ'.
Proof.
  intros He Hg. split; [lia|]. intros s x Hx. exists x. rewrite He. split; [done|].
  split; [apply sig_versioned_refl|]. intros ?. split; [done|lia].
Qed.

(** An update of one signal that keeps its class and, for a plain signal,
    its version. *)
Lemma versioned_signal σ s x x' :
  signals σ !! s = Some x → sig_versioned x x' →
  (Signal.computed x = None →
   Signal.computed x' = None ∧ Signal._version x' = Signal._version x) →
  versioned σ (upd_signals (λ l, <[s := x']> l) σ).
Proof.
  intros Hx Hrel Hc. split; [simpl; lia|]. intros s0 x0 Hx0. simpl.
  destruct (decide (s0 = s)) as [->|Hne].
  - exists x'. split; [by eapply lookup_insert_same|]. simplify_eq. split; [done|].
    intros Hp. destruct (Hc Hp). split; [done|lia].
  - exists x0. rewrite list_lookup_insert_ne by done. split; [done|].
    split; [apply sig_versioned_refl|]. intros ?. split; [done|lia].
Qed.

Lemma versioned_links σ σ' : links_only σ σ' → versioned σ σ'.
Proof.
  intros Hl. split; [by rewrite (lo_globalVersion _ _ Hl)|]. intros s x Hx.
  destruct (lo_signals _ _ Hl _ _ Hx) as (x' & Hx' & Hv & Hver & Hc).
  exists x'. split; [done|]. split; [split; [lia|]|].
  - intros _. split; [done|].
    unfold error_flag. destruct (Signal.computed x), (Signal.computed x'); try done.
    by destruct Hc as (_ & _ & _ & _ & ?).
  - intros Hp. rewrite Hp in Hc. rewrite (lo_globalVersion _ _ Hl).
    destruct (Signal.computed x'); [done|]. split; [done|lia].
Qed.

(** An update of the flags of a computed other than [HAS_ERROR]. *)
Lemma versioned_flags σ c x y f :
  signals σ !! c = Some x → Signal.computed x = Some y →
  (∀ y, has_flag (f y) HAS_ERROR = has_flag (Computed._flags y) HAS_ERROR) →
  versioned σ (upd_signals (λ l, <[c := Signal.map_computed
                 (λ y, Computed.set_flags (f y) y) x]> l) σ).
Proof.
  intros Hx Hy Hf. eapply versioned_signal; [done| |by rewrite Hy].
  split; [simpl; lia|]. intros _.
  split; [done|]. unfold error_flag, Signal.map_computed. simpl.
  rewrite Hy. simpl. apply Hf.
Qed.

Lemma HAS_ERROR_other m : m = STALE ∨ m = NOTIFIED ∨ m = RUNNING ∨ m = SHOULD_SUBSCRIBE
                           ∨ m = Z.lor STALE NOTIFIED ∨ m = Z.lor STALE SHOULD_SUBSCRIBE →
  Z.land m HAS_ERROR = 0.
Proof. intros [->|[->|[->|[->|[->| ->]]]]]; reflexivity. Qed.

Lemma versioned_notify fuel :
  (∀ t, preserves versioned (notify fuel t))
  ∧ (∀ h, preserves versioned (notify_targets fuel h)).
Proof.
  assert (∀ σ0,
     (∀ t σ r σ', versioned σ0 σ → notify fuel t σ = Done r σ' → versioned σ0 σ' ∧ r = Normal tt)
     ∧ (∀ h σ r σ', versioned σ0 σ → notify_targets fuel h σ = Done r σ'
          → versioned σ0 σ' ∧ r = Normal tt)) as H.
  { intros σ0. apply notify_preserves.
    - intros σ t H. etrans; [done|by apply versioned_same].
    - intros σ c x y H Hx Hy _. etrans; [done|]. eapply versioned_flags; [done|done|].
      intros y0. by apply has_flag_set_flag_other.
    - intros σ e x H Hx _. etrans; [done|]. by apply versioned_same. }
  split; intros ? σ r σ' Hr; eapply H in Hr; try apply Hr; done.
Qed.

Lemma versioned_Computed_store c v b : preserves versioned (Computed_store c v b).
Proof.
  intros σ r σ' H.
  destruct (signals σ !! c) as [x|] eqn:Hx; last first.
  { unfold Computed_store, bind, getComputed, bind, getSignal in H. by rewrite Hx in H. }
  destruct (Signal.computed x) as [y|] eqn:Hy; last first.
  { unfold Computed_store, bind, getComputed, bind, getSignal in H. rewrite Hx in H.
    simpl in H. by rewrite Hy in H. }
  rewrite (Computed_store_result _ _ _ _ _ _ Hx Hy) in H. injection H as _ <-.
  destruct (store_condition x y v b); [|reflexivity].
  eapply versioned_signal; [done| |by rewrite Hy]. split; simpl; [lia|]. intros ?. lia.
Qed.

Lemma versioned_written σ s x v : signals σ !! s = Some x → versioned σ (written s x v σ).
Proof.
  intros Hx. unfold written. split; [simpl; lia|]. intros s0 x0 Hx0. simpl.
  destruct (decide (s0 = s)) as [->|Hne].
  - exists (written_record x v). split; [by eapply lookup_insert_same|]. simplify_eq.
    split; [split; simpl; [lia|intros ?; lia]|]. intros Hp. split; [done|simpl; lia].
  - exists x0. rewrite list_lookup_insert_ne by done. split; [done|].
    split; [apply sig_versioned_refl|]. intros ?. split; [done|lia].
Qed.

Section versioned_engine.
Context (fuel : nat).
Hypothesis IH : engine_preserves versioned (λ _, True) fuel.

Lemma versioned_set_value s v : preserves versioned (set_value (S fuel) s v).
Proof.
  destruct IH as (_ & _ & _ & _ & _ & _ & _ & IHendBatch & _).
  intros σ r σ' H.
  destruct (signals σ !! s) as [x|] eqn:Hx; last first.
  { engine_unfold in H. unfold bind, getSignal in H. by rewrite Hx in H. }
  destruct (Signal.computed x) as [y|] eqn:Hy.
  { engine_unfold in H. unfold bind, getSignal in H. rewrite Hx, Hy in H.
    apply throw_new_error_Done in H as [_ ->]. by apply versioned_same. }
  destruct (strict_neq v (Signal._value x)) eqn:Hv; last first.
  { rewrite (set_value_same _ _ _ x) in H by done. by injection H as _ <-. }
  destruct (Z.ltb_spec 100 (batchIteration σ)) as [Hbi|Hbi].
  { rewrite (set_value_guard _ _ _ x) in H by done. injection H as _ <-.
    by apply versioned_same. }
  rewrite (set_value_differs _ _ _ x) in H by done.
  apply try_finally_Done in H as (c & σ1 & Hn & Hfin).
  apply (proj2 (versioned_notify fuel)) in Hn.
  etrans; [by apply (versioned_written σ s x v)|]. etrans; [done|].
  destruct Hfin as [[Hfin _]|(e & Hfin & _)]; by apply IHendBatch in Hfin.
Qed.

End versioned_engine.

Lemma engine_versioned fuel : engine_preserves versioned (λ _, True) fuel.
Proof.
  induction fuel as [|fuel IH];
    [by unfold engine_preserves, preserves; split_and!; intros|].
  pose proof (versioned_set_value fuel IH) as Hset.
  destruct IH as (IHpeek & IHcpeek & IHrecompute & IHcheck & IHgetValue & IHget & IHset
                  & IHendBatch & IHloop & IHeffects & IHcallback & IHendEffect & IHbatch & IHrun).
  pose proof preserves_links_only_calls as (Lsub & Lunsub & Lunsubs & Lprep & Lclean & Ltrack & Lfin).
  pose proof (versioned_notify fuel) as [Nnotify Ntargets].
  unfold engine_preserves. split_and!; intros; try apply Hset; engine_unfold.
  all: unfold returnComputed, Effect_start, cycleDetected, readonly_error, startBatch.
  all: pres.
  all: try exact I.
  all: try apply versioned_Computed_store.
  all: try (eapply preserves_weaken; [apply versioned_links|done]).
  all: try (apply preserves_throw_new_error; intros; by apply versioned_same).
  all: try (apply preserves_modify; intros; by apply versioned_same).
  all: try (apply preserves_modEffect; intros; by apply versioned_same).
  all: try (apply preserves_modComputed; intros; eapply versioned_flags; [done|done|];
            intros; simpl;
            first [by apply has_flag_set_flag_other|by apply has_flag_clear_flag_other]).
  apply preserves_modComputed. intros σ x y Hx Hy.
  eapply versioned_signal; [done| |by rewrite Hy].
  split; [simpl; lia|]. intros _. split; [done|].
  unfold error_flag, Signal.map_computed. simpl. by rewrite Hy.
Qed.


(** ** Writes *)

(** [write(v); write(v)] *)
Definition write_twice (fuel : nat) (s : nat) (v : value) : M unit :=
  let* _ := set_value fuel s v in
  set_value fuel s v.

(** Every dependent on the list is an effect. *)
Definition effect_targets (σ : State) (l : list nat) : Prop :=
  ∀ n, n ∈ l → ∃ nd e, nodes σ !! n = Some nd ∧ Node.target nd = TEffect e
                        ∧ is_Some (effects σ !! e).

Lemma notify_effect fuel e σ :
  (0 < fuel)%nat → is_Some (effects σ !! e) →
  ∃ σ', notify fuel (TEffect e) σ = Done (Normal tt) σ'
        ∧ nodes σ' = nodes σ
        ∧ ∀ e', is_Some (effects σ !! e') → is_Some (effects σ' !! e').
Proof.
  intros Hfuel [x Hx]. destruct fuel as [|fuel]; [lia|]. simpl. unfold bind at 1, modify at 1.
  unfold bind at 1. erewrite getEffect_Some by exact Hx.
  destruct (has_flag (Effect._flags x) NOTIFIED); simpl.
  - eexists. split; [reflexivity|]. by split.
  - unfold bind at 1. erewrite modEffect_Some by exact Hx.
    unfold bind at 1, get at 1. unfold bind at 1.
    erewrite modEffect_Some by (simpl; by eapply lookup_insert_same).
    eexists. split; [reflexivity|]. split; [reflexivity|].
    intros e' He'. simpl. apply lookup_lt_is_Some. rewrite !length_insert.
    by apply lookup_lt_is_Some.
Qed.

(** The notification loop over effects returns. *)
Lemma notify_targets_effects l : ∀ fuel h σ,
  chain Node.nextTarget (nodes σ) h l → effect_targets σ l →
  (2 * length l < fuel)%nat →
  ∃ σ', notify_targets fuel h σ = Done (Normal tt) σ'.
Proof.
  induction l as [|n l IH]; intros fuel h σ Hch Hall Hfuel.
  - simpl in Hch. subst h. destruct fuel as [|fuel]; [lia|]. by eexists.
  - destruct Hch as (-> & nd & Hnd & Hch).
    destruct fuel as [|fuel]; [simpl in Hfuel; lia|].
    destruct (Hall n) as (nd' & e & Hnd' & Ht & He); [by left|]. simplify_eq.
    destruct (notify_effect fuel e σ) as (σ1 & Hn & Hnodes & Heffs);
      [simpl in Hfuel; lia|done|].
    cbn [notify_targets]. unfold bind at 1. rewrite (getNode_Some _ _ _ Hnd).
    unfold bind at 1. rewrite Ht, Hn.
    unfold bind at 1. rewrite (getNode_Some σ1 n nd) by (by rewrite Hnodes).
    apply IH.
    + by rewrite Hnodes.
    + intros m Hm. destruct (Hall m) as (md & e' & ? & ? & ?); [by right|].
      exists md, e'. rewrite Hnodes. split_and!; try done. by apply Heffs.
    + simpl in Hfuel. lia.
Qed.

(** After a write that differs, the notifications leave the source as
    written, and the enclosing batch is one deeper than before the write. *)
Lemma notified_write fuel σ s x v r σn :
  is_source σ s x →
  notify_targets fuel (Signal._targets x) (written s x v σ) = Done r σn →
  r = Normal tt
  ∧ is_source σn s (written_record x v)
  ∧ globalVersion σn = globalVersion σ + 1
  ∧ batchDepth σn = batchDepth σ + 1
  ∧ ∀ l n nd, chain Node.nextTarget (nodes σ) (Signal._targets x) l →
      n ∈ l → nodes σ !! n = Some nd → notified σn (Node.target nd).
Proof.
  intros Hs Hn.
  pose proof (proj2 (notify_frame fuel) _ _ _ _ Hn)
    as (-> & Hnodes & Hdepth & _ & Hgv & _ & _ & Hsrc).
  split_and!; [done| |by rewrite Hgv|by rewrite Hdepth|].
  - apply Hsrc. by apply is_source_written.
  - intros l n nd Hch Hin Hnd.
    by eapply (notify_targets_all fuel _ l (written s x v σ)).
Qed.

(** A write inside a batch leaves the source as written. *)
Lemma set_value_in_batch fuel σ s x v r σ' :
  is_source σ s x → strict_neq v (Signal._value x) = true →
  batchIteration σ ≤ 100 → 1 ≤ batchDepth σ →
  set_value (S fuel) s v σ = Done r σ' →
  r = Normal tt ∧ is_source σ' s (written_record x v)
  ∧ batchDepth σ' = batchDepth σ ∧ globalVersion σ' = globalVersion σ + 1.
Proof.
  intros Hs Hv Hbi Hd Hw. rewrite (set_value_differs _ _ _ x) in Hw by done.
  apply try_finally_Done in Hw as (c & σn & Hn & Hfin).
  destruct (notified_write _ _ _ _ _ _ _ Hs Hn) as (-> & Hsrc & Hgv & Hdepth & _).
  destruct fuel as [|fuel]; [by destruct Hfin as [[? _]|(? & ? & _)]|].
  rewrite endBatch_nested in Hfin by lia.
  destruct Hfin as [[Hfin ->]|(e & Hfin & _)]; [|done].
  injection Hfin as <-. split_and!; try done. simpl. lia.
Qed.

(** C5, amended.  For a source [s] with record [x]:
    - writing the stored value, unless it is [NaN], changes nothing, once or
      twice;
    - a write that differs ([v] is not the stored value, or is [NaN]), with
      [batchIteration] at most 100, runs the notification loop from the
      state in which [v] is stored, the version and [globalVersion] are one
      more and a batch is open; when the loop is over the source is still as
      written and every dependent on the list is notified; then the batch is
      ended, and its outcome is the outcome of the write;
    - inside a batch, when all the dependents are effects, such a write
      returns, with the effects pending;
    - inside a batch, [write(v); write(v)] is [write(v)] for every [v] but
      [NaN]: the second write does nothing;
    - anywhere, if the first [write(v)] returns and the source has not been
      written again meanwhile (its version is one more than before, or
      [globalVersion] is), the second [write(v)] does nothing: the state,
      and so the notifications, are those of the first. *)
Theorem write_semantics (fuel : nat) (σ : State) (s : nat) (x : Signal.t) :
  is_source σ s x →
  (Signal._value x ≠ VNaN →
     set_value (S fuel) s (Signal._value x) σ = Done (Normal tt) σ
     ∧ write_twice (S fuel) s (Signal._value x) σ = Done (Normal tt) σ)
  ∧ (∀ v r σ', v ≠ Signal._value x ∨ v = VNaN → batchIteration σ ≤ 100 →
       set_value (S fuel) s v σ = Done r σ' →
       ∃ σn, notify_targets fuel (Signal._targets x) (written s x v σ) = Done (Normal tt) σn
         ∧ is_source σn s (written_record x v)
         ∧ globalVersion σn = globalVersion σ + 1
         ∧ batchDepth σn = batchDepth σ + 1
         ∧ (∀ l n nd, chain Node.nextTarget (nodes σ) (Signal._targets x) l →
              n ∈ l → nodes σ !! n = Some nd → notified σn (Node.target nd))
         ∧ endBatch fuel σn = Done r σ')
  ∧ (∀ v l, v ≠ Signal._value x ∨ v = VNaN → batchIteration σ ≤ 100 →
       1 ≤ batchDepth σ →
       chain Node.nextTarget (nodes σ) (Signal._targets x) l → effect_targets σ l →
       (2 * length l + 1 < fuel)%nat →
       ∃ σ', set_value (S fuel) s v σ = Done (Normal tt) σ'
         ∧ is_source σ' s (written_record x v)
         ∧ globalVersion σ' = globalVersion σ + 1
         ∧ batchDepth σ' = batchDepth σ
         ∧ ∀ n nd, n ∈ l → nodes σ !! n = Some nd → notified σ' (Node.target nd))
  ∧ (∀ v, v ≠ VNaN → 1 ≤ batchDepth σ →
       write_twice (S fuel) s v σ = set_value (S fuel) s v σ)
  ∧ (∀ v σ1 x1, v ≠ VNaN →
       set_value (S fuel) s v σ = Done (Normal tt) σ1 →
       signals σ1 !! s = Some x1 →
       Signal._version x1 ≤ Signal._version x + 1
       ∨ globalVersion σ1 ≤ globalVersion σ + 1 →
       Signal._value x1 = v
       ∧ set_value (S fuel) s v σ1 = Done (Normal tt) σ1
       ∧ write_twice (S fuel) s v σ = Done (Normal tt) σ1).
Proof.
  intros Hs. split_and!.
  - intros Hnan.
    assert (set_value (S fuel) s (Signal._value x) σ = Done (Normal tt) σ) as Hw.
    { apply (set_value_same _ _ _ x); [done|]. by apply strict_neq_same. }
    split; [done|]. unfold write_twice, bind. by rewrite Hw.
  - intros v r σ' Hv Hbi Hw.
    rewrite (set_value_differs _ _ _ x) in Hw; [|done|by apply strict_neq_true|done].
    apply try_finally_Done in Hw as (c & σn & Hn & Hfin).
    destruct (notified_write _ _ _ _ _ _ _ Hs Hn) as (-> & Hsrc & Hgv & Hdepth & Hall).
    exists σn. split_and!; try done.
    destruct Hfin as [[Hfin ->]|(e & Hfin & ->)]; done.
  - intros v l Hv Hbi Hd Hch Hall Hfuel.
    rewrite (set_value_differs _ _ _ x); [|done|by apply strict_neq_true|done].
    destruct (notify_targets_effects l fuel (Signal._targets x) (written s x v σ))
      as [σn Hn]; [done|done|lia|].
    destruct (notified_write _ _ _ _ _ _ _ Hs Hn) as (_ & Hsrc & Hgv & Hdepth & Hnot).
    unfold try_finally. rewrite Hn.
    destruct fuel as [|fuel]; [lia|].
    rewrite endBatch_nested by lia.
    eexists. split; [reflexivity|]. split_and!; try done.
    + simpl. lia.
    + intros n nd Hin Hnd. by apply (Hnot l n nd).
  - intros v Hnan Hd. unfold write_twice, bind.
    destruct (set_value (S fuel) s v σ) as [[[]|e] σ1| |] eqn:Hw; try done.
    destruct (strict_neq v (Signal._value x)) eqn:Hv.
    + destruct (Z.ltb_spec 100 (batchIteration σ)) as [Hbi|Hbi].
      { rewrite (set_value_guard _ _ _ x) in Hw by done. done. }
      destruct (set_value_in_batch _ _ _ _ _ _ _ Hs Hv Hbi Hd Hw) as (_ & Hs1 & _).
      apply (set_value_same _ _ _ _ _ Hs1). simpl. by apply strict_neq_same.
    + rewrite (set_value_same _ _ _ x) in Hw by done. injection Hw as <-.
      by apply (set_value_same _ _ _ x).
  - intros v σ1 x1 Hnan Hw Hx1 Hback.
    assert (is_source σ1 s x1 ∧ Signal._value x1 = v) as [Hs1 Hval].
    { destruct (strict_neq v (Signal._value x)) eqn:Hv.
      - destruct (Z.ltb_spec 100 (batchIteration σ)) as [Hbi|Hbi].
        { rewrite (set_value_guard _ _ _ x) in Hw by done. done. }
        rewrite (set_value_differs _ _ _ x) in Hw by done.
        apply try_finally_Done in Hw as (c & σn & Hn & Hfin).
        assert (versioned (written s x v σ) σ1) as [Hg Hver].
        { etrans; [by apply (proj2 (versioned_notify fuel)) in Hn|].
          destruct Hfin as [[Hfin _]|(e & Hfin & _)];
            by apply (engine_versioned fuel) in Hfin. }
        destruct (Hver s (written_record x v)) as (x' & Hx' & [Hle Heq] & Hp);
          [simpl; eapply lookup_insert_same; apply Hs|].
        rewrite Hx1 in Hx'. injection Hx' as <-.
        destruct Hp as [Hc Hcount]; [simpl; apply Hs|]. simpl in *.
        destruct Heq as [Hval _]; [destruct Hback; lia|].
        by split.
      - rewrite (set_value_same _ _ _ x) in Hw by done. injection Hw as <-.
        destruct Hs as [Hx Hc]. rewrite Hx in Hx1. injection Hx1 as <-.
        split; [by split|]. symmetry. by apply strict_neq_false in Hv as [? _]. }
    assert (set_value (S fuel) s v σ1 = Done (Normal tt) σ1) as Hw2.
    { apply (set_value_same _ _ _ _ _ Hs1). rewrite Hval. by apply strict_neq_same. }
    split_and!; try done. unfold write_twice, bind. by rewrite Hw.
Qed.

(** A source with one effect that reads it; and the same with a batch open. *)
Definition observed_state : State :=
  state_of (let* s := signal (VNum 0) in effect 20 (GetValue s (λ _, Ret VUndefined))).

Definition observed_signal : Signal.t :=
  default (Signal.mk VUndefined 0 None None None) (signals observed_state !! 0%nat).

Definition batch_state : State := set_batchDepth 1 observed_state.

Definition observed_written : State := state_after (set_value 30 0 (VNum 5)) observed_state.

Definition observed_written_signal : Signal.t :=
  default (Signal.mk VUndefined 0 None None None) (signals observed_written !! 0%nat).

Lemma write_semantics_witness :
  write_twice 30 0 (VNum 5) observed_state = Done (Normal tt) observed_written
  ∧ notifications observed_written = (notifications observed_state + 1)%nat
  ∧ ∃ σ', set_value 30 0 (VNum 5) batch_state = Done (Normal tt) σ'
          ∧ globalVersion σ' = globalVersion batch_state + 1
          ∧ write_twice 30 0 (VNum 5) batch_state = Done (Normal tt) σ'.
Proof.
  destruct (write_semantics 29 observed_state 0 observed_signal)
    as (_ & _ & _ & _ & Htwice); [split; vm_compute; reflexivity|].
  destruct (Htwice (VNum 5) observed_written observed_written_signal)
    as (_ & _ & Hw); [done|vm_compute; reflexivity|vm_compute; reflexivity
                     |left; vm_compute; discriminate|].
  split; [exact Hw|]. split; [vm_compute; reflexivity|].
  destruct (write_semantics 29 batch_state 0 observed_signal)
    as (_ & _ & Hbatch & Hsame & _); [split; vm_compute; reflexivity|].
  destruct (Hbatch (VNum 5) [0%nat]) as (σ' & Hw' & _ & Hgv & _);
    [left; vm_compute; discriminate|vm_compute; discriminate|vm_compute; discriminate
    |vm_compute; eauto| |simpl; lia|].
  { intros n Hn. apply list_elem_of_singleton in Hn as ->.
    eexists _, 0%nat. split; [vm_compute; reflexivity|]. split; [reflexivity|].
    vm_compute. eauto. }
  exists σ'. split; [exact Hw'|]. split; [exact Hgv|].
  rewrite Hsame; [exact Hw'|done|vm_compute; discriminate].
Defined.

(** C5 as stated fails.  With an effect that writes the source back, the
    source holds another value when the first [write(5)] returns, so the
    second [write(5)] bumps the version and notifies again; the one dependent
    is notified four times in all (each write and each write-back).  And a
    write of [NaN] over [NaN] is no no-op: the version goes up. *)
Lemma idempotent_write_counterexample :
  (∃ x σ1 x1 σ2 x2,
    is_source reset_state 0 x ∧ VNum 5 ≠ Signal._value x
    ∧ set_value 30 0 (VNum 5) reset_state = Done (Normal tt) σ1
    ∧ is_source σ1 0 x1
    ∧ set_value 30 0 (VNum 5) σ1 = Done (Normal tt) σ2
    ∧ is_source σ2 0 x2
    ∧ Signal._version x1 < Signal._version x2
    ∧ notifications σ2 = (notifications reset_state + 4)%nat)
  ∧ (∃ x σ1 x1,
    is_source (state_of (signal VNaN)) 0 x ∧ Signal._value x = VNaN
    ∧ set_value 30 0 VNaN (state_of (signal VNaN)) = Done (Normal tt) σ1
    ∧ is_source σ1 0 x1
    ∧ Signal._version x1 = Signal._version x + 1
    ∧ globalVersion σ1 = globalVersion (state_of (signal VNaN)) + 1).
Proof.
  split.
  - eexists _, _, _, _, _.
    split; [split; vm_compute; reflexivity|].
    split; [done|].
    split; [vm_compute; reflexivity|].
    split; [split; vm_compute; reflexivity|].
    split; [vm_compute; reflexivity|].
    split; [split; vm_compute; reflexivity|].
    split; vm_compute; reflexivity.
  - eexists _, _, _.
    split; [split; vm_compute; reflexivity|].
    split; [reflexivity|].
    split; [vm_compute; reflexivity|].
    split; [split; vm_compute; reflexivity|].
    split; vm_compute; reflexivity.
Qed.

(** ** The write guard in a drain *)

(** [quiet lo k σ σ']: if at least [lo] batches are open in [σ] and
    [batchIteration] is over 100 there, then in [σ'] the depth has changed
    by [k], [batchIteration] is the same, no effect has been enqueued and no
    source has been written. *)
Definition quiet (lo k : Z) (σ σ' : State) : Prop :=
  lo ≤ batchDepth σ → 100 < batchIteration σ →
  batchDepth σ' = batchDepth σ + k
  ∧ batchIteration σ' = batchIteration σ
  ∧ batchedEffect σ' = batchedEffect σ
  ∧ globalVersion σ' = globalVersion σ.

#[global] Instance quiet_preorder : PreOrder (quiet 1 0).
Proof.
  split.
  - intros σ _ _. split_and!; [lia|done|done|done].
  - intros σ1 σ2 σ3 H12 H23 Hd Hbi. destruct (H12 Hd Hbi) as (? & ? & ? & ?).
    destruct H23 as (? & ? & ? & ?); [lia|lia|]. split_and!; [lia|congruence..].
Qed.

Lemma quiet_other lo σ σ' :
  batchDepth σ' = batchDepth σ → batchIteration σ' = batchIteration σ →
  batchedEffect σ' = batchedEffect σ → globalVersion σ' = globalVersion σ →
  quiet lo 0 σ σ'.
Proof. intros ? ? ? ? _ _. split_and!; [lia|done..]. Qed.

Lemma quiet_links lo σ σ' : links_only σ σ' → quiet lo 0 σ σ'.
Proof.
  intros Hl. apply quiet_other;
    [apply (lo_batchDepth _ _ Hl)|apply (lo_batchIteration _ _ Hl)
    |apply (lo_batchedEffect _ _ Hl)|apply (lo_globalVersion _ _ Hl)].
Qed.

(** Closes a goal [quiet lo k σ σ'] from the [quiet] facts of the calls in
    between. *)
Ltac quiet_chain :=
  unfold quiet in *; intros; simpl in *;
  repeat match goal with
         | H : links_only _ _ |- _ => apply (quiet_links 0) in H; unfold quiet in H
         end;
  repeat match goal with
         | H : _ ≤ batchDepth ?σ → 100 < batchIteration ?σ → _ |- _ =>
             destruct H as (? & ? & ? & ?); [simpl in *; lia|simpl in *; lia|]
         end;
  simpl in *; split_and!; first [lia|congruence].

Ltac quiet_prim :=
  match goal with
  | |- preserves _ (modComputed _ _) =>
      apply preserves_modComputed; intros; by apply quiet_other
  | |- preserves _ (modSignal _ _) =>
      apply preserves_modSignal; intros; by apply quiet_other
  | |- preserves _ (modify _) =>
      apply preserves_modify; intros; by apply quiet_other
  | |- preserves _ (throw_new_error _) =>
      apply preserves_throw_new_error; intros; by apply quiet_other
  | |- preserves (quiet 1 0) _ =>
      eapply preserves_weaken; [apply quiet_links|]; apply preserves_links_only_calls
  end.

Definition engine_quiet (fuel : nat) : Prop :=
  (∀ s, preserves (quiet 1 0) (peek fuel s))
  ∧ (∀ s, preserves (quiet 1 0) (Computed_peek fuel s))
  ∧ (∀ s, preserves (quiet 1 0) (Computed_recompute fuel s))
  ∧ (∀ h, preserves (quiet 1 0) (Computed_check_sources fuel h))
  ∧ (∀ s, preserves (quiet 1 0) (getValue fuel s))
  ∧ (∀ s, preserves (quiet 1 0) (get_value fuel s))
  ∧ (∀ s v, preserves (quiet 1 0) (set_value fuel s v))
  ∧ preserves (quiet 2 (-1)) (endBatch fuel)
  ∧ (∀ e, preserves (quiet 1 0) (Effect_callback fuel e))
  ∧ (∀ e p, preserves (quiet 2 (-1)) (endEffect fuel e p))
  ∧ (∀ cb, preserves (quiet 1 0) (batch fuel cb))
  ∧ (∀ p, preserves (quiet 1 0) (run fuel p)).

Lemma quiet_endBatch fuel : preserves (quiet 2 (-1)) (endBatch fuel).
Proof.
  destruct fuel as [|fuel]; [done|].
  intros σ r σ' H Hd Hbi. engine_unfold in H. minv.
  destruct (Z.ltb_spec 1 (batchDepth σ)); [|lia]. minv.
  split_and!; [simpl; lia|done..].
Qed.

(** With [batchIteration] over 100 a write either writes the stored value
    again or throws at the guard. *)
Lemma quiet_set_value fuel s v : preserves (quiet 1 0) (set_value (S fuel) s v).
Proof.
  intros σ r σ' H Hd Hbi.
  destruct (signals σ !! s) as [x|] eqn:Hx; last first.
  { engine_unfold in H. unfold bind, getSignal in H. by rewrite Hx in H. }
  destruct (Signal.computed x) as [y|] eqn:Hy.
  { engine_unfold in H. unfold bind, getSignal in H. rewrite Hx, Hy in H.
    apply throw_new_error_Done in H as [_ ->]. split_and!; [simpl; lia|done..]. }
  destruct (strict_neq v (Signal._value x)) eqn:Hv.
  - rewrite (set_value_guard _ _ _ x) in H by done. injection H as _ <-.
    split_and!; [simpl; lia|done..].
  - rewrite (set_value_same _ _ _ x) in H by done. injection H as _ <-.
    split_and!; [lia|done..].
Qed.

Section quiet_engine.
Context (fuel : nat).
Hypothesis IH : engine_quiet fuel.

Lemma quiet_endEffect e p : preserves (quiet 2 (-1)) (endEffect (S fuel) e p).
Proof.
  destruct IH as (_ & _ & _ & _ & _ & _ & _ & IHendBatch & _).
  intros σ r σ' H. engine_unfold in H. minv_case.
  all: repeat match goal with
       | H : cleanupSources _ _ _ = Done _ _ |- _ =>
           apply cleanupSources_links in H as [? ?]; simplify_eq
       | H : endBatch _ _ = Done _ _ |- _ => apply IHendBatch in H
       end.
  all: quiet_chain.
Qed.

Lemma quiet_Effect_callback e : preserves (quiet 1 0) (Effect_callback (S fuel) e).
Proof.
  destruct IH as (_ & _ & _ & _ & _ & _ & _ & _ & _ & IHendEffect & _ & IHrun).
  intros σ r σ' H. engine_unfold in H.
  unfold Effect_start, cycleDetected, startBatch in H. minv_case.
  all: repeat match goal with
       | H : try_finally _ _ _ = Done _ _ |- _ =>
           apply try_finally_Done in H as (? & ? & ? & [[? ?]|(? & ? & ?)])
       end; minv.
  all: repeat match goal with
       | H : prepareSources _ _ _ = Done _ _ |- _ =>
           apply prepareSources_links in H as [? ?]; simplify_eq
       | H : run _ _ _ = Done _ _ |- _ => apply IHrun in H
       | H : endEffect _ _ _ _ = Done _ _ |- _ => apply IHendEffect in H
       end.
  all: quiet_chain.
Qed.

Lemma quiet_batch cb : preserves (quiet 1 0) (batch (S fuel) cb).
Proof.
  destruct IH as (_ & _ & _ & _ & _ & _ & _ & _ & _ & _ & _ & IHrun).
  intros σ r σ' H. engine_unfold in H. minv.
  destruct (Z.ltb_spec 0 (batchDepth σ)).
  - by eapply IHrun.
  - intros Hd. lia.
Qed.

End quiet_engine.

Lemma engine_is_quiet fuel : engine_quiet fuel.
Proof.
  induction fuel as [|fuel IH];
    [by unfold engine_quiet, preserves; split_and!; intros|].
  pose proof (quiet_set_value fuel) as Hset.
  pose proof (quiet_endEffect fuel IH) as HendEffect.
  pose proof (quiet_Effect_callback fuel IH) as Hcallback.
  pose proof (quiet_batch fuel IH) as Hbatch.
  pose proof (quiet_endBatch (S fuel)) as HendBatch.
  destruct IH as (IHpeek & IHcpeek & IHrecompute & IHcheck & IHgetValue & IHget & IHset
                  & IHendBatch & IHcallback & IHendEffect & IHbatch & IHrun).
  unfold engine_quiet. split_and!; intros; try done.
  all: engine_unfold; unfold returnComputed, Computed_store, cycleDetected.
  all: pres; try quiet_prim.
Qed.

(** ** The passes of a drain *)

Lemma quiet_callback fuel e : preserves (quiet 1 0) (Effect_callback fuel e).
Proof. apply engine_is_quiet. Qed.

Lemma drain_one_quiet fuel e acc σ r σ' :
  drain_one fuel e acc σ = Done r σ' → 1 ≤ batchDepth σ → 100 < batchIteration σ →
  batchDepth σ' = batchDepth σ ∧ batchIteration σ' = batchIteration σ
  ∧ batchedEffect σ' = batchedEffect σ ∧ globalVersion σ' = globalVersion σ.
Proof.
  unfold drain_one. intros H Hd Hbi. minv.
  all: match goal with H : Effect_callback _ _ _ = Done _ _ |- _ =>
         apply quiet_callback in H; destruct H as (? & ? & ? & ?);
           [simpl; lia|simpl; lia|] end.
  - simpl in *. split_and!; [lia|done..].
  - destruct acc as [a []]; simpl in *; minv; (split_and!; [lia|done..]).
Qed.

(** In a pass with [batchIteration] over 100 no effect is enqueued and no
    source is written. *)
Lemma drain_list_quiet fuel es acc σ r σ' :
  drain_list fuel es acc σ = Done r σ' → 1 ≤ batchDepth σ → 100 < batchIteration σ →
  batchedEffect σ' = batchedEffect σ ∧ globalVersion σ' = globalVersion σ.
Proof.
  revert es acc σ. induction fuel as [|fuel IH]; [done|].
  intros es acc σ H Hd Hbi. simpl in H. destruct es as [|e es].
  - by minv.
  - apply bind_Done in H as [(acc1 & σ1 & H1 & H)|(e0 & H1 & ?)].
    + destruct (drain_one_quiet _ _ _ _ _ _ H1 Hd Hbi) as (Hd1 & Hi1 & Hb1 & Hg1).
      apply IH in H as [? ?]; [|lia|lia]. split; congruence.
    + by apply drain_one_result in H1 as (σ0 & c & _ & Hr).
Qed.

Lemma drain_list_normal fuel es acc σ e σ' :
  drain_list fuel es acc σ ≠ Done (Throws e) σ'.
Proof.
  revert es acc σ. induction fuel as [|fuel IH]; [done|].
  intros es acc σ H. simpl in H. destruct es as [|e0 es]; [by minv|].
  apply bind_Done in H as [(acc1 & σ1 & H1 & H)|(e1 & H1 & ?)].
  - by apply IH in H.
  - by apply drain_one_result in H1 as (σ0 & c & _ & Hr).
Qed.




(** The pass in which [batchIteration] is 101 is the last one. *)
Lemma endBatch_loop_last fuel e es err he σ r σ' :
  batchedEffect σ = Some e → queue (effects σ) (Some e) es → 1 ≤ batchDepth σ →
  100 ≤ batchIteration σ →
  endBatch_loop (S (S fuel)) err he σ = Done r σ' →
  ∃ acc σ1,
    drain_list (S fuel) es (err, he)
      (set_batchIteration (batchIteration σ + 1) (set_batchedEffect None σ))
    = Done (Normal acc) σ1
    ∧ globalVersion σ1 = globalVersion σ
    ∧ r = (if acc.2 then Throws acc.1 else Normal tt)
    ∧ σ' = set_batchDepth (batchDepth σ1 - 1) (set_batchIteration 0 σ1).
Proof.
  intros Hb Hq Hd Hbi H. rewrite (endBatch_loop_pass _ e es) in H by done.
  apply bind_Done in H as [(acc & σ1 & H1 & H)|(e0 & H1 & ?)];
    [|by apply drain_list_normal in H1].
  destruct (drain_list_quiet _ _ _ _ _ _ H1) as [Hb1 Hg1]; [simpl; lia|simpl; lia|].
  simpl in Hb1, Hg1. rewrite endBatch_loop_end in H by done.
  injection H as <- <-. by exists acc, σ1.
Qed.







(** ** Versions across user closures *)

(** Whatever a user closure does (reads, writes, peeks, batches, and what
    the effects and formulas run by them do), every signal is still there
    afterwards with a version that has not decreased; if the version is the
    same, then so are the value and the error state.  [globalVersion] has
    not decreased either, and if it is the same then no plain signal has
    changed its value. *)
Theorem versions_identify_values fuel p σ r σ' s x :
  run fuel p σ = Done r σ' → signals σ !! s = Some x →
  ∃ x', signals σ' !! s = Some x'
    ∧ Signal._version x ≤ Signal._version x'
    ∧ (Signal._version x' = Signal._version x →
       Signal._value x' = Signal._value x ∧ error_flag x' = error_flag x)
    ∧ globalVersion σ ≤ globalVersion σ'
    ∧ (Signal.computed x = None →
       Signal.computed x' = None
       ∧ (globalVersion σ' = globalVersion σ → Signal._value x' = Signal._value x)).
Proof.
  intros H Hx.
  destruct (engine_versioned fuel) as (_ & _ & _ & _ & _ & _ & _ & _ & _ & _ & _ & _ & _ & Hrun).
  destruct (Hrun p _ _ _ H) as [Hg Hs].
  destruct (Hs _ _ Hx) as (x' & Hx' & [Hle Heq] & Hp).
  exists x'. split_and!; try done.
  intros Hc. destruct (Hp Hc) as [Hc' Hcount]. split; [done|].
  intros Hgv. apply Heq. lia.
Qed.

Definition write_and_restore : prog :=
  SetValue 0 (VNum 5) (SetValue 0 (VNum 1) (Ret VUndefined)).

Lemma versions_identify_values_witness :
  ∃ x', signals (state_after (run 10 write_and_restore) (state_of (signal (VNum 1)))) !! 0%nat
        = Some x'
    ∧ Signal._value x' = VNum 1 ∧ 0 ≤ Signal._version x'.
Proof.
  destruct (versions_identify_values 10 write_and_restore (state_of (signal (VNum 1)))
              (Normal VUndefined)
              (state_after (run 10 write_and_restore) (state_of (signal (VNum 1))))
              0%nat (Signal.mk (VNum 1) 0 None None None))
    as (x' & Hx' & Hle & _); [vm_compute; reflexivity|reflexivity|].
  exists x'. split; [exact Hx'|]. split; [|exact Hle].
  vm_compute in Hx'. by injection Hx' as <-.
Defined.

(** ** Outside of a batch no effect stays pending *)

(** No batch is open, no drain is going on and no effect is pending. *)
Definition settled (σ : State) : Prop :=
  batchDepth σ = 0 ∧ batchIteration σ = 0 ∧ batchedEffect σ = None.

Definition settles : relation State := λ σ σ', settled σ → settled σ'.

#[global] Instance settles_preorder : PreOrder settles.
Proof.
  split; [intros σ H; exact H|]. intros σ1 σ2 σ3 H12 H23 H. by apply H23, H12.
Qed.

Lemma settles_same σ σ' :
  batchDepth σ' = batchDepth σ → batchIteration σ' = batchIteration σ →
  batchedEffect σ' = batchedEffect σ → settles σ σ'.
Proof. intros Hd Hi Hb (? & ? & ?). unfold settled. rewrite Hd, Hi, Hb. done. Qed.

Lemma settles_links σ σ' : links_only σ σ' → settles σ σ'.
Proof.
  intros Hl. apply settles_same; [apply (lo_batchDepth _ _ Hl)
    |apply (lo_batchIteration _ _ Hl)|apply (lo_batchedEffect _ _ Hl)].
Qed.

(** The end of the outermost batch leaves nothing pending, whether it
    returns or throws. *)
Lemma endBatch_settles fuel σ r σ' :
  endBatch fuel σ = Done r σ' → batchDepth σ = 1 → settled σ'.
Proof.
  intros H Hd. destruct fuel as [|fuel]; [done|].
  rewrite endBatch_outermost in H by lia.
  apply endBatch_loop_result in H as (? & ? & ? & _); [|lia].
  split_and!; [lia|done|done].
Qed.

Definition engine_settles (fuel : nat) : Prop :=
  (∀ s, preserves settles (peek fuel s))
  ∧ (∀ s, preserves settles (Computed_peek fuel s))
  ∧ (∀ s, preserves settles (Computed_recompute fuel s))
  ∧ (∀ h, preserves settles (Computed_check_sources fuel h))
  ∧ (∀ s, preserves settles (getValue fuel s))
  ∧ (∀ s, preserves settles (get_value fuel s))
  ∧ (∀ s v, preserves settles (set_value fuel s v))
  ∧ (∀ e, preserves settles (Effect_callback fuel e))
  ∧ (∀ cb, preserves settles (batch fuel cb))
  ∧ (∀ p, preserves settles (run fuel p)).

Lemma settles_set_value fuel s v : preserves settles (set_value (S fuel) s v).
Proof.
  intros σ r σ' H Hs.
  destruct (signals σ !! s) as [x|] eqn:Hx; last first.
  { engine_unfold in H. unfold bind, getSignal in H. by rewrite Hx in H. }
  destruct (Signal.computed x) as [y|] eqn:Hy.
  { engine_unfold in H. unfold bind, getSignal in H. rewrite Hx, Hy in H.
    by apply throw_new_error_Done in H as [_ ->]. }
  destruct (strict_neq v (Signal._value x)) eqn:Hv; last first.
  { rewrite (set_value_same _ _ _ x) in H by done. by injection H as _ <-. }
  destruct Hs as (Hd & Hi & Hb).
  rewrite (set_value_differs _ _ _ x) in H by (done || lia).
  apply try_finally_Done in H as (c & σ1 & Hn & Hfin).
  apply (proj2 (depth_rel_notify 1 fuel)) in Hn. destruct Hn as (Hd1 & _); [simpl; lia|].
  simpl in Hd1.
  destruct Hfin as [[Hfin _]|(e & Hfin & _)]; apply endBatch_settles in Hfin; (done || lia).
Qed.

Lemma settles_batch fuel cb : preserves settles (batch (S fuel) cb).
Proof.
  intros σ r σ' H (Hd & Hi & Hb). engine_unfold in H.
  unfold bind at 1, get in H. rewrite Hd in H. simpl in H.
  unfold startBatch in H. rewrite bind_modify in H.
  apply try_finally_Done in H as (c & σ1 & Hr & Hfin).
  destruct (engine_is_balanced fuel) as (_ & _ & _ & _ & _ & _ & _ & _ & _ & _ & _ & Hrun).
  apply Hrun in Hr. destruct Hr as (Hd1 & _); [simpl; lia|]. simpl in Hd1.
  destruct Hfin as [[Hfin _]|(e & Hfin & _)]; apply endBatch_settles in Hfin; (done || lia).
Qed.

Lemma endEffect_settles fuel e p σ r σ' :
  endEffect fuel e p σ = Done r σ' → batchDepth σ = 1 → settled σ'.
Proof.
  intros H Hd. destruct fuel as [|fuel]; [done|]. engine_unfold in H.
  apply bind_Done in H as [(? & σ1 & Hc & H)|(? & Hc & _)];
    [|by apply cleanupSources_links in Hc as [? _]].
  apply cleanupSources_links in Hc as [_ Hl].
  rewrite bind_modify in H.
  apply bind_Done in H as [(? & σ2 & Hend & H)|(? & Hend & _)];
    apply endBatch_settles in Hend;
    try (simpl; by rewrite (lo_batchDepth _ _ Hl)).
  - by apply modEffect_Done in H as (y & _ & _ & ->).
  - done.
Qed.

Lemma settles_Effect_callback fuel e : preserves settles (Effect_callback (S fuel) e).
Proof.
  intros σ r σ' H (Hd & Hi & Hb). engine_unfold in H.
  unfold Effect_start, cycleDetected, startBatch in H. minv_case.
  all: repeat match goal with
       | H : try_finally _ _ _ = Done _ _ |- _ =>
           apply try_finally_Done in H as (? & ? & ? & [[? ?]|(? & ? & ?)])
       end; minv.
  all: try (by split_and!).
  all: repeat match goal with
       | H : prepareSources _ _ _ = Done (Throws _) _ |- _ =>
           by apply prepareSources_links in H as [? _]
       | H : prepareSources _ _ _ = Done _ _ |- _ =>
           apply prepareSources_links in H as [_ H]
       end.
  all: destruct (engine_is_balanced fuel)
         as (_ & _ & _ & _ & _ & _ & _ & _ & _ & _ & _ & Hrun).
  all: match goal with
       | Hr : run _ _ _ = Done _ _, Hl : links_only _ _,
         He : endEffect _ _ _ _ = Done _ _ |- _ =>
           apply Hrun in Hr; destruct Hr as (Hd1 & _);
           [simpl; rewrite (lo_batchDepth _ _ Hl); simpl; lia|];
           simpl in Hd1; rewrite (lo_batchDepth _ _ Hl) in Hd1; simpl in Hd1;
           apply endEffect_settles in He; [done|lia]
       end.
Qed.

Lemma engine_is_settled fuel : engine_settles fuel.
Proof.
  induction fuel as [|fuel IH];
    [by unfold engine_settles, preserves; split_and!; intros|].
  pose proof (settles_set_value fuel) as Hset.
  pose proof (settles_Effect_callback fuel) as Hcallback.
  pose proof (settles_batch fuel) as Hbatch.
  destruct IH as (IHpeek & IHcpeek & IHrecompute & IHcheck & IHgetValue & IHget & IHset
                  & IHcallback & IHbatch & IHrun).
  pose proof preserves_links_only_calls as (Lsub & Lunsub & Lunsubs & Lprep & Lclean & Ltrack & Lfin).
  unfold engine_settles. split_and!; intros; try done.
  all: engine_unfold; unfold returnComputed, Computed_store, cycleDetected.
  all: pres.
  all: try (eapply preserves_weaken; [apply settles_links|done]).
  all: try (apply preserves_throw_new_error; intros; by apply settles_same).
  all: try (apply preserves_modify; intros; by apply settles_same).
  all: try (apply preserves_modComputed; intros; by apply settles_same).
  all: try (apply preserves_modSignal; intros; by apply settles_same).
Qed.

(** A call made while no batch is open and no effect is pending leaves
    things so, whether it returns or throws: a user closure (reads, writes,
    peeks, batches), the creation of an effect, the disposal of one. *)
Theorem nothing_stays_pending fuel σ :
  settled σ →
  (∀ p r σ', run fuel p σ = Done r σ' → settled σ')
  ∧ (∀ cb r σ', effect fuel cb σ = Done r σ' → settled σ')
  ∧ (∀ e r σ', Effect_dispose fuel e σ = Done r σ' → settled σ').
Proof.
  intros Hs.
  destruct (engine_is_settled fuel) as (_ & _ & _ & _ & _ & _ & _ & Hcb & _ & Hrun).
  split_and!.
  - intros p r σ' H. by eapply Hrun.
  - intros cb r σ' H. unfold effect in H.
    apply bind_Done in H as [(e & σ1 & [= <- <-] & H)|(? & [=] & _)].
    apply bind_Done in H as [(? & σ2 & H1 & H)|(? & H1 & _)].
    + apply ret_Done in H as [_ ->]. eapply Hcb; [done|]. exact Hs.
    + eapply Hcb; [done|]. exact Hs.
  - intros e r σ' H. unfold Effect_dispose in H.
    apply bind_Done in H as [(x & σ1 & H1 & H)|(? & H1 & _)];
      apply getEffect_Done in H1 as (? & ? & ? & ->); [|done].
    apply bind_Done in H as [(? & σ2 & H2 & H)|(? & H2 & _)].
    + apply (proj2 (unsubscribe_links fuel)) in H2 as [_ Hl].
      apply (settles_links _ _ Hl) in Hs.
      by apply modEffect_Done in H as (y & _ & _ & ->).
    + by apply (proj2 (unsubscribe_links fuel)) in H2 as [? _].
Qed.

Lemma nothing_stays_pending_witness :
  settled (state_after (run 20 (SetValue 0 (VNum 5) (Ret VUndefined))) observed_state)
  ∧ runs (state_after (run 20 (SetValue 0 (VNum 5) (Ret VUndefined))) observed_state)
    = (runs observed_state + 1)%nat.
Proof.
  split; [|vm_compute; reflexivity].
  destruct (nothing_stays_pending 20 observed_state) as (Hrun & _ & _).
  - vm_compute. done.
  - apply (Hrun (SetValue 0 (VNum 5) (Ret VUndefined)) (Normal VUndefined)).
    vm_compute. reflexivity.
Defined.

(** ** Inside a batch no effect runs *)

(** [deferred σ σ']: if a batch is open in [σ], then from [σ] to [σ'] no
    body of an effect has been entered. *)
Definition deferred : relation State := λ σ σ',
  1 ≤ batchDepth σ → batchDepth σ' = batchDepth σ ∧ runs σ' = runs σ.

#[global] Instance deferred_preorder : PreOrder deferred.
Proof.
  split; [by intros σ _|]. intros σ1 σ2 σ3 H12 H23 Hd.
  destruct (H12 Hd) as [Hd2 Hr2]. destruct H23 as [Hd3 Hr3]; [lia|]. split; congruence.
Qed.

Lemma deferred_same σ σ' :
  batchDepth σ' = batchDepth σ → log σ' = log σ → deferred σ σ'.
Proof. intros Hd Hl _. unfold runs. by rewrite Hl. Qed.

Lemma runs_app σ σ' l :
  log σ' = log σ ++ l → Forall (λ ev, is_run ev = false) l → runs σ' = runs σ.
Proof.
  intros Hl Hall. unfold runs. rewrite Hl, filter_app, length_app. clear Hl.
  replace (filter is_run l) with (@nil event); [simpl; lia|].
  symmetry. induction Hall as [|ev l Hev _ IH]; [done|].
  rewrite filter_cons. destruct (decide (is_run ev)) as [Ht|_]; [|exact IH].
  rewrite Hev in Ht. done.
Qed.

Lemma deferred_links σ σ' : links_only σ σ' → deferred σ σ'.
Proof.
  intros Hl _. split; [apply (lo_batchDepth _ _ Hl)|].
  destruct (lo_log _ _ Hl) as (l & Hlog & Hall). eapply runs_app; [done|].
  eapply Forall_impl; [done|]. by intros [].
Qed.

Lemma deferred_log σ ev : is_run ev = false → deferred σ (add_log ev σ).
Proof. intros Hev _. split; [done|]. by apply (runs_app _ _ [ev]); [|constructor]. Qed.

Lemma deferred_notify fuel :
  (∀ t, preserves deferred (notify fuel t))
  ∧ (∀ h, preserves deferred (notify_targets fuel h)).
Proof.
  assert (∀ σ0,
     (∀ t σ r σ', deferred σ0 σ → notify fuel t σ = Done r σ' → deferred σ0 σ' ∧ r = Normal tt)
     ∧ (∀ h σ r σ', deferred σ0 σ → notify_targets fuel h σ = Done r σ'
          → deferred σ0 σ' ∧ r = Normal tt)) as H.
  { intros σ0. apply notify_preserves.
    - intros σ t H. etrans; [done|by apply deferred_log].
    - intros σ c x y H Hx Hy _. etrans; [done|]. by apply deferred_same.
    - intros σ e x H Hx _. etrans; [done|]. by apply deferred_same. }
  split; intros ? σ r σ' Hr; eapply H in Hr; try apply Hr; done.
Qed.

Definition engine_defers (fuel : nat) : Prop :=
  (∀ s, preserves deferred (peek fuel s))
  ∧ (∀ s, preserves deferred (Computed_peek fuel s))
  ∧ (∀ s, preserves deferred (Computed_recompute fuel s))
  ∧ (∀ h, preserves deferred (Computed_check_sources fuel h))
  ∧ (∀ s, preserves deferred (getValue fuel s))
  ∧ (∀ s, preserves deferred (get_value fuel s))
  ∧ (∀ s v, preserves deferred (set_value fuel s v))
  ∧ (∀ cb, preserves deferred (batch fuel cb))
  ∧ (∀ p, preserves deferred (run fuel p)).

Lemma deferred_set_value fuel s v : preserves deferred (set_value (S fuel) s v).
Proof.
  intros σ r σ' H Hd.
  destruct (signals σ !! s) as [x|] eqn:Hx; last first.
  { engine_unfold in H. unfold bind, getSignal in H. by rewrite Hx in H. }
  destruct (Signal.computed x) as [y|] eqn:Hy.
  { engine_unfold in H. unfold bind, getSignal in H. rewrite Hx, Hy in H.
    by apply throw_new_error_Done in H as [_ ->]. }
  destruct (strict_neq v (Signal._value x)) eqn:Hv; last first.
  { rewrite (set_value_same _ _ _ x) in H by done. by injection H as _ <-. }
  destruct (Z.ltb_spec 100 (batchIteration σ)) as [Hbi|Hbi].
  { rewrite (set_value_guard _ _ _ x) in H by done. by injection H as _ <-. }
  rewrite (set_value_differs _ _ _ x) in H by done.
  apply try_finally_Done in H as (c & σ1 & Hn & Hfin).
  apply (proj2 (deferred_notify fuel)) in Hn. destruct Hn as [Hd1 Hr1]; [simpl; lia|].
  simpl in Hd1. change (runs (written s x v σ)) with (runs σ) in Hr1.
  destruct fuel as [|fuel]; [by destruct Hfin as [[? _]|(? & ? & _)]|].
  rewrite endBatch_nested in Hfin by lia.
  destruct Hfin as [[[= <-] _]|(e & [=] & _)]. split; [simpl; lia|done].
Qed.

Lemma engine_is_deferring fuel : engine_defers fuel.
Proof.
  induction fuel as [|fuel IH];
    [by unfold engine_defers, preserves; split_and!; intros|].
  pose proof (deferred_set_value fuel) as Hset.
  assert (∀ cb, preserves deferred (batch (S fuel) cb)) as Hbatch.
  { destruct IH as (_ & _ & _ & _ & _ & _ & _ & _ & IHrun).
    intros cb σ r σ' H. engine_unfold in H. minv.
    destruct (Z.ltb_spec 0 (batchDepth σ)); [by eapply IHrun|]. intros Hd. lia. }
  destruct IH as (IHpeek & IHcpeek & IHrecompute & IHcheck & IHgetValue & IHget & IHset
                  & IHbatch & IHrun).
  pose proof preserves_links_only_calls as (Lsub & Lunsub & Lunsubs & Lprep & Lclean & Ltrack & Lfin).
  unfold engine_defers. split_and!; intros; try done.
  all: engine_unfold; unfold returnComputed, Computed_store, cycleDetected.
  all: pres.
  all: try (eapply preserves_weaken; [apply deferred_links|done]).
  all: try (apply preserves_throw_new_error; intros; by apply deferred_same).
  all: try (apply preserves_modify; intros; first [by apply deferred_same|by apply deferred_log]).
  all: try (apply preserves_modComputed; intros; by apply deferred_same).
  all: try (apply preserves_modSignal; intros; by apply deferred_same).
Qed.

(** While a batch is open, a user closure (reads, writes, peeks, nested
    batches) enters the body of no effect and leaves the batch open at the
    same depth; the effects that were pending are still pending, in the same
    order, behind the ones that the closure's writes have added. *)
Theorem batch_defers_effects fuel p σ r σ' es :
  1 ≤ batchDepth σ → queue (effects σ) (batchedEffect σ) es →
  run fuel p σ = Done r σ' →
  batchDepth σ' = batchDepth σ ∧ runs σ' = runs σ
  ∧ ∃ added, queue (effects σ') (batchedEffect σ') (added ++ es).
Proof.
  intros Hd Hq H.
  destruct (engine_is_deferring fuel) as (_ & _ & _ & _ & _ & _ & _ & _ & Hrun).
  destruct (Hrun p _ _ _ H Hd) as [Hd' Hr].
  destruct (engine_is_balanced fuel) as (_ & _ & _ & _ & _ & _ & _ & _ & _ & _ & _ & Hbal).
  destruct (Hbal p _ _ _ H Hd) as (_ & _ & _ & Hgrow).
  destruct (Hgrow _ Hq) as (added & Hq' & _). eauto.
Qed.

Lemma batch_defers_effects_witness :
  runs (state_after (run 20 (SetValue 0 (VNum 5) (Ret VUndefined)))
          (set_batchDepth 1 observed_state))
  = runs observed_state
  ∧ ∃ added, queue (effects (state_after (run 20 (SetValue 0 (VNum 5) (Ret VUndefined)))
                               (set_batchDepth 1 observed_state)))
               (batchedEffect (state_after (run 20 (SetValue 0 (VNum 5) (Ret VUndefined)))
                                 (set_batchDepth 1 observed_state)))
               (added ++ []).
Proof.
  destruct (batch_defers_effects 20 (SetValue 0 (VNum 5) (Ret VUndefined))
              (set_batchDepth 1 observed_state) (Normal VUndefined)
              (state_after (run 20 (SetValue 0 (VNum 5) (Ret VUndefined)))
                 (set_batchDepth 1 observed_state)) [])
    as (_ & Hr & Hq).
  - vm_compute. done.
  - reflexivity.
  - vm_compute. reflexivity.
  - split; [exact Hr|exact Hq].
Defined.

(** ** The evaluation context is restored *)

Definition same_context : relation State := λ σ σ', evalContext σ' = evalContext σ.

#[global] Instance same_context_preorder : PreOrder same_context.
Proof. split; [done|]. intros σ1 σ2 σ3 H12 H23. unfold same_context in *. congruence. Qed.

Lemma same_context_links σ σ' : links_only σ σ' → same_context σ σ'.
Proof. intros Hl. apply (lo_evalContext _ _ Hl). Qed.

Lemma same_context_notify fuel :
  (∀ t, preserves same_context (notify fuel t))
  ∧ (∀ h, preserves same_context (notify_targets fuel h)).
Proof.
  assert (∀ σ0,
     (∀ t σ r σ', same_context σ0 σ → notify fuel t σ = Done r σ'
        → same_context σ0 σ' ∧ r = Normal tt)
     ∧ (∀ h σ r σ', same_context σ0 σ → notify_targets fuel h σ = Done r σ'
          → same_context σ0 σ' ∧ r = Normal tt)) as H.
  { intros σ0. apply notify_preserves; intros; done. }
  split; intros ? σ r σ' Hr; eapply H in Hr; try apply Hr; done.
Qed.

Definition engine_restores (fuel : nat) : Prop :=
  (∀ s, preserves same_context (peek fuel s))
  ∧ (∀ s, preserves same_context (Computed_peek fuel s))
  ∧ (∀ s, preserves same_context (Computed_recompute fuel s))
  ∧ (∀ h, preserves same_context (Computed_check_sources fuel h))
  ∧ (∀ s, preserves same_context (getValue fuel s))
  ∧ (∀ s, preserves same_context (get_value fuel s))
  ∧ (∀ s v, preserves same_context (set_value fuel s v))
  ∧ preserves same_context (endBatch fuel)
  ∧ (∀ err h, preserves same_context (endBatch_loop fuel err h))
  ∧ (∀ eff err h, preserves same_context (endBatch_effects fuel eff err h))
  ∧ (∀ e, preserves same_context (Effect_callback fuel e))
  ∧ (∀ e p σ r σ', endEffect fuel e p σ = Done r σ' → evalContext σ' = p)
  ∧ (∀ cb, preserves same_context (batch fuel cb))
  ∧ (∀ p, preserves same_context (run fuel p)).

(** Whatever the formula does, and whether it returns or throws. *)
Lemma same_context_Computed_recompute fuel s :
  preserves same_context (Computed_recompute fuel s).
Proof.
  intros σ r σ' H. destruct fuel as [|fuel]; [done|]. engine_unfold in H. minv.
  all: try match goal with
       | Hp : prepareSources _ _ _ = Done (Throws _) _ |- _ =>
           by apply prepareSources_links in Hp as [? _]
       end.
  all: try match goal with
       | Hp : cleanupSources _ _ _ = Done (Throws _) _ |- _ =>
           by apply cleanupSources_links in Hp as [? _]
       end.
  all: repeat match goal with
       | Hs : Computed_store _ _ _ _ = Done _ _ |- _ =>
           apply Computed_store_edges, edges_evalContext in Hs
       | Hs : returnComputed _ _ = Done _ _ |- _ =>
           apply returnComputed_edges, edges_evalContext in Hs
       end.
  all: unfold same_context; simpl in *; congruence.
Qed.

Section restores_engine.
Context (fuel : nat).
Hypothesis IH : engine_restores fuel.

Lemma endEffect_context e p σ r σ' :
  endEffect (S fuel) e p σ = Done r σ' → evalContext σ' = p.
Proof.
  destruct IH as (_ & _ & _ & _ & _ & _ & _ & IHendBatch & _).
  intros H. engine_unfold in H. minv_case.
  all: try match goal with
       | Hp : cleanupSources _ _ _ = Done (Throws _) _ |- _ =>
           by apply cleanupSources_links in Hp as [? _]
       end.
  all: repeat match goal with
       | H : endBatch _ _ = Done _ _ |- _ => apply IHendBatch in H
       end.
  all: unfold same_context in *; simpl in *; congruence.
Qed.

Lemma same_context_Effect_callback e : preserves same_context (Effect_callback (S fuel) e).
Proof.
  destruct IH as (_ & _ & _ & _ & _ & _ & _ & _ & _ & _ & _ & IHendEffect & _).
  intros σ r σ' H. engine_unfold in H.
  unfold Effect_start, cycleDetected, startBatch in H. minv_case.
  all: repeat match goal with
       | H : try_finally _ _ _ = Done _ _ |- _ =>
           apply try_finally_Done in H as (? & ? & ? & [[? ?]|(? & ? & ?)])
       end; minv.
  all: try done.
  all: try match goal with
       | Hp : prepareSources _ _ _ = Done (Throws _) _ |- _ =>
           by apply prepareSources_links in Hp as [? _]
       end.
  all: match goal with
       | He : endEffect _ _ _ _ = Done _ _ |- _ => by apply IHendEffect in He
       end.
Qed.

End restores_engine.

Lemma engine_is_restoring fuel : engine_restores fuel.
Proof.
  induction fuel as [|fuel IH];
    [by unfold engine_restores, preserves; split_and!; intros|].
  pose proof (same_context_Effect_callback fuel IH) as Hcallback.
  pose proof (endEffect_context fuel IH) as HendEffect.
  pose proof (same_context_Computed_recompute (S fuel)) as Hrecompute.
  destruct IH as (IHpeek & IHcpeek & IHrecompute & IHcheck & IHgetValue & IHget & IHset
                  & IHendBatch & IHloop & IHeffects & IHcallback & IHendEffect & IHbatch & IHrun).
  pose proof preserves_links_only_calls as (Lsub & Lunsub & Lunsubs & Lprep & Lclean & Ltrack & Lfin).
  pose proof (same_context_notify fuel) as [Nnotify Ntargets].
  unfold engine_restores. split_and!; intros; try done.
  all: try (by eapply HendEffect).
  all: engine_unfold; unfold returnComputed, Computed_store, cycleDetected, readonly_error,
         startBatch.
  all: pres.
  all: try (eapply preserves_weaken; [apply same_context_links|done]).
  all: try (apply preserves_throw_new_error; intros; done).
  all: try (apply preserves_modify; intros; done).
  all: try (apply preserves_modComputed; intros; done).
  all: try (apply preserves_modSignal; intros; done).
  all: try (apply preserves_modEffect; intros; done).
Qed.

(** When a user closure returns or throws, the evaluation context is the
    one in which it was started, whatever formulas and effects have run,
    returned or thrown in between. *)
Theorem context_restored fuel p σ r σ' :
  run fuel p σ = Done r σ' → evalContext σ' = evalContext σ.
Proof.
  intros H.
  destruct (engine_is_restoring fuel)
    as (_ & _ & _ & _ & _ & _ & _ & _ & _ & _ & _ & _ & _ & Hrun).
  by eapply Hrun.
Qed.

(** A computed whose formula reads a source and throws. *)
Definition thrower_state : State :=
  state_of (let* s := signal (VNum 0) in
            computed (GetValue s (λ _, Throw (VStr "no")))).

Lemma context_restored_witness :
  run 20 (GetValue 1 (λ v, Ret v)) thrower_state
  = Done (Throws (VStr "no")) (state_after (run 20 (GetValue 1 (λ v, Ret v))) thrower_state)
  ∧ evalContext (state_after (run 20 (GetValue 1 (λ v, Ret v))) thrower_state) = None.
Proof.
  assert (run 20 (GetValue 1 (λ v, Ret v)) thrower_state
          = Done (Throws (VStr "no"))
              (state_after (run 20 (GetValue 1 (λ v, Ret v))) thrower_state)) as H
    by (vm_compute; reflexivity).
  split; [exact H|]. exact (context_restored _ _ _ _ _ H).
Defined.

(** ** The list of targets of a signal *)


(** [lseg nx h l t]: following [nx] from [h] visits [l] and arrives at [t]. *)
Fixpoint lseg (nx : nat → option nat) (h : option nat) (l : list nat) (t : option nat)
  : Prop :=
  match l with
  | [] => h = t
  | n :: l' => h = Some n ∧ lseg nx (nx n) l' t
  end.





Lemma lseg_app nx h l1 l2 t :
  lseg nx h (l1 ++ l2) t ↔ ∃ m, lseg nx h l1 m ∧ lseg nx m l2 t.
Proof.
  revert h. induction l1 as [|n l1 IH]; intros h; simpl.
  - split; [eauto|]. by intros (m & -> & ?).
  - rewrite IH. split.
    + intros (-> & m & ? & ?). eauto.
    + intros (m & (-> & ?) & ?). eauto.
Qed.





(** The end of a segment is what the last element points at. *)
Lemma lseg_last nx h l t n : lseg nx h (l ++ [n]) t → nx n = t.
Proof. rewrite lseg_app. intros (m & _ & Hm). simpl in Hm. by destruct Hm as [_ ?]. Qed.


(** ** [Signal.prototype._subscribe] *)




(** ** [Signal.prototype._unsubscribe] *)














